(** * TurboStage catalog tools: import_database.py and merge_submission.py

    A shallow embedding of the two command-line tools of the repository
    and the properties of their merge logic.

    The embedding:
    - [Py]: the exceptions the two scripts can raise and the result
      monad that threads them.
    - [Sqlite]: the part of the SQLite engine the import tool talks to
      (tables with named columns, [SELECT *], [SELECT ... WHERE c IN],
      [INSERT] with named columns and an auto-increment row id).
    - [ImportDatabase]: src/import_database.py.
    - [MergeSubmission]: src/merge_submission.py.

    The statements:
    - [ImportSpec], [MergeSpec]: the vocabulary of the statements and
      the concrete stores and documents of the examples.
    - [PyFacts]: loops and lists.
    - [ImportProps]: the version gate of [main], [copy_table],
      [copy_versions], [copy_db_content].
    - [MergeProps]: [merge_into_global] and [verify_submission]. *)

From Stdlib Require Import ZArith String Ascii Lia.
From stdpp Require Import base option list strings gmap pretty.

Open Scope string_scope.
Open Scope list_scope.
Open Scope Z_scope.

(** ** Python exceptions and the result monad *)

Module Py.

(** The exceptions that the modelled code raises, with what their
    message names. *)
Inductive exn : Type :=
  | ValueError (msg : string)
  | IndexError
  | KeyError (key : string)
  | RuntimeError (msg : string)
  | SqliteError (msg : string).

Inductive result (A : Type) : Type :=
  | Ok (a : A)
  | Raise (e : exn).

Arguments Ok {A} a.
Arguments Raise {A} e.

#[global] Instance result_ret : MRet result := λ A a, Ok a.

#[global] Instance result_bind : MBind result := λ A B k m,
  match m with
  | Ok a => k a
  | Raise e => Raise e
  end.

Definition of_option {A} (o : option A) (e : exn) : result A :=
  match o with
  | Some a => Ok a
  | None => Raise e
  end.

(** A [for] loop whose body may raise: the state is threaded from left to
    right and the first exception ends the loop. *)
Fixpoint for_each {A S} (body : S → A → result S) (s : S) (l : list A)
  : result S :=
  match l with
  | [] => Ok s
  | x :: l' => s' ← body s x; for_each body s' l'
  end.

End Py.

Export Py.

(** ** The SQLite engine, as far as the import tool uses it *)

Module Sqlite.

(** A value as the [sqlite3] module hands it to Python: [None], [int],
    [str] or [bytes]. *)
Inductive sqlval : Type :=
  | SqlNull
  | SqlInt (z : Z)
  | SqlText (s : string)
  | SqlBlob (b : string).

#[global] Instance sqlval_eq_dec : EqDecision sqlval.
Proof. solve_decision. Defined.

Definition sqlval_enc (v : sqlval) : unit + Z + string + string :=
  match v with
  | SqlNull => inl (inl (inl tt))
  | SqlInt z => inl (inl (inr z))
  | SqlText s => inl (inr s)
  | SqlBlob b => inr b
  end.

Definition sqlval_dec (x : unit + Z + string + string) : sqlval :=
  match x with
  | inl (inl (inl _)) => SqlNull
  | inl (inl (inr z)) => SqlInt z
  | inl (inr s) => SqlText s
  | inr b => SqlBlob b
  end.

#[global] Instance sqlval_countable : Countable sqlval.
Proof.
  apply (inj_countable' sqlval_enc sqlval_dec). by intros [].
Defined.

(** [str(v)], as an f-string renders the value. *)
Definition py_str (v : sqlval) : string :=
  match v with
  | SqlNull => "None"
  | SqlInt z => pretty z
  | SqlText s => s
  | SqlBlob b => "b'" +:+ b +:+ "'"
  end.

Abbreviation row := (list sqlval).

(** A table: its column names in declaration order (what
    [PRAGMA table_info] lists and the order of a [SELECT *] tuple), its
    rows in row-id order, and the largest row id the table has ever
    held (the [sqlite_sequence] entry of an AUTOINCREMENT table). *)
Record table : Type := Table {
  columns : list string;
  rows : list row;
  seq : Z
}.

(** A database file: its tables by name. *)
Abbreviation db := (gmap string table).

(** [list.index(x)]: position of the first occurrence. *)
Fixpoint index_of (x : string) (l : list string) : option nat :=
  match l with
  | [] => None
  | y :: l' => if decide (x = y) then Some 0%nat else S <$> index_of x l'
  end.

(** [columns.index(col)] raises ValueError when the name is absent. *)
Definition py_index (x : string) (l : list string) : result nat :=
  of_option (index_of x l) (ValueError (x +:+ " is not in list")).

(** [row[i]] on a tuple. *)
Definition py_item (r : row) (i : nat) : result sqlval :=
  of_option (r !! i) IndexError.

(** [PRAGMA table_info(t)]: the column names; no rows, and no error,
    for a table that does not exist. *)
Definition get_table_columns (d : db) (table_name : string) : list string :=
  match d !! table_name with
  | Some t => columns t
  | None => []
  end.

Definition find_table (d : db) (table_name : string) : result table :=
  of_option (d !! table_name) (SqliteError ("no such table: " +:+ table_name)).

(** [SELECT * FROM t]. *)
Definition select_all (d : db) (table_name : string) : result (list row) :=
  t ← find_table d table_name; mret (rows t).

(** [SELECT c FROM t]: one value per row. *)
Definition select_column (d : db) (table_name col : string) : result (list sqlval) :=
  t ← find_table d table_name;
  i ← of_option (index_of col (columns t)) (SqliteError ("no such column: " +:+ col));
  mret ((λ r : row, default SqlNull (r !! i)) <$> rows t).

(** SQL's [v IN (k1, ..., kn)], for a column of integers: NULL is equal
    to nothing, and an integer is equal to the key that is the same
    integer.  This is the comparison of the engine where the column
    holds integers or NULL and the keys are integers, which is what the
    columns [game_id] and [version_id] of the schema (INTEGER) and the
    row ids that key a remap give.  For values of other storage classes
    the engine first applies the affinity of the column to the keys (a
    column declared TEXT that holds '1' matches the key 1); a model
    value carries no declared type, and the comparison is by storage
    class and value there.  The statements about which rows the loops
    of [copy_table] and [copy_versions] meet say so in their
    hypotheses. *)
Definition sql_in (v : sqlval) (keys : list sqlval) : bool :=
  bool_decide (v ≠ SqlNull ∧ v ∈ keys).

(** [SELECT * FROM t WHERE c IN (k1, ..., kn)], for a list of keys
    within the number of parameters the engine accepts in one
    statement. *)
Definition select_where_in (d : db) (table_name col : string)
    (keys : list sqlval) : result (list row) :=
  t ← find_table d table_name;
  i ← of_option (index_of col (columns t)) (SqliteError ("no such column: " +:+ col));
  mret (filter (λ r : row, sql_in (default SqlNull (r !! i)) keys = true) (rows t)).

(** The row that [INSERT INTO t (cols) VALUES (vals)] stores: a named
    column takes its value, the row-id column [id] when it is not named
    takes the new row id, and every other column is NULL (the import
    tool names every column of the source table except [id], so the
    DEFAULT and NOT NULL clauses of a column are left to the engine). *)
Definition new_row (tcols cols : list string) (vals : row) (rowid : Z) : row :=
  (λ c, match index_of c cols with
        | Some i => default SqlNull (vals !! i)
        | None => if decide (c = "id") then SqlInt rowid else SqlNull
        end) <$> tcols.

(** [cursor.execute("INSERT INTO t (cols) VALUES (?,...)", vals)]
    followed by [cursor.lastrowid].  The statement is rejected when the
    table or one of the named columns does not exist, or when the number
    of bindings is not the number of placeholders. *)
Definition insert (d : db) (table_name : string) (cols : list string)
    (vals : row) : result (db * Z) :=
  t ← find_table d table_name;
  if bool_decide (Forall (λ c, c ∈ columns t) cols) then
    if bool_decide (length vals = length cols) then
      let rowid :=
        match index_of "id" cols with
        | Some i => match vals !! i with Some (SqlInt z) => z | _ => seq t + 1 end
        | None => seq t + 1
        end in
      mret (<[table_name := {| columns := columns t;
                               rows := rows t ++ [new_row (columns t) cols vals rowid];
                               seq := Z.max (seq t) rowid |}]> d, rowid)
    else Raise (SqliteError "Incorrect number of bindings supplied")
  else Raise (SqliteError ("table " +:+ table_name +:+ " has no column named")).

(** [CREATE TABLE IF NOT EXISTS t (cols)]. *)
Definition create_table_if_not_exists (d : db) (table_name : string)
    (cols : list string) : db :=
  match d !! table_name with
  | Some _ => d
  | None => <[table_name := {| columns := cols; rows := []; seq := 0 |}]> d
  end.

End Sqlite.

Export Sqlite.

(** ** src/import_database.py *)

Module ImportDatabase.

Definition DB_VERSION : string := "0.5.0".

(** The two counters a copy routine prints when it is done:
    "Processed n rows from input database" and "Inserted m new rows". *)
Record report : Type := Report {
  processed : nat;
  inserted : nat
}.

Definition initialize_database (d : db) : result db :=
  let d := create_table_if_not_exists d "games"
    ["id"; "title"; "release_date"; "genre"; "summary"; "publisher";
     "igdb_id"; "cover_url"] in
  let d := create_table_if_not_exists d "versions"
    ["id"; "game_id"; "version"; "executable"; "archive"; "config"; "cycles"] in
  let d := create_table_if_not_exists d "hashes"
    ["id"; "version_id"; "file_name"; "hash"] in
  let d := create_table_if_not_exists d "local_versions"
    ["id"; "version_id"; "archive"] in
  let d := create_table_if_not_exists d "config_files"
    ["id"; "version_id"; "type"; "path"; "content"] in
  let d := create_table_if_not_exists d "db_version" ["id"; "version"] in
  '(d, _) ← insert d "db_version" ["version"] [SqlText DB_VERSION];
  mret d.

(** [rows[0][0]] of [SELECT version FROM db_version]. *)
Definition get_database_version (d : db) : result sqlval :=
  versions ← select_column d "db_version" "version";
  of_option (head versions) IndexError.

(** [row[:i] + row[i+1:]]. *)
Definition without_index {A} (i : nat) (l : list A) : list A :=
  take i l ++ drop (S i) l.

(** The body of the loop of [copy_table], on the state
    (output database, inserted_row_count). *)
Definition copy_table_row (table_name : string) (columns insert_columns : list string)
    (version_id_idx : nat) (version_id_mapping : gmap sqlval Z)
    (st : db * nat) (r : row) : result (db * nat) :=
  let '(out, inserted_row_count) := st in
  input_version_id ← py_item r version_id_idx;
  match version_id_mapping !! input_version_id with
  | None => mret (out, inserted_row_count)
  | Some new_version_id =>
      row_data ← mapM (λ col,
        if decide (col = "version_id") then mret (SqlInt new_version_id)
        else (i ← py_index col columns; py_item r i)) insert_columns;
      '(out', _) ← insert out table_name insert_columns row_data;
      mret (out', S inserted_row_count)
  end.

Definition copy_table (table_name : string) (inp out : db)
    (version_id_mapping : gmap sqlval Z) : result (db * report) :=
  let columns := get_table_columns inp table_name in
  let input_version_ids := (map_to_list version_id_mapping).*1 in
  input_rows ← select_where_in inp table_name "version_id" input_version_ids;
  let insert_columns := filter (λ col, col ≠ "id") columns in
  version_id_idx ← py_index "version_id" columns;
  '(out', inserted_row_count) ←
    for_each (copy_table_row table_name columns insert_columns
                version_id_idx version_id_mapping) (out, 0%nat) input_rows;
  mret (out', {| processed := length input_rows; inserted := inserted_row_count |}).

(** The body of the loop of [copy_versions], on the state
    (output database, version_id_mapping, inserted_version_count). *)
Definition copy_versions_row (version_columns insert_columns : list string)
    (game_id_idx : nat) (game_id_mapping : gmap sqlval Z)
    (st : db * gmap sqlval Z * nat) (r : row) : result (db * gmap sqlval Z * nat) :=
  let '(out, version_id_mapping, inserted_version_count) := st in
  input_game_id ← py_item r game_id_idx;
  id_idx ← py_index "id" version_columns;
  input_version_id ← py_item r id_idx;
  match game_id_mapping !! input_game_id with
  | None => Raise (RuntimeError ("Game ID '" +:+ py_str input_game_id +:+ "' not found."))
  | Some new_game_id =>
      row_data ← mapM (λ col,
        if decide (col = "game_id") then mret (SqlInt new_game_id)
        else (i ← py_index col version_columns; py_item r i)) insert_columns;
      '(out', new_version_id) ← insert out "versions" insert_columns row_data;
      mret (out', <[input_version_id := new_version_id]> version_id_mapping,
            S inserted_version_count)
  end.

Definition copy_versions (inp out : db) (game_id_mapping : gmap sqlval Z)
    : result (db * gmap sqlval Z * report) :=
  let input_game_ids := (map_to_list game_id_mapping).*1 in
  input_version_rows ← select_where_in inp "versions" "game_id" input_game_ids;
  let version_columns := get_table_columns inp "versions" in
  let insert_columns := filter (λ col, col ≠ "id") version_columns in
  game_id_idx ← py_index "game_id" version_columns;
  '(out', version_id_mapping, inserted_version_count) ←
    for_each (copy_versions_row version_columns insert_columns
                game_id_idx game_id_mapping) (out, ∅, 0%nat) input_version_rows;
  mret (out', version_id_mapping,
        {| processed := length input_version_rows;
           inserted := inserted_version_count |}).

(** The body of the loop of [copy_db_content], on the state
    (output database, existing_igdb_ids, game_id_mapping, inserted_count). *)
Definition copy_db_content_row (columns insert_columns : list string)
    (st : db * gset sqlval * gmap sqlval Z * nat) (r : row)
    : result (db * gset sqlval * gmap sqlval Z * nat) :=
  let '(out, existing_igdb_ids, game_id_mapping, inserted_count) := st in
  igdb_idx ← py_index "igdb_id" columns;
  igdb_id ← py_item r igdb_idx;
  if bool_decide (igdb_id ∈ existing_igdb_ids) then mret st
  else
    id_idx ← py_index "id" columns;
    input_id ← py_item r id_idx;
    let insert_row := without_index id_idx r in
    '(out', output_game_id) ← insert out "games" insert_columns insert_row;
    mret (out', {[igdb_id]} ∪ existing_igdb_ids,
          <[input_id := output_game_id]> game_id_mapping, S inserted_count).

Definition copy_db_content (inp out : db) : result (db * gmap sqlval Z * report) :=
  let columns := get_table_columns inp "games" in
  if bool_decide ("igdb_id" ∈ columns) then
    input_rows ← select_all inp "games";
    existing ← select_column out "games" "igdb_id";
    let existing_igdb_ids : gset sqlval := list_to_set existing in
    id_idx ← py_index "id" columns;
    let insert_columns := without_index id_idx columns in
    '(out', _, game_id_mapping, inserted_count) ←
      for_each (copy_db_content_row columns insert_columns)
               (out, existing_igdb_ids, ∅, 0%nat) input_rows;
    mret (out', game_id_mapping,
          {| processed := length input_rows; inserted := inserted_count |})
  else Raise (ValueError
    "Input database 'games' table does not have an 'igdb_id' column.").

(** How a run of the tool ends. *)
Inductive outcome : Type :=
  | Finished
  | VersionMismatch (input_db_version output_db_version : sqlval)
  | Reported (e : exn)
  | Uncaught (e : exn).

(** The [try] block of [main]: four copies, each committed when it
    returns; an exception is reported, the process exits with status 1
    and the open transaction is lost with the connection, so the file
    keeps what the last commit wrote. *)
Definition copy_all (inp out : db) : outcome * db :=
  match copy_db_content inp out with
  | Raise e => (Reported e, out)
  | Ok (out1, game_id_mapping, _) =>
  match copy_versions inp out1 game_id_mapping with
  | Raise e => (Reported e, out1)
  | Ok (out2, version_id_mapping, _) =>
  match copy_table "hashes" inp out2 version_id_mapping with
  | Raise e => (Reported e, out2)
  | Ok (out3, _) =>
  match copy_table "config_files" inp out3 version_id_mapping with
  | Raise e => (Reported e, out3)
  | Ok (out4, _) => (Finished, out4)
  end end end end.

(** [main], on the input database and the output file ([None] when
    [os.path.isfile(output_db)] is false); the result is how the run
    ends and the output file afterwards. *)
Definition main (inp : db) (output_db : option db) : outcome * option db :=
  match get_database_version inp with
  | Raise e => (Uncaught e, output_db)
  | Ok input_db_version =>
      match output_db with
      | Some out =>
          match get_database_version out with
          | Raise e => (Uncaught e, output_db)
          | Ok output_db_version =>
              if bool_decide (input_db_version ≠ output_db_version)
              then (VersionMismatch input_db_version output_db_version, output_db)
              else let '(o, out') := copy_all inp out in (o, Some out')
          end
      | None =>
          match initialize_database ∅ with
          | Raise e => (Uncaught e, None)
          | Ok out => let '(o, out') := copy_all inp out in (o, Some out')
          end
      end
  end.

End ImportDatabase.

(** ** src/merge_submission.py *)

Module MergeSubmission.

(** *** Python built-ins the script calls *)

(** The characters [int] strips from both ends of an ASCII string: tab,
    line feed, vertical tab, form feed, carriage return and space (the
    separators 28 to 31, for which [str.isspace] holds, are not among
    them). *)
Definition is_space (c : ascii) : bool :=
  let n := N_of_ascii c in
  ((9 <=? n) && (n <=? 13) || (n =? 32))%N.

Definition digit_of (c : ascii) : option Z :=
  let n := Z.of_N (N_of_ascii c) in
  if ((48 <=? n) && (n <=? 57))%Z then Some (n - 48) else None.

(** Decimal digits, where a single underscore may stand between two
    digits; [prev_digit] tells whether the previous character was one. *)
Fixpoint parse_digits (acc : Z) (prev_digit : bool) (l : list ascii) : option Z :=
  match l with
  | [] => if prev_digit then Some acc else None
  | c :: l' =>
      match digit_of c with
      | Some d => parse_digits (10 * acc + d) true l'
      | None =>
          if bool_decide (c = "_"%char) && prev_digit
          then parse_digits acc false l' else None
      end
  end.

Fixpoint lstrip (l : list ascii) : list ascii :=
  match l with
  | c :: l' => if is_space c then lstrip l' else l
  | [] => []
  end.

Definition strip (l : list ascii) : list ascii :=
  rev (lstrip (rev (lstrip l))).

(** [int(s)] for a string [s] in base 10, [None] where Python raises
    ValueError.  ASCII only: a model string is a string of characters
    below 128, so the digits and blanks of other scripts, which [int]
    also takes, do not occur; the limit on the number of digits that
    later versions of Python set by default (4300) is not modelled. *)
Definition py_int (s : string) : option Z :=
  let l := strip (list_ascii_of_string s) in
  match l with
  | c :: l' =>
      if bool_decide (c = "+"%char) then parse_digits 0 false l'
      else if bool_decide (c = "-"%char) then Z.opp <$> parse_digits 0 false l'
      else parse_digits 0 false l
  | [] => None
  end.

(** [s.lower()], on the ASCII letters. *)
Definition lower_char (c : ascii) : ascii :=
  let n := N_of_ascii c in
  if ((65 <=? n) && (n <=? 90))%N then ascii_of_N (n + 32) else c.

Definition lower (s : string) : string :=
  string_of_list_ascii (lower_char <$> list_ascii_of_string s).

Fixpoint is_prefix (p l : list ascii) : bool :=
  match p, l with
  | [], _ => true
  | a :: p', b :: l' => bool_decide (a = b) && is_prefix p' l'
  | _ :: _, [] => false
  end.

Fixpoint is_infix (p l : list ascii) : bool :=
  is_prefix p l ||
  match l with
  | [] => false
  | _ :: l' => is_infix p l'
  end.

(** [sub in s] on strings. *)
Definition contains (sub s : string) : bool :=
  is_infix (list_ascii_of_string sub) (list_ascii_of_string s).

(** [s.split(sep)] for a one-character separator. *)
Fixpoint split_on (sep : ascii) (cur : list ascii) (l : list ascii) : list (list ascii) :=
  match l with
  | [] => [rev cur]
  | c :: l' =>
      if bool_decide (c = sep) then rev cur :: split_on sep [] l'
      else split_on sep (c :: cur) l'
  end.

Fixpoint join (sep : ascii) (parts : list (list ascii)) : list ascii :=
  match parts with
  | [] => []
  | [p] => p
  | p :: ps => (p ++ sep :: join sep ps)%list
  end.

(** [str(pathlib.Path(p).parent)] with POSIX paths: the root is [//] for
    exactly two leading slashes and [/] for any other number of them,
    empty and [.] components are dropped, and a path without components
    is its own parent. *)
Definition path_parent (p : string) : string :=
  let l := list_ascii_of_string p in
  let slash := "/"%char in
  let root :=
    if is_prefix [slash; slash; slash] l then [slash]
    else if is_prefix [slash; slash] l then [slash; slash]
    else if is_prefix [slash] l then [slash]
    else [] in
  let tail := filter (λ x, x ≠ [] ∧ x ≠ ["."%char]) (split_on slash [] l) in
  let parent := (root ++ join slash (removelast tail))%list in
  string_of_list_ascii (match parent with [] => ["."%char] | _ => parent end).

(** [s.replace("\\", "/")]. *)
Definition backslash_to_slash (s : string) : string :=
  string_of_list_ascii
    ((λ c, if bool_decide (c = "\"%char) then "/"%char else c)
       <$> list_ascii_of_string s).

(** *** The JSON documents *)

(** A version record: its [hashes] field (file name to hex digest), which
    may be missing, and its other fields ([executable], [archive], ...)
    by name. *)
Record version : Type := Version {
  hashes : option (gmap string string);
  fields : gmap string string
}.

(** A game of the submission and the submission itself.  Both are only
    iterated, in the order of the document. *)
Record sub_game : Type := SubGame {
  sub_versions : list (string * version)
}.

Record submission : Type := Submission {
  sub_games : list (string * sub_game)
}.

(** A key of the dictionary [global_db["games"]]: a [str] when the
    catalog comes from [json.loads], an [int] when [merge_into_global]
    adds it. *)
Inductive pykey : Type :=
  | KInt (z : Z)
  | KStr (s : string).

#[global] Instance pykey_eq_dec : EqDecision pykey.
Proof. solve_decision. Defined.

#[global] Instance pykey_countable : Countable pykey.
Proof.
  apply (inj_countable'
    (λ k, match k with KInt z => inl z | KStr s => inr s end)
    (λ x, match x with inl z => KInt z | inr s => KStr s end)).
  by intros [].
Defined.

(** A game of the global catalog, and the catalog; [games] is [None]
    for a document without that key. *)
Record game : Type := Game {
  versions : gmap string version
}.

Record global_db : Type := GlobalDb {
  generated_at : option string;
  games : option (gmap pykey game)
}.

(** The key [json.dumps] writes for a dictionary key: a [str] as it is,
    an [int] in decimal. *)
Definition json_key (k : pykey) : string :=
  match k with
  | KInt z => pretty z
  | KStr s => s
  end.

(** *** merge_into_global *)

(** The body of the inner loop, on the state
    (global_db["games"], merged_count). *)
Definition merge_version (igdb_id : pykey) (st : gmap pykey game * nat)
    (entry : string * version) : result (gmap pykey game * nat) :=
  let '(db_games, merged_count) := st in
  let '(ver_name, ver) := entry in
  g ← of_option (db_games !! igdb_id) (KeyError (json_key igdb_id));
  match versions g !! ver_name with
  | None =>
      mret (<[igdb_id := Game (<[ver_name := ver]> (versions g))]> db_games,
            S merged_count)
  | Some existing =>
      existing_hashes ← of_option (hashes existing) (KeyError "hashes");
      let updated :=
        {| hashes := Some (default ∅ (hashes ver) ∪ existing_hashes);
           fields := fields existing |} in
      mret (<[igdb_id := Game (<[ver_name := updated]> (versions g))]> db_games,
            merged_count)
  end.

(** [repr(s)] of a string: single quotes, or double quotes when the
    string holds a single quote and no double quote; the quote and the
    backslash are escaped, tab, line feed and carriage return are
    written \t, \n and \r, and any other character that is not
    printable is written \xhh. *)
Definition hex_digit (n : N) : ascii :=
  if (n <? 10)%N then ascii_of_N (48 + n) else ascii_of_N (87 + n).

Definition repr_char (quote c : ascii) : list ascii :=
  let n := N_of_ascii c in
  let backslash := "\"%char in
  if bool_decide (c = quote) || bool_decide (c = backslash) then [backslash; c]
  else if (n =? 9)%N then [backslash; "t"%char]
  else if (n =? 10)%N then [backslash; "n"%char]
  else if (n =? 13)%N then [backslash; "r"%char]
  else if ((n <? 32) || (n =? 127) || (128 <=? n) && (n <=? 160) || (n =? 173))%N
  then [backslash; "x"%char; hex_digit (n / 16); hex_digit (n mod 16)]
  else [c].

Definition py_repr (s : string) : list ascii :=
  let l := list_ascii_of_string s in
  let single := "'"%char in
  let double := ascii_of_N 34 in
  let quote :=
    if bool_decide (single ∈ l) && negb (bool_decide (double ∈ l))
    then double else single in
  (quote :: (l ≫= repr_char quote) ++ [quote])%list.

(** The message of the ValueError of [int(s)]: the format is
    "invalid literal for int() with base %d: %.200R", which cuts the
    [repr] after 200 characters. *)
Definition int_error (s : string) : exn :=
  ValueError ("invalid literal for int() with base 10: "
              +:+ string_of_list_ascii (take 200 (py_repr s))).

(** The body of the outer loop. *)
Definition merge_game (st : gmap pykey game * nat) (entry : string * sub_game)
    : result (gmap pykey game * nat) :=
  let '(db_games, merged_count) := st in
  let '(igdb_id_str, g) := entry in
  z ← of_option (py_int igdb_id_str) (int_error igdb_id_str);
  let igdb_id := KInt z in
  let db_games :=
    match db_games !! igdb_id with
    | Some _ => db_games
    | None => <[igdb_id := Game ∅]> db_games
    end in
  for_each (merge_version igdb_id) (db_games, merged_count) (sub_versions g).

(** [merge_into_global]: the catalog after the call and the number the
    function prints as "Merged n new version(s)". *)
Definition merge_into_global (db : global_db) (sub : submission)
    : result (global_db * nat) :=
  let db_games := default ∅ (games db) in
  '(db_games', merged_count) ← for_each merge_game (db_games, 0%nat) (sub_games sub);
  mret ({| generated_at := generated_at db; games := Some db_games' |},
        merged_count).

(** *** verify_submission *)

(** A zip file under ARCHIVE_ROOT: its file name and, for each entry,
    the MD5 hex digest of the entry's bytes. *)
Record archive : Type := Archive {
  name : string;
  entries : gmap string string
}.

(** [md5_of_file_in_zip]: [z.open] raises KeyError for a name that is
    not in the archive. *)
Definition md5_of_file_in_zip (zip : archive) (inner_path : string) : result string :=
  of_option (entries zip !! inner_path) (KeyError inner_path).

(** [find_legal_archive], on the list [ARCHIVE_ROOT.rglob("*.zip")]. *)
Definition find_legal_archive (candidates : list archive) (archive_name_hint : string)
    : option archive :=
  List.find (λ cand, contains (lower archive_name_hint) (lower (name cand))) candidates.

(** The hint [verify_submission] derives from a version record. *)
Definition archive_hint (ver : version) : string :=
  let exe := default "" (fields ver !! "executable") in
  let dir_part := backslash_to_slash (path_parent exe) in
  if bool_decide (dir_part = "") then "unknown" else dir_part.

(** One pass of the loop over [hashes.items()]. *)
Definition verify_hash (zip : archive) (inner_file expected_hash : string) (ok : bool)
    : bool :=
  match md5_of_file_in_zip zip inner_file with
  | Ok actual => if bool_decide (actual ≠ expected_hash) then false else ok
  | Raise _ => false
  end.

(** One pass of the loop over the versions of a game. *)
Definition verify_version (candidates : list archive) (ok : bool)
    (entry : string * version) : bool :=
  let ver := entry.2 in
  match find_legal_archive candidates (archive_hint ver) with
  | None => false
  | Some zip => map_fold (verify_hash zip) ok (default ∅ (hashes ver))
  end.

Definition verify_submission (candidates : list archive) (sub : submission) : bool :=
  foldl (λ ok g, foldl (verify_version candidates) ok (sub_versions g.2))
        true (sub_games sub).

End MergeSubmission.

(** * Vocabulary of the statements *)

(** ** The import tool *)

Module ImportSpec.
Import ImportDatabase.

(** The value of column [c] in the row [r] of a table with columns [cols]. *)
Definition field (cols : list string) (r : row) (c : string) : sqlval :=
  match index_of c cols with
  | Some i => default SqlNull (r !! i)
  | None => SqlNull
  end.

(** The source rows a copy selects: those whose [parent] column holds a
    key of the remap [m]. *)
Definition selected (parent : string) (cols : list string) (m : gmap sqlval Z)
    (rs : list row) : list row :=
  filter (λ r, is_Some (m !! field cols r parent)) rs.

(** The row of the output table (columns [tcols]) that stands for the
    source row [r]: [id] is the row id the output assigns, [parent] is
    the remapped parent id, and every other column has the value the
    source row has in the column of that name. *)
Definition remapped_row (parent : string) (cols tcols : list string) (r : row)
    (new_parent new_id : Z) : row :=
  (λ c, if decide (c = "id") then SqlInt new_id
        else if decide (c = parent) then SqlInt new_parent
        else field cols r c) <$> tcols.

(** The copy of the [i]-th selected row into an output table whose
    sequence stood at [seq0] before the copy. *)
Definition copied (parent : string) (cols : list string) (m : gmap sqlval Z)
    (tcols : list string) (seq0 : Z) (i : nat) (r : row) : row :=
  remapped_row parent cols tcols r
    (default 0 (m !! field cols r parent)) (seq0 + 1 + Z.of_nat i).

(** The remap a copy builds: the [id] of the [i]-th selected row is
    sent to the row id of its copy, a later row overriding an earlier
    one with the same [id]. *)
Definition record_ids (cols : list string) (seq0 : Z) (m : gmap sqlval Z)
    (sel : list row) : gmap sqlval Z :=
  foldl (λ m p, <[p.1 := p.2]> m) m
        (imap (λ i r, (field cols r "id", seq0 + 1 + Z.of_nat i)) sel).

(** The IGDB ids of the games of a table, in row order. *)
Definition igdb_ids (t : table) : list sqlval :=
  (λ r : row, field (columns t) r "igdb_id") <$> rows t.

(** The values of an INTEGER column that follows its declaration, and
    the remaps whose keys are row ids. *)
Definition integer_or_null (v : sqlval) : Prop :=
  match v with
  | SqlNull | SqlInt _ => True
  | _ => False
  end.

#[global] Instance integer_or_null_dec v : Decision (integer_or_null v).
Proof. destruct v; apply _. Defined.

Definition is_integer (v : sqlval) : Prop :=
  match v with
  | SqlInt _ => True
  | _ => False
  end.

#[global] Instance is_integer_dec v : Decision (is_integer v).
Proof. destruct v; apply _. Defined.

Definition integer_keys (m : gmap sqlval Z) : Prop :=
  map_Forall (λ k _, is_integer k) m.

(** The database [initialize_database] leaves in a new file. *)
Definition fresh_database : db :=
  <["db_version" := Table ["id"; "version"] [[SqlInt 1; SqlText "0.5.0"]] 1]>
  (<["config_files" := Table ["id"; "version_id"; "type"; "path"; "content"] [] 0]>
  (<["local_versions" := Table ["id"; "version_id"; "archive"] [] 0]>
  (<["hashes" := Table ["id"; "version_id"; "file_name"; "hash"] [] 0]>
  (<["versions" := Table ["id"; "game_id"; "version"; "executable"; "archive";
                          "config"; "cycles"] [] 0]>
  (<["games" := Table ["id"; "title"; "release_date"; "genre"; "summary";
                       "publisher"; "igdb_id"; "cover_url"] [] 0]> ∅))))).

(** *** Concrete stores *)

(** An empty store whose db_version is [v]. *)
Definition db_with_version (v : string) : db :=
  <["db_version" := Table ["id"; "version"] [[SqlInt 1; SqlText v]] 1]> fresh_database.

Definition games_columns : list string :=
  ["id"; "title"; "release_date"; "genre"; "summary"; "publisher"; "igdb_id";
   "cover_url"].

Definition versions_columns : list string :=
  ["id"; "game_id"; "version"; "executable"; "archive"; "config"; "cycles"].

Definition hashes_columns : list string :=
  ["id"; "version_id"; "file_name"; "hash"].

Definition game_row (id : Z) (title : string) (igdb_id : Z) : row :=
  [SqlInt id; SqlText title; SqlNull; SqlNull; SqlNull; SqlNull; SqlInt igdb_id;
   SqlNull].

(** A source with the games 1 (IGDB 100) and 2 (IGDB 200), one version
    of each and one hash of each version. *)
Definition source_games : table :=
  Table games_columns [game_row 1 "Alpha" 100; game_row 2 "Beta" 200] 2.

Definition source_versions : table :=
  Table versions_columns
    [[SqlInt 1; SqlInt 1; SqlText "1.0"; SqlText "A.EXE"; SqlNull; SqlNull; SqlInt 0];
     [SqlInt 2; SqlInt 2; SqlText "1.1"; SqlText "B.EXE"; SqlNull; SqlNull; SqlInt 0]]
    2.

Definition source_hashes : table :=
  Table hashes_columns
    [[SqlInt 1; SqlInt 1; SqlText "A.EXE"; SqlText "0cc175b9c0f1b6a831c399e269772661"];
     [SqlInt 2; SqlInt 2; SqlText "B.EXE"; SqlText "92eb5ffee6ae2fec3ad71c777531578f"]]
    2.

Definition source_db : db :=
  <["hashes" := source_hashes]>
  (<["versions" := source_versions]>
  (<["games" := source_games]> fresh_database)).

(** An output that already has the game with IGDB id 200, as row 7. *)
Definition target_games : table :=
  Table games_columns [game_row 7 "Beta" 200] 7.

Definition target_db : db := <["games" := target_games]> fresh_database.

(** The output after the game copy: the game with IGDB id 100 is the
    new row 8. *)
Definition target_db_1 : db :=
  <["games" := Table games_columns [game_row 7 "Beta" 200; game_row 8 "Alpha" 100] 8]>
  target_db.

(** The remap of the game copy: only the source game 1 was new. *)
Definition game_1_only : gmap sqlval Z := {[SqlInt 1 := 8]}.

(** The output after the version copy, and its remap: only the version
    of game 1 was copied. *)
Definition target_db_2 : db :=
  <["versions" := Table versions_columns
      [[SqlInt 1; SqlInt 8; SqlText "1.0"; SqlText "A.EXE"; SqlNull; SqlNull;
        SqlInt 0]] 1]> target_db_1.

Definition version_1_only : gmap sqlval Z := {[SqlInt 1 := 1]}.

(** The output after the copy of the hashes. *)
Definition target_db_3 : db :=
  <["hashes" := Table hashes_columns
      [[SqlInt 1; SqlInt 1; SqlText "A.EXE";
        SqlText "0cc175b9c0f1b6a831c399e269772661"]] 1]> target_db_2.

(** *** What a run keeps *)

(** [t'] is [t] with rows appended. *)
Definition table_extends (t t' : table) : Prop :=
  columns t' = columns t ∧ rows t `prefix_of` rows t'.

(** [d'] has the tables of [d] and no other, each with the rows of [d]
    first. *)
Definition db_extends (d d' : db) : Prop :=
  ∀ tname, option_Forall2 table_extends (d !! tname) (d' !! tname).

(** [d'] is [d] but for rows appended to the table [tname]. *)
Definition appends_to (tname : string) (d d' : db) : Prop :=
  (∀ other, other ≠ tname → d' !! other = d !! other) ∧
  option_Forall2 table_extends (d !! tname) (d' !! tname).

(** The table [tname] of [d]; no column and no row when [d] has no such
    table. *)
Definition table_of (d : db) (tname : string) : table :=
  default {| columns := []; rows := []; seq := 0 |} (d !! tname).

(** The row [r] of the table [child] holds in its column [fk] the [id]
    of a row of the table [parent]. *)
Definition has_parent (d : db) (child fk parent : string) (r : row) : Prop :=
  ∃ p z, p ∈ rows (table_of d parent) ∧
         field (columns (table_of d parent)) p "id" = SqlInt z ∧
         field (columns (table_of d child)) r fk = SqlInt z.

Definition linked (d : db) (child fk parent : string) : Prop :=
  ∀ r, r ∈ rows (table_of d child) → has_parent d child fk parent r.

(** Referential closure: a version has its game, a hash and a
    configuration file have their version. *)
Definition ref_closed (d : db) : Prop :=
  linked d "versions" "game_id" "games" ∧
  linked d "hashes" "version_id" "versions" ∧
  linked d "config_files" "version_id" "versions".

(** Every new id of the remap [m] is the [id] of a row of [tname]. *)
Definition ids_in (d : db) (tname : string) (m : gmap sqlval Z) : Prop :=
  ∀ k v, m !! k = Some v →
    ∃ p, p ∈ rows (table_of d tname) ∧
         field (columns (table_of d tname)) p "id" = SqlInt v.

(** A source of an older layout: its games table has no igdb_id column. *)
Definition legacy_db : db :=
  <["games" := Table ["id"; "title"] [[SqlInt 1; SqlText "Alpha"]] 1]> fresh_database.

(** The row [p] (columns [tcols]) holds what the row [r] (columns
    [cols]) holds in every column of [r] but [id]. *)
Definition copy_of (cols tcols : list string) (r p : row) : Prop :=
  ∀ c, c ∈ cols → c ≠ "id" → field tcols p c = field cols r c.

(** Every pair of the remap [m] sends the [id] of a row of [src] to the
    [id] of a row of the table [tname] of [d] that is a copy of it. *)
Definition remap_sound (src : table) (d : db) (tname : string) (m : gmap sqlval Z) : Prop :=
  ∀ k v, m !! k = Some v →
    ∃ r p, r ∈ rows src ∧ field (columns src) r "id" = k ∧
           p ∈ rows (table_of d tname) ∧
           field (columns (table_of d tname)) p "id" = SqlInt v ∧
           copy_of (columns src) (columns (table_of d tname)) r p.

End ImportSpec.

(** ** The submission merge *)

Module MergeSpec.
Import MergeSubmission.

(** [global_db["games"]], empty for a document without that key. *)
Definition catalog (db : global_db) : gmap pykey game := default ∅ (games db).

(** The version record stored under a game key and a version name. *)
Definition cell (G : gmap pykey game) (k : pykey) (ver_name : string) : option version :=
  g ← G !! k; versions g !! ver_name.

Definition db_cell (db : global_db) (k : pykey) (ver_name : string) : option version :=
  cell (catalog db) k ver_name.

(** What the inner loop leaves in a cell that held [old] when it meets
    the submitted record [ver]. *)
Definition merged_record (old : option version) (ver : version) : version :=
  match old with
  | None => ver
  | Some existing =>
      {| hashes := Some (default ∅ (hashes ver) ∪ default ∅ (hashes existing));
         fields := fields existing |}
  end.

(** The submitted versions, flattened in the order of the loops:
    (game key, version name, record). *)
Definition entries_of (gs : list (string * sub_game)) : list (string * string * version) :=
  gs ≫= λ kg, (λ nv : string * version, (kg.1, nv.1, nv.2)) <$> sub_versions kg.2.

(** The cell an entry goes to: the game id its key denotes and the
    version name. *)
Definition entry_cell (e : string * string * version) : option Z * string :=
  (py_int e.1.1, e.1.2).

(** An entry is new for a catalog when its cell is empty there. *)
Definition is_new (G : gmap pykey game) (e : string * string * version) : Prop :=
  match py_int e.1.1 with
  | Some z => cell G (KInt z) e.1.2 = None
  | None => False
  end.

#[global] Instance is_new_dec G e : Decision (is_new G e).
Proof. unfold is_new. destruct (py_int e.1.1); apply _. Defined.

(** A cell that no entry of the submission goes to. *)
Definition untouched (gs : list (string * sub_game)) (key : pykey) (ver_name : string)
    : Prop :=
  ∀ k g z, (k, g) ∈ gs → py_int k = Some z → key = KInt z →
           ver_name ∉ (sub_versions g).*1.

(** A game key that no key of the submission denotes. *)
Definition unnamed (gs : list (string * sub_game)) (key : pykey) : Prop :=
  ∀ k g z, (k, g) ∈ gs → py_int k = Some z → key ≠ KInt z.

(** The record an entry meets in the catalog, if any, has hashes. *)
Definition hashes_ready (G : gmap pykey game) (e : string * string * version) : Prop :=
  match py_int e.1.1 with
  | Some z =>
      match cell G (KInt z) e.1.2 with
      | Some existing => is_Some (hashes existing)
      | None => True
      end
  | None => False
  end.

#[global] Instance hashes_ready_dec G e : Decision (hashes_ready G e).
Proof.
  unfold hashes_ready. destruct (py_int e.1.1); [|apply _].
  destruct (cell G _ _); apply _.
Defined.

(** The submissions the merge accepts: every game key is an integer
    literal, no two versions go to the same game id and version name,
    and the records they meet in the catalog have hashes. *)
Definition mergeable (G : gmap pykey game) (gs : list (string * sub_game)) : Prop :=
  Forall (λ kg : string * sub_game, is_Some (py_int kg.1)) gs ∧
  NoDup (entry_cell <$> entries_of gs) ∧
  Forall (hashes_ready G) (entries_of gs).

#[global] Instance mergeable_dec G gs : Decision (mergeable G gs).
Proof. unfold mergeable. apply _. Defined.

(** The hashes of [ver] are already part of the record in the cell. *)
Definition absorbed (G : gmap pykey game) (k : pykey) (ver_name : string)
    (ver : version) : Prop :=
  ∃ e h, cell G k ver_name = Some e ∧ hashes e = Some h ∧
         default ∅ (hashes ver) ∪ h = h.

(** *** What [verify_submission] reports *)

Definition no_archive (candidates : list archive) (ver : version) : Prop :=
  find_legal_archive candidates (archive_hint ver) = None.

Definition hash_mismatch (candidates : list archive) (ver : version)
    (inner_file expected_hash : string) : Prop :=
  ∃ zip actual,
    find_legal_archive candidates (archive_hint ver) = Some zip ∧
    md5_of_file_in_zip zip inner_file = Ok actual ∧ actual ≠ expected_hash.

Definition missing_entry (candidates : list archive) (ver : version)
    (inner_file : string) : Prop :=
  ∃ zip,
    find_legal_archive candidates (archive_hint ver) = Some zip ∧
    md5_of_file_in_zip zip inner_file = Raise (KeyError inner_file).

(** No mismatch and no missing entry over all the triples
    (hint, inner file, expected digest) of the submission. *)
Definition triples_clean (candidates : list archive) (sub : submission) : Prop :=
  ∀ k nm ver f d,
    (k, nm, ver) ∈ entries_of (sub_games sub) →
    default ∅ (hashes ver) !! f = Some d →
    ¬ hash_mismatch candidates ver f d ∧ ¬ missing_entry candidates ver f.

(** An archive was found for every version of the submission. *)
Definition all_located (candidates : list archive) (sub : submission) : Prop :=
  ∀ k nm ver, (k, nm, ver) ∈ entries_of (sub_games sub) → ¬ no_archive candidates ver.

(** A version passes: its archive is found and holds every file of
    [hashes] with the expected digest. *)
Definition version_ok (candidates : list archive) (ver : version) : Prop :=
  ∃ zip, find_legal_archive candidates (archive_hint ver) = Some zip ∧
         ∀ f d, default ∅ (hashes ver) !! f = Some d → entries zip !! f = Some d.

(** *** Concrete documents *)

(** The catalog [json.loads] returns for
    {"generated_at": "2025-01-01T00:00:00",
     "games": {"123": {"versions": {"1.0": {"executable": "GAME/GAME.EXE",
                                            "hashes": {"a": "1", "b": "2"}}}}}}:
    the game key is the string "123". *)
Definition loaded_catalog : global_db :=
  {| generated_at := Some "2025-01-01T00:00:00";
     games := Some {[KStr "123" := Game {["1.0" :=
       {| hashes := Some {["a" := "1"; "b" := "2"]};
          fields := {["executable" := "GAME/GAME.EXE"]} |}]}]} |}.

(** The same catalog as an earlier [merge_into_global] of the same
    process leaves it: the game key is the integer 123. *)
Definition merged_catalog : global_db :=
  {| generated_at := Some "2025-01-01T00:00:00";
     games := Some {[KInt 123 := Game {["1.0" :=
       {| hashes := Some {["a" := "1"; "b" := "2"]};
          fields := {["executable" := "GAME/GAME.EXE"]} |}]}]} |}.

(** A submission for the same game: version 1.0 again, with the hashes
    {"b": "3", "c": "4"}, and a version 1.1. *)
Definition submitted_1_0 : version :=
  {| hashes := Some {["b" := "3"; "c" := "4"]};
     fields := {["executable" := "GAME/GAME.EXE"; "archive" := "game.zip"]} |}.

Definition submitted_1_1 : version :=
  {| hashes := Some {["d" := "5"]};
     fields := {["executable" := "GAME/GAME.EXE"]} |}.

Definition sample_submission : submission :=
  {| sub_games := [("123", {| sub_versions := [("1.0", submitted_1_0);
                                               ("1.1", submitted_1_1)] |})] |}.

(** [sample_submission] merged into [merged_catalog]: the hashes of
    version 1.0 are united, version 1.1 is new. *)
Definition sample_merged : global_db :=
  {| generated_at := Some "2025-01-01T00:00:00";
     games := Some {[KInt 123 := Game {[
       "1.0" := {| hashes := Some {["a" := "1"; "b" := "3"; "c" := "4"]};
                   fields := {["executable" := "GAME/GAME.EXE"]} |};
       "1.1" := submitted_1_1]}]} |}.

(** [sample_submission] merged into [loaded_catalog]: the game 123 now
    has an entry under the string key and one under the integer key. *)
Definition duplicated_catalog : global_db :=
  {| generated_at := Some "2025-01-01T00:00:00";
     games := Some {[
       KStr "123" := Game {["1.0" :=
         {| hashes := Some {["a" := "1"; "b" := "2"]};
            fields := {["executable" := "GAME/GAME.EXE"]} |}]};
       KInt 123 := Game {["1.0" := submitted_1_0; "1.1" := submitted_1_1]}]} |}.

(** A catalog without games and a submission whose only version has no
    [hashes] field. *)
Definition empty_catalog : global_db :=
  {| generated_at := Some "2025-01-01T00:00:00"; games := Some ∅ |}.

Definition hashless_version : version :=
  {| hashes := None; fields := {["executable" := "GAME/GAME.EXE"]} |}.

Definition hashless_submission : submission :=
  {| sub_games := [("123", {| sub_versions := [("1.0", hashless_version)] |})] |}.

(** The catalog after [hashless_submission] was merged into
    [empty_catalog]. *)
Definition hashless_catalog : global_db :=
  {| generated_at := Some "2025-01-01T00:00:00";
     games := Some {[KInt 123 := Game {["1.0" := hashless_version]}]} |}.



(** An archive folder with one zip that holds the files of
    [sample_submission] with the submitted digests. *)
Definition sample_archives : list archive :=
  [{| name := "Game-Pack.zip";
      entries := {["b" := "3"; "c" := "4"; "d" := "5"]} |}].

(** *** What a merge keeps *)



(** Every version record of [G] has a hashes field. *)
Definition all_hashed (G : gmap pykey game) : Prop :=
  map_Forall (λ (_ : pykey) (g : game),
    map_Forall (λ (_ : string) (e : version), is_Some (hashes e)) (versions g)) G.

(** [merge_into_global] on two submissions, one after the other; the
    count is the sum of the two counts. *)
Definition merge_both (db : global_db) (sub1 sub2 : submission) : result (global_db * nat) :=
  '(db1, n1) ← merge_into_global db sub1;
  '(db2, n2) ← merge_into_global db1 sub2;
  mret (db2, (n1 + n2)%nat).

(** A version whose executable is a bare file name, as a DOS path is
    for POSIX [pathlib]. *)
Definition bare_version : version :=
  {| hashes := Some {["GAME.EXE" := "0cc175b9c0f1b6a831c399e269772661"]};
     fields := {["executable" := "GAME\GAME.EXE"]} |}.

Definition two_archives : list archive :=
  [{| name := "Other.zip"; entries := {["GAME.EXE" := "0cc175b9c0f1b6a831c399e269772661"]} |};
   {| name := "Game.zip"; entries := ∅ |}].

End MergeSpec.

(** * Loops and lists *)

Module PyFacts.

Lemma for_each_cons_Ok {A S} (body : S → A → result S) s x l s'' :
  for_each body s (x :: l) = Ok s'' →
  ∃ s', body s x = Ok s' ∧ for_each body s' l = Ok s''.
Proof. simpl. destruct (body s x) as [s'|]; simpl; [eauto|done]. Qed.


Lemma bind_Ok {A B} (m : result A) (k : A → result B) b :
  m ≫= k = Ok b → ∃ a, m = Ok a ∧ k a = Ok b.
Proof. destruct m as [a|]; simpl; [eauto|done]. Qed.

Lemma of_option_Ok {A} (o : option A) e a : of_option o e = Ok a → o = Some a.
Proof. destruct o; simpl; [by intros [= ->]|done]. Qed.

Lemma filter_ext_in {A} (P Q : A → Prop) `{∀ x, Decision (P x)} `{∀ x, Decision (Q x)}
    (l : list A) :
  (∀ x, x ∈ l → P x ↔ Q x) → filter P l = filter Q l.
Proof.
  induction l as [|x l IH]; intros HPQ; [done|].
  rewrite !filter_cons.
  rewrite IH by (intros y Hy; apply HPQ; by right).
  destruct (decide (P x)) as [HP|HP], (decide (Q x)) as [HQ|HQ]; try done.
  - exfalso. apply HQ, HPQ; [by left|done].
  - exfalso. apply HP, HPQ; [by left|done].
Qed.

Lemma length_filter_fmap {A B} (f : A → B) (P : B → Prop) `{∀ x, Decision (P x)}
    (l : list A) :
  length (filter P (f <$> l)) = length (filter (P ∘ f) l).
Proof.
  induction l as [|x l IH]; [done|].
  rewrite fmap_cons, !filter_cons. simpl.
  destruct (decide (P (f x))); simpl; by rewrite IH.
Qed.

Lemma index_of_Some x l i : index_of x l = Some i → l !! i = Some x.
Proof.
  revert i. induction l as [|y l IH]; intros i; simpl; [done|].
  case_decide as Hxy.
  - intros [= <-]. by subst.
  - destruct (index_of x l) as [j|]; simpl; [|done].
    intros [= <-]. by apply IH.
Qed.

Lemma index_of_is_Some x l : x ∈ l → is_Some (index_of x l).
Proof.
  induction 1 as [|x y l Hin IH]; simpl.
  - rewrite decide_True by done. eauto.
  - case_decide; [eauto|]. destruct IH as [j ->]. simpl. eauto.
Qed.

Lemma index_of_None x l : x ∉ l → index_of x l = None.
Proof.
  intros Hx. destruct (index_of x l) as [i|] eqn:Hi; [|done].
  apply index_of_Some in Hi. exfalso. apply Hx. by eapply list_elem_of_lookup_2.
Qed.

End PyFacts.

(** * Properties of the import tool *)

Module ImportProps.
Import ImportDatabase ImportSpec PyFacts.

(** ** The version gate of [main] *)

Lemma initialize_database_fresh : initialize_database ∅ = Ok fresh_database.
Proof. vm_compute. reflexivity. Qed.

Lemma fresh_database_version :
  get_database_version fresh_database = Ok (SqlText DB_VERSION).
Proof. vm_compute. reflexivity. Qed.

Lemma copy_all_outcome inp out o out' :
  copy_all inp out = (o, out') →
  o = Finished ∨ ∃ e, o = Reported e.
Proof.
  unfold copy_all. intros H.
  repeat match type of H with
  | context [match ?x with _ => _ end] => destruct x
  end; simplify_eq; eauto.
Qed.

(** C5: when the two stores exist and their db_version values differ,
    [main] reports the version mismatch and leaves the output file exactly
    as it was: no row is written to any of its tables. *)
Theorem main_version_mismatch_no_write (inp out : db) (v_in v_out : sqlval) :
  get_database_version inp = Ok v_in →
  get_database_version out = Ok v_out →
  v_in ≠ v_out →
  main inp (Some out) = (VersionMismatch v_in v_out, Some out).
Proof.
  intros Hin Hout Hne. unfold main. rewrite Hin, Hout.
  by rewrite bool_decide_eq_true_2.
Qed.

Lemma main_version_mismatch_no_write_witness :
  main (db_with_version "0.5.0") (Some (db_with_version "0.6.0"))
  = (VersionMismatch (SqlText "0.5.0") (SqlText "0.6.0"),
     Some (db_with_version "0.6.0")).
Proof.
  apply main_version_mismatch_no_write.
  - vm_compute. reflexivity.
  - vm_compute. reflexivity.
  - discriminate.
Defined.

(** C10: when the output file does not exist, [main] creates it with
    db_version "0.5.0" and runs the whole copy into it, whatever the
    db_version of the input is; such a run never ends in a version
    mismatch. *)
Theorem main_creates_output_without_version_check (inp : db) (v_in : sqlval) :
  get_database_version inp = Ok v_in →
  initialize_database ∅ = Ok fresh_database ∧
  get_database_version fresh_database = Ok (SqlText "0.5.0") ∧
  main inp None = ((copy_all inp fresh_database).1,
                   Some (copy_all inp fresh_database).2) ∧
  ∀ a b, (main inp None).1 ≠ VersionMismatch a b.
Proof.
  intros Hin.
  assert (Hmain : main inp None = ((copy_all inp fresh_database).1,
                                   Some (copy_all inp fresh_database).2)).
  { unfold main. rewrite Hin, initialize_database_fresh.
    by destruct (copy_all inp fresh_database). }
  split_and!; [apply initialize_database_fresh | apply fresh_database_version | done |].
  intros a b. rewrite Hmain. simpl.
  destruct (copy_all inp fresh_database) as [o out'] eqn:Hc. simpl.
  destruct (copy_all_outcome _ _ _ _ Hc) as [-> | [e ->]]; discriminate.
Qed.

Lemma main_creates_output_without_version_check_witness :
  (main (db_with_version "0.6.0") None).1 = Finished ∧
  (main (db_with_version "0.6.0") None).2 = Some fresh_database.
Proof.
  destruct (main_creates_output_without_version_check
              (db_with_version "0.6.0") (SqlText "0.6.0")) as (_ & _ & Hm & _).
  - vm_compute. reflexivity.
  - rewrite Hm. vm_compute. split; reflexivity.
Defined.

(** ** Rows, columns and the INSERT statement *)

Lemma mapM_row_data parent cols (r : row) (nv : Z) (icols : list string) :
  length r = length cols →
  Forall (λ c, c ∈ cols) icols →
  mapM (λ col, if decide (col = parent) then mret (SqlInt nv)
               else (i ← py_index col cols; py_item r i)) icols
  = Ok ((λ c, if decide (c = parent) then SqlInt nv else field cols r c) <$> icols).
Proof.
  intros Hlen. induction 1 as [|c icols Hc _ IH]; simpl; [done|].
  rewrite IH. case_decide; simpl; [done|].
  destruct (index_of_is_Some c cols Hc) as [i Hi].
  unfold py_index, field. rewrite Hi. simpl.
  apply index_of_Some in Hi.
  destruct (lookup_lt_is_Some_2 r i) as [v Hv].
  { rewrite Hlen. by eapply lookup_lt_Some. }
  unfold py_item. rewrite Hv. done.
Qed.

Lemma filter_not_id_spec (cols : list string) c :
  c ∈ filter (λ col, col ≠ "id") cols ↔ c ∈ cols ∧ c ≠ "id".
Proof. rewrite list_elem_of_filter. tauto. Qed.

Lemma new_row_remapped parent cols tcols (r : row) nv rowid :
  parent ∈ cols → parent ≠ "id" →
  new_row tcols (filter (λ col, col ≠ "id") cols)
    ((λ c, if decide (c = parent) then SqlInt nv else field cols r c)
       <$> filter (λ col, col ≠ "id") cols) rowid
  = remapped_row parent cols tcols r nv rowid.
Proof.
  intros Hp Hpid. unfold new_row, remapped_row.
  apply list_fmap_ext. intros _ c _.
  destruct (index_of c (filter (λ col, col ≠ "id") cols)) as [j|] eqn:Hj.
  - apply index_of_Some in Hj.
    rewrite list_lookup_fmap, Hj. simpl.
    assert (c ∈ filter (λ col, col ≠ "id") cols) as [Hc Hcid]%filter_not_id_spec
      by by eapply list_elem_of_lookup_2.
    rewrite (decide_False (P := c = "id")) by done. done.
  - destruct (decide (c = "id")) as [->|Hcid]; [done|].
    destruct (decide (c = parent)) as [->|Hcp].
    + exfalso. assert (parent ∈ filter (λ col, col ≠ "id") cols) as Hin
        by by apply filter_not_id_spec.
      apply index_of_is_Some in Hin. rewrite Hj in Hin. by destruct Hin.
    + unfold field. destruct (index_of c cols) as [i|] eqn:Hi; [|done].
      exfalso. apply index_of_Some in Hi.
      assert (c ∈ filter (λ col, col ≠ "id") cols) as Hin.
      { apply filter_not_id_spec. split; [by eapply list_elem_of_lookup_2|done]. }
      apply index_of_is_Some in Hin. rewrite Hj in Hin. by destruct Hin.
Qed.

Lemma insert_ok (d : db) tname t icols vals :
  d !! tname = Some t →
  Forall (λ c, c ∈ columns t) icols →
  length vals = length icols →
  "id" ∉ icols →
  insert d tname icols vals
  = Ok (<[tname := {| columns := columns t;
                      rows := rows t ++ [new_row (columns t) icols vals (seq t + 1)];
                      seq := seq t + 1 |}]> d, seq t + 1).
Proof.
  intros Ht Hcols Hlen Hid. unfold insert, find_table. rewrite Ht. simpl.
  rewrite bool_decide_eq_true_2 by done.
  rewrite bool_decide_eq_true_2 by done.
  rewrite (index_of_None "id" icols Hid). simpl.
  by rewrite Z.max_r by lia.
Qed.

Lemma elem_of_map_keys (m : gmap sqlval Z) v :
  v ∈ (map_to_list m).*1 ↔ is_Some (m !! v).
Proof.
  rewrite list_elem_of_fmap. split.
  - intros [[k x] [-> Hkx]]. apply elem_of_map_to_list in Hkx. eauto.
  - intros [x Hx]. exists (v, x). split; [done|]. by apply elem_of_map_to_list.
Qed.

Lemma integer_keys_not_null (m : gmap sqlval Z) : integer_keys m → m !! SqlNull = None.
Proof.
  intros Hm. destruct (m !! SqlNull) as [x|] eqn:Hx; [|done].
  by destruct (Hm SqlNull x Hx).
Qed.

Lemma sql_in_keys (m : gmap sqlval Z) v :
  m !! SqlNull = None →
  sql_in v (map_to_list m).*1 = true ↔ is_Some (m !! v).
Proof.
  intros Hnull. unfold sql_in. rewrite bool_decide_eq_true, elem_of_map_keys.
  split; [tauto|]. intros Hv. split; [|done]. intros ->.
  rewrite Hnull in Hv. by destruct Hv.
Qed.

Lemma py_item_field cols (r : row) c i :
  length r = length cols →
  index_of c cols = Some i →
  py_item r i = Ok (field cols r c).
Proof.
  intros Hlen Hi. unfold py_item, field. rewrite Hi.
  destruct (lookup_lt_is_Some_2 r i) as [v Hv]; [|by rewrite Hv].
  rewrite Hlen. apply index_of_Some in Hi. by eapply lookup_lt_Some.
Qed.

(** ** copy_table *)

Section copy_table.
Variable table_name : string.
Variable cols : list string.
Variable vm : gmap sqlval Z.

Local Abbreviation icols := (filter (λ col, col ≠ "id") cols).
Local Abbreviation cp := (copied "version_id" cols vm).

Lemma copy_table_row_ok idx (out : db) t n (r : row) :
  index_of "version_id" cols = Some idx →
  out !! table_name = Some t →
  Forall (λ c, c ∈ columns t) icols →
  length r = length cols →
  is_Some (vm !! field cols r "version_id") →
  copy_table_row table_name cols icols idx vm (out, n) r
  = Ok (<[table_name := {| columns := columns t;
                           rows := rows t ++ [cp (columns t) (seq t) 0%nat r];
                           seq := seq t + 1 |}]> out, S n).
Proof.
  intros Hidx Ht Hcols Hlen [nv Hnv]. unfold copy_table_row.
  rewrite (py_item_field cols r "version_id" idx Hlen Hidx).
  cbn [mbind result_bind]. rewrite Hnv.
  assert (Hp : "version_id" ∈ cols).
  { apply index_of_Some in Hidx. by eapply list_elem_of_lookup_2. }
  rewrite (mapM_row_data "version_id" cols r nv icols Hlen).
  2:{ apply Forall_forall. by intros c [? _]%filter_not_id_spec. }
  cbn [mbind result_bind].
  rewrite (insert_ok out table_name t icols _ Ht Hcols).
  2:{ by rewrite length_fmap. }
  2:{ by intros [_ ?]%filter_not_id_spec. }
  cbn [mbind result_bind mret result_ret].
  rewrite new_row_remapped by done.
  unfold copied. rewrite Hnv. simpl. by rewrite Z.add_0_r.
Qed.

Lemma copy_table_loop idx (out : db) t n (sel : list row) :
  index_of "version_id" cols = Some idx →
  out !! table_name = Some t →
  Forall (λ c, c ∈ columns t) icols →
  Forall (λ r : row, length r = length cols ∧
                     is_Some (vm !! field cols r "version_id")) sel →
  for_each (copy_table_row table_name cols icols idx vm) (out, n) sel
  = Ok (<[table_name := {| columns := columns t;
                           rows := rows t ++ imap (cp (columns t) (seq t)) sel;
                           seq := seq t + Z.of_nat (length sel) |}]> out,
        (n + length sel)%nat).
Proof.
  intros Hidx Ht Hcols Hsel. revert out t n Ht Hcols.
  induction Hsel as [|r sel [Hlen Hnv] _ IH]; intros out t n Ht Hcols.
  - simpl. rewrite app_nil_r, Z.add_0_r, Nat.add_0_r.
    rewrite insert_id; [done|]. by destruct t.
  - cbn [for_each].
    rewrite (copy_table_row_ok idx out t n r Hidx Ht Hcols Hlen Hnv).
    cbn [mbind result_bind].
    rewrite (IH _ {| columns := columns t;
                     rows := rows t ++ [cp (columns t) (seq t) 0%nat r];
                     seq := seq t + 1 |} (S n)).
    2:{ by rewrite lookup_insert_eq. }
    2:{ done. }
    cbn [columns rows seq]. rewrite insert_insert_eq.
    rewrite <- app_assoc. cbn [app imap length].
    replace (imap (cp (columns t) (seq t + 1)) sel)
      with (imap (cp (columns t) (seq t) ∘ S) sel).
    2:{ apply imap_ext. intros i x _. unfold copied. simpl.
        by replace (seq t + 1 + Z.of_nat (S i)) with (seq t + 1 + 1 + Z.of_nat i) by lia. }
    replace (seq t + 1 + Z.of_nat (length sel))
      with (seq t + Z.of_nat (S (length sel))) by lia.
    by replace (S n + length sel)%nat with (n + S (length sel))%nat by lia.
Qed.

End copy_table.

(** C6: [copy_table] copies exactly the rows of the source table whose
    version_id is a key of the remap, each of them once and in source
    order: the copy of a row has the remapped version_id, a row id the
    output table assigns (the source id is dropped), and the other
    columns as they are.  The two printed counters are the number of
    these rows, so a row whose version_id is not a key is neither
    inserted nor counted. *)
Theorem copy_table_remaps_mapped_rows (table_name : string) (inp out : db)
    (vm : gmap sqlval Z) (tin tout : table) :
  inp !! table_name = Some tin →
  out !! table_name = Some tout →
  "version_id" ∈ columns tin →
  Forall (λ r : row, length r = length (columns tin)) (rows tin) →
  (∀ c, c ∈ columns tin → c ≠ "id" → c ∈ columns tout) →
  vm !! SqlNull = None →
  let sel := selected "version_id" (columns tin) vm (rows tin) in
  copy_table table_name inp out vm
  = Ok (<[table_name := {| columns := columns tout;
                           rows := rows tout ++
                                   imap (copied "version_id" (columns tin) vm
                                           (columns tout) (seq tout)) sel;
                           seq := seq tout + Z.of_nat (length sel) |}]> out,
        {| processed := length sel; inserted := length sel |}).
Proof.
  intros Hin Hout Hvid Hrows Hcols Hnull sel.
  destruct (index_of_is_Some _ _ Hvid) as [idx Hidx].
  unfold copy_table, select_where_in, find_table, get_table_columns, py_index.
  rewrite Hin. cbn [of_option mbind result_bind]. rewrite Hidx.
  cbn [of_option mbind result_bind mret result_ret].
  assert (Hsel : filter (λ r : row, sql_in (default SqlNull (r !! idx))
                                      (map_to_list vm).*1 = true) (rows tin) = sel).
  { apply list_filter_iff. intros r. rewrite sql_in_keys by done.
    unfold field. by rewrite Hidx. }
  rewrite Hsel.
  rewrite (copy_table_loop table_name (columns tin) vm idx out tout 0 sel Hidx Hout).
  - done.
  - apply Forall_forall. intros c [? ?]%filter_not_id_spec. by apply Hcols.
  - apply Forall_forall. intros r [Hr Hrin]%list_elem_of_filter. split; [|done].
    by eapply (proj1 (Forall_forall _ _) Hrows).
Qed.

Lemma copy_table_remaps_mapped_rows_witness :
  copy_table "hashes" source_db target_db_2 version_1_only
  = Ok (target_db_3, {| processed := 1; inserted := 1 |}).
Proof.
  rewrite (copy_table_remaps_mapped_rows "hashes" source_db target_db_2
             version_1_only source_hashes (Table hashes_columns [] 0)).
  - vm_compute. reflexivity.
  - vm_compute. reflexivity.
  - vm_compute. reflexivity.
  - apply (bool_decide_unpack _). vm_compute. exact I.
  - repeat constructor.
  - intros c Hc _. exact Hc.
  - vm_compute. reflexivity.
Defined.

(** ** copy_versions *)

Section copy_versions.
Variable cols : list string.
Variable gm : gmap sqlval Z.

Local Abbreviation icols := (filter (λ col, col ≠ "id") cols).
Local Abbreviation cp := (copied "game_id" cols gm).

Lemma copy_versions_row_ok idx (out : db) t m n (r : row) :
  index_of "game_id" cols = Some idx →
  "id" ∈ cols →
  out !! "versions" = Some t →
  Forall (λ c, c ∈ columns t) icols →
  length r = length cols →
  is_Some (gm !! field cols r "game_id") →
  copy_versions_row cols icols idx gm (out, m, n) r
  = Ok (<["versions" := {| columns := columns t;
                           rows := rows t ++ [cp (columns t) (seq t) 0%nat r];
                           seq := seq t + 1 |}]> out,
        <[field cols r "id" := seq t + 1]> m, S n).
Proof.
  intros Hidx Hid Ht Hcols Hlen [ng Hng]. unfold copy_versions_row.
  rewrite (py_item_field cols r "game_id" idx Hlen Hidx). cbn [mbind result_bind].
  destruct (index_of_is_Some _ _ Hid) as [j Hj].
  assert (Hpj : py_index "id" cols = Ok j) by (unfold py_index; by rewrite Hj).
  rewrite Hpj. cbn [mbind result_bind].
  rewrite (py_item_field cols r "id" j Hlen Hj). cbn [mbind result_bind]. rewrite Hng.
  assert (Hp : "game_id" ∈ cols).
  { apply index_of_Some in Hidx. by eapply list_elem_of_lookup_2. }
  rewrite (mapM_row_data "game_id" cols r ng icols Hlen).
  2:{ apply Forall_forall. by intros c [? _]%filter_not_id_spec. }
  cbn [mbind result_bind].
  rewrite (insert_ok out "versions" t icols _ Ht Hcols).
  2:{ by rewrite length_fmap. }
  2:{ by intros [_ ?]%filter_not_id_spec. }
  cbn [mbind result_bind mret result_ret].
  rewrite new_row_remapped by done.
  unfold copied. rewrite Hng. simpl. by rewrite Z.add_0_r.
Qed.

Lemma copy_versions_loop idx (out : db) t m n (sel : list row) :
  index_of "game_id" cols = Some idx →
  "id" ∈ cols →
  out !! "versions" = Some t →
  Forall (λ c, c ∈ columns t) icols →
  Forall (λ r : row, length r = length cols ∧
                     is_Some (gm !! field cols r "game_id")) sel →
  for_each (copy_versions_row cols icols idx gm) (out, m, n) sel
  = Ok (<["versions" := {| columns := columns t;
                           rows := rows t ++ imap (cp (columns t) (seq t)) sel;
                           seq := seq t + Z.of_nat (length sel) |}]> out,
        record_ids cols (seq t) m sel,
        (n + length sel)%nat).
Proof.
  intros Hidx Hid Ht Hcols Hsel. revert out t m n Ht Hcols.
  induction Hsel as [|r sel [Hlen Hng] _ IH]; intros out t m n Ht Hcols.
  - simpl. rewrite app_nil_r, Z.add_0_r, Nat.add_0_r.
    rewrite insert_id; [done|]. by destruct t.
  - cbn [for_each].
    rewrite (copy_versions_row_ok idx out t m n r Hidx Hid Ht Hcols Hlen Hng).
    cbn [mbind result_bind].
    rewrite (IH _ {| columns := columns t;
                     rows := rows t ++ [cp (columns t) (seq t) 0%nat r];
                     seq := seq t + 1 |} _ (S n)).
    2:{ by rewrite lookup_insert_eq. }
    2:{ done. }
    cbn [columns rows seq]. rewrite insert_insert_eq.
    rewrite <- app_assoc. cbn [app imap length].
    replace (imap (cp (columns t) (seq t + 1)) sel)
      with (imap (cp (columns t) (seq t) ∘ S) sel).
    2:{ apply imap_ext. intros i x _. unfold copied. simpl.
        by replace (seq t + 1 + Z.of_nat (S i)) with (seq t + 1 + 1 + Z.of_nat i) by lia. }
    replace (seq t + 1 + Z.of_nat (length sel))
      with (seq t + Z.of_nat (S (length sel))) by lia.
    replace (S n + length sel)%nat with (n + S (length sel))%nat by lia.
    unfold record_ids. cbn [imap foldl fst snd]. rewrite Z.add_0_r.
    replace (imap (λ i r0, (field cols r0 "id", seq t + 1 + 1 + Z.of_nat i)) sel)
      with (imap ((λ i r0, (field cols r0 "id", seq t + 1 + Z.of_nat i)) ∘ S) sel);
      [done|].
    apply imap_ext. intros i x _. simpl. f_equal. lia.
Qed.

End copy_versions.

(** C3, as the code has it: the SELECT of [copy_versions] returns only
    the rows whose game_id is a key of the remap, so a version row whose
    game_id is not a key is left out of the copy without any error.  On
    a well-formed source, whose game_id column holds integers or NULL as
    its declaration says, and with a remap keyed by integers, the call
    returns, and it has copied exactly the selected rows, with the
    remapped game_id and a new row id, recording the new id of each. *)
Theorem copy_versions_drops_unmapped_rows (inp out : db) (gm : gmap sqlval Z)
    (tin tout : table) :
  inp !! "versions" = Some tin →
  out !! "versions" = Some tout →
  "id" ∈ columns tin → "game_id" ∈ columns tin →
  Forall (λ r : row, length r = length (columns tin)) (rows tin) →
  (∀ c, c ∈ columns tin → c ≠ "id" → c ∈ columns tout) →
  integer_keys gm →
  Forall (λ r : row, integer_or_null (field (columns tin) r "game_id")) (rows tin) →
  let sel := selected "game_id" (columns tin) gm (rows tin) in
  copy_versions inp out gm
  = Ok (<["versions" := {| columns := columns tout;
                           rows := rows tout ++
                                   imap (copied "game_id" (columns tin) gm
                                           (columns tout) (seq tout)) sel;
                           seq := seq tout + Z.of_nat (length sel) |}]> out,
        record_ids (columns tin) (seq tout) ∅ sel,
        {| processed := length sel; inserted := length sel |}).
Proof.
  intros Hin Hout Hid Hgid Hrows Hcols Hkeys _ sel.
  pose proof (integer_keys_not_null _ Hkeys) as Hnull.
  destruct (index_of_is_Some _ _ Hgid) as [idx Hidx].
  unfold copy_versions, select_where_in, find_table, get_table_columns, py_index.
  rewrite Hin. cbn [of_option mbind result_bind]. rewrite Hidx.
  cbn [of_option mbind result_bind mret result_ret].
  assert (Hsel : filter (λ r : row, sql_in (default SqlNull (r !! idx))
                                      (map_to_list gm).*1 = true) (rows tin) = sel).
  { apply list_filter_iff. intros r. rewrite sql_in_keys by done.
    unfold field. by rewrite Hidx. }
  rewrite Hsel.
  rewrite (copy_versions_loop (columns tin) gm idx out tout ∅ 0 sel Hidx Hid Hout).
  - done.
  - apply Forall_forall. intros c [? ?]%filter_not_id_spec. by apply Hcols.
  - apply Forall_forall. intros r [Hr Hrin]%list_elem_of_filter. split; [|done].
    by eapply (proj1 (Forall_forall _ _) Hrows).
Qed.

Lemma copy_versions_drops_unmapped_rows_witness :
  copy_versions source_db target_db_1 game_1_only
  = Ok (target_db_2, version_1_only, {| processed := 1; inserted := 1 |}).
Proof.
  rewrite (copy_versions_drops_unmapped_rows source_db target_db_1 game_1_only
             source_versions (Table versions_columns [] 0)).
  - vm_compute. reflexivity.
  - vm_compute. reflexivity.
  - vm_compute. reflexivity.
  - apply (bool_decide_unpack _). vm_compute. exact I.
  - apply (bool_decide_unpack _). vm_compute. exact I.
  - repeat constructor.
  - intros c Hc _. exact Hc.
  - apply (bool_decide_unpack _). vm_compute. exact I.
  - apply (bool_decide_unpack _). vm_compute. exact I.
Defined.

(** C3, as the claim states it, fails: the source holds a version row of
    game 2, game 2 is not a key of the remap (the output had its IGDB id
    already), and [copy_versions] returns normally, with that row left
    out and one row processed. *)
Lemma copy_versions_unmapped_row_not_fatal :
  [SqlInt 2; SqlInt 2; SqlText "1.1"; SqlText "B.EXE"; SqlNull; SqlNull; SqlInt 0]
    ∈ rows source_versions ∧
  source_db !! "versions" = Some source_versions ∧
  game_1_only !! SqlInt 2 = None ∧
  copy_versions source_db target_db_1 game_1_only
  = Ok (target_db_2, version_1_only, {| processed := 1; inserted := 1 |}).
Proof.
  split_and!.
  - right. left.
  - vm_compute. reflexivity.
  - vm_compute. reflexivity.
  - vm_compute. reflexivity.
Qed.

(** ** copy_db_content *)

Lemma index_of_lt x l i : index_of x l = Some i → (i < length l)%nat.
Proof. intros H%index_of_Some. by eapply lookup_lt_Some. Qed.

Lemma index_of_without_index c (l : list string) : ∀ i k,
  index_of c l = Some i → i ≠ k →
  index_of c (without_index k l) = Some (if decide (i < k)%nat then i else pred i).
Proof.
  unfold without_index.
  induction l as [|y l IH]; intros i k Hi Hik; [done|].
  simpl in Hi. destruct (decide (c = y)) as [->|Hne].
  - injection Hi as <-. destruct k as [|k]; [done|]. simpl.
    by rewrite decide_True by done.
  - destruct (index_of c l) as [j|] eqn:Hj; simpl in Hi; [|done].
    injection Hi as <-. destruct k as [|k]; simpl.
    + by rewrite drop_0, Hj.
    + rewrite decide_False by done.
      rewrite (IH j k) by (done || lia). cbn [fmap option_fmap option_map].
      destruct (decide (j < k)%nat), (decide (S j < S k)%nat); try lia; [done|].
      f_equal. destruct j; [lia|done].
Qed.

Lemma lookup_without_index {A} (l : list A) i k :
  i ≠ k → (k < length l)%nat →
  without_index k l !! (if decide (i < k)%nat then i else pred i) = l !! i.
Proof.
  intros Hik Hk. unfold without_index. case_decide as Hlt.
  - rewrite lookup_app_l by (rewrite length_take; lia). by rewrite lookup_take_lt.
  - rewrite lookup_app_r by (rewrite length_take; lia).
    rewrite length_take, lookup_drop. f_equal. lia.
Qed.

Lemma insert_Ok_inv (d d' : db) tname icols vals rowid :
  insert d tname icols vals = Ok (d', rowid) →
  ∃ t, d !! tname = Some t ∧
       d' = <[tname := {| columns := columns t;
                          rows := rows t ++ [new_row (columns t) icols vals rowid];
                          seq := Z.max (seq t) rowid |}]> d.
Proof.
  unfold insert, find_table. destruct (d !! tname) as [t|]; simpl; [|done].
  repeat case_bool_decide; simpl; try done.
  intros [= <- <-]. eauto.
Qed.

Lemma new_row_field tcols icols vals rowid c v i :
  c ∈ tcols →
  index_of c icols = Some i →
  vals !! i = Some v →
  field tcols (new_row tcols icols vals rowid) c = v.
Proof.
  intros Hc Hi Hv. unfold field.
  destruct (index_of_is_Some _ _ Hc) as [j Hj]. rewrite Hj.
  apply index_of_Some in Hj. unfold new_row.
  rewrite list_lookup_fmap, Hj. simpl. by rewrite Hi, Hv.
Qed.

Lemma copy_db_content_row_igdb cols id_idx (out out' : db) t
    (ex ex' : gset sqlval) (gm gm' : gmap sqlval Z) (n n' : nat) (r : row) :
  index_of "id" cols = Some id_idx →
  out !! "games" = Some t →
  "igdb_id" ∈ columns t →
  ex = list_to_set (igdb_ids t) →
  copy_db_content_row cols (without_index id_idx cols) (out, ex, gm, n) r
  = Ok (out', ex', gm', n') →
  (out' = out ∧ ex' = ex ∧ n' = n) ∨
  ∃ t' x, out' !! "games" = Some t' ∧ columns t' = columns t ∧
          igdb_ids t' = igdb_ids t ++ [x] ∧ (x ∉ igdb_ids t) ∧
          ex' = list_to_set (igdb_ids t') ∧ n' = S n.
Proof.
  intros Hid Ht Hcol Hex Hrow. unfold copy_db_content_row in Hrow.
  apply bind_Ok in Hrow as (ig & Hig & Hrow). apply of_option_Ok in Hig.
  apply bind_Ok in Hrow as (x & Hx & Hrow). apply of_option_Ok in Hx.
  case_bool_decide as Hmem.
  { left. by injection Hrow as <- <- _ <-. }
  right.
  apply bind_Ok in Hrow as (id_idx' & Hid' & Hrow). apply of_option_Ok in Hid'.
  assert (id_idx' = id_idx) as -> by congruence.
  apply bind_Ok in Hrow as (iid & Hiid & Hrow). apply of_option_Ok in Hiid.
  apply bind_Ok in Hrow as ([out1 rowid] & Hins & Hrow).
  injection Hrow as <- <- _ <-.
  apply insert_Ok_inv in Hins as (t0 & Ht0 & ->).
  assert (t0 = t) as -> by congruence.
  eexists _, x. rewrite lookup_insert_eq. split; [done|]. cbn [columns rows].
  assert (ig ≠ id_idx) as Hne.
  { intros ->. apply index_of_Some in Hig, Hid. congruence. }
  assert (Hnew : field (columns t)
            (new_row (columns t) (without_index id_idx cols)
                     (without_index id_idx r) rowid) "igdb_id" = x).
  { eapply new_row_field; [done| |].
    - by apply index_of_without_index.
    - rewrite lookup_without_index; [done..|]. by eapply lookup_lt_Some. }
  assert (Hids : igdb_ids {| columns := columns t;
                    rows := rows t ++ [new_row (columns t) (without_index id_idx cols)
                                         (without_index id_idx r) rowid];
                    seq := Z.max (seq t) rowid |} = igdb_ids t ++ [x]).
  { unfold igdb_ids. cbn [columns rows]. rewrite fmap_app. simpl. by rewrite Hnew. }
  split; [done|]. split; [exact Hids|]. split.
  { intros Hin. apply Hmem. rewrite Hex. by apply elem_of_list_to_set. }
  split; [|done].
  rewrite Hids, Hex, list_to_set_app_L. simpl.
  by rewrite (right_id_L ∅ (∪)), (comm_L (∪)).
Qed.

Lemma copy_db_content_loop cols id_idx (rs : list row) :
  ∀ (out out' : db) t (ex ex' : gset sqlval) (gm gm' : gmap sqlval Z) (n n' : nat),
  index_of "id" cols = Some id_idx →
  out !! "games" = Some t →
  "igdb_id" ∈ columns t →
  ex = list_to_set (igdb_ids t) →
  for_each (copy_db_content_row cols (without_index id_idx cols)) (out, ex, gm, n) rs
  = Ok (out', ex', gm', n') →
  ∃ t' new, out' !! "games" = Some t' ∧ columns t' = columns t ∧
            igdb_ids t' = igdb_ids t ++ new ∧
            NoDup new ∧ (∀ x, x ∈ new → x ∉ igdb_ids t) ∧
            n' = (n + length new)%nat.
Proof.
  induction rs as [|r rs IH]; intros out out' t ex ex' gm gm' n n' Hid Ht Hcol Hex Hrun.
  - simpl in Hrun. injection Hrun as <- _ _ <-. exists t, [].
    rewrite app_nil_r. split_and!; try done.
    + constructor.
    + intros x Hx. by apply elem_of_nil in Hx.
  - apply for_each_cons_Ok in Hrun as [[[[out1 ex1] gm1] n1] [Hstep Hrest]].
    destruct (copy_db_content_row_igdb _ _ _ _ _ _ _ _ _ _ _ _ Hid Ht Hcol Hex Hstep)
      as [(-> & -> & ->)|(t1 & x & Ht1 & Hc1 & Hids1 & Hx & Hex1 & ->)].
    + by eapply IH.
    + destruct (IH _ _ _ _ _ _ _ _ _ Hid Ht1 ltac:(by rewrite Hc1) Hex1 Hrest)
        as (t' & new & Ht' & Hc' & Hids' & Hnd & Hfresh & ->).
      exists t', (x :: new). rewrite Hids1 in Hids', Hfresh.
      split_and!.
      * done.
      * congruence.
      * by rewrite Hids', <- app_assoc.
      * constructor; [|done]. intros Hin. apply (Hfresh x Hin).
        apply elem_of_app. right. by left.
      * intros y [->|Hy]%elem_of_cons; [done|].
        intros Hin. apply (Hfresh y Hy). apply elem_of_app. by left.
      * simpl. lia.
Qed.

(** The relational half of C1: the games [copy_db_content] adds have
    IGDB ids that the output did not have and that differ from one
    another, and the printed count is their number; a source game whose
    IGDB id the output has is skipped. *)
Lemma copy_db_content_adds_no_duplicate (inp out out' : db) (tout : table)
    (gm : gmap sqlval Z) (rep : report) :
  out !! "games" = Some tout →
  copy_db_content inp out = Ok (out', gm, rep) →
  ∃ tout' new,
    out' !! "games" = Some tout' ∧
    igdb_ids tout' = igdb_ids tout ++ new ∧
    NoDup new ∧
    (∀ x, x ∈ new → x ∉ igdb_ids tout) ∧
    inserted rep = length new.
Proof.
  intros Hout Hrun. unfold copy_db_content in Hrun.
  case_bool_decide as Higdb; [|done].
  apply bind_Ok in Hrun as (rs & _ & Hrun).
  apply bind_Ok in Hrun as (existing & Hex & Hrun).
  apply bind_Ok in Hrun as (id_idx & Hid & Hrun). apply of_option_Ok in Hid.
  apply bind_Ok in Hrun as ([[[out1 ex1] gm1] n1] & Hloop & Hrun).
  injection Hrun as <- <- <-.
  unfold select_column, find_table in Hex. rewrite Hout in Hex. simpl in Hex.
  apply bind_Ok in Hex as (j & Hj & Hex). apply of_option_Ok in Hj.
  injection Hex as <-.
  destruct (copy_db_content_loop _ _ _ _ _ tout _ _ _ _ _ _ Hid Hout
              ltac:(apply index_of_Some in Hj; by eapply list_elem_of_lookup_2)
              ltac:(unfold igdb_ids, field; by rewrite Hj) Hloop)
    as (t' & new & Ht' & _ & Hids & Hnd & Hfresh & ->).
  exists t', new. split_and!; done.
Qed.

(** The whole run on the concrete stores: the game, the version and the
    hash of IGDB id 100 are copied, those of IGDB id 200 are not. *)
Example import_run :
  copy_db_content source_db target_db
  = Ok (target_db_1, game_1_only, {| processed := 2; inserted := 1 |}) ∧
  main source_db (Some target_db) = (Finished, Some target_db_3).
Proof. split; vm_compute; reflexivity. Qed.

End ImportProps.

(** * Properties of the submission merge *)

Module MergeProps.
Import MergeSubmission MergeSpec PyFacts.

(** ** Cells *)

Lemma cell_insert_eq G k g nm :
  cell (<[k := g]> G) k nm = versions g !! nm.
Proof. unfold cell. by rewrite lookup_insert_eq. Qed.

Lemma cell_insert_ne G k k' g nm :
  k ≠ k' → cell (<[k := g]> G) k' nm = cell G k' nm.
Proof. intros. unfold cell. by rewrite lookup_insert_ne. Qed.

Lemma cell_ensure_game G k k' nm :
  cell (match G !! k with Some _ => G | None => <[k := Game ∅]> G end) k' nm
  = cell G k' nm.
Proof.
  destruct (G !! k) eqn:Hk; [done|].
  destruct (decide (k' = k)) as [->|Hne].
  - rewrite cell_insert_eq. unfold cell. by rewrite Hk.
  - by rewrite cell_insert_ne.
Qed.

Lemma ensure_game_lookup_ne (G : gmap pykey game) k k' :
  k' ≠ k →
  (match G !! k with Some _ => G | None => <[k := Game ∅]> G end) !! k' = G !! k'.
Proof. intros. destruct (G !! k); [done|]. by rewrite lookup_insert_ne. Qed.

Lemma ensure_game_is_Some (G : gmap pykey game) k :
  is_Some ((match G !! k with Some _ => G | None => <[k := Game ∅]> G end) !! k).
Proof. destruct (G !! k) eqn:Hk; [by rewrite Hk|]. rewrite lookup_insert_eq. eauto. Qed.

Lemma entries_of_cons k g gs :
  entries_of ((k, g) :: gs)
  = ((λ nv : string * version, (k, nv.1, nv.2)) <$> sub_versions g) ++ entries_of gs.
Proof. done. Qed.

Lemma elem_of_entries_of k nm v gs :
  (k, nm, v) ∈ entries_of gs ↔ ∃ g, (k, g) ∈ gs ∧ (nm, v) ∈ sub_versions g.
Proof.
  unfold entries_of. rewrite list_elem_of_bind. split.
  - intros [[k' g] [Hin Hg]]. apply list_elem_of_fmap in Hin as [[nm' v'] [Heq Hin]].
    simpl in *. simplify_eq. eauto.
  - intros [g [Hg Hin]]. exists (k, g). split; [|done].
    apply list_elem_of_fmap. by exists (nm, v).
Qed.

(** ** One pass of the inner loop *)

Section merge_version.
Variables (k : pykey) (G G' : gmap pykey game) (n n' : nat).
Variables (nm : string) (ver : version).
Hypothesis Hstep : merge_version k (G, n) (nm, ver) = Ok (G', n').

Lemma merge_version_other_game k' : k' ≠ k → G' !! k' = G !! k'.
Proof.
  intros Hne. revert Hstep. unfold merge_version.
  destruct (G !! k) as [g|]; simpl; [|done].
  destruct (versions g !! nm) as [e|]; simpl.
  - destruct (hashes e); simpl; [|done]. intros [= <- _]. by rewrite lookup_insert_ne.
  - intros [= <- _]. by rewrite lookup_insert_ne.
Qed.

Lemma merge_version_game_kept : is_Some (G !! k) ∧ is_Some (G' !! k).
Proof.
  revert Hstep. unfold merge_version.
  destruct (G !! k) as [g|]; simpl; [|done].
  destruct (versions g !! nm) as [e|]; simpl.
  - destruct (hashes e); simpl; [|done]. intros [= <- _]. rewrite lookup_insert_eq. eauto.
  - intros [= <- _]. rewrite lookup_insert_eq. eauto.
Qed.

Lemma merge_version_other_cell k' nm' :
  (k', nm') ≠ (k, nm) → cell G' k' nm' = cell G k' nm'.
Proof.
  intros Hne. destruct (decide (k' = k)) as [->|Hk].
  2:{ unfold cell. by rewrite merge_version_other_game. }
  assert (nm ≠ nm') by congruence.
  revert Hstep. unfold merge_version, cell.
  destruct (G !! k) as [g|]; simpl; [|done].
  destruct (versions g !! nm) as [e|]; simpl.
  - destruct (hashes e); simpl; [|done]. intros [= <- _].
    rewrite lookup_insert_eq. simpl. by rewrite lookup_insert_ne.
  - intros [= <- _]. rewrite lookup_insert_eq. simpl. by rewrite lookup_insert_ne.
Qed.

Lemma merge_version_cell :
  cell G' k nm = Some (merged_record (cell G k nm) ver) ∧
  (∀ e, cell G k nm = Some e → is_Some (hashes e)) ∧
  n' = (n + if cell G k nm is Some _ then 0 else 1)%nat.
Proof.
  revert Hstep. unfold merge_version, cell.
  destruct (G !! k) as [g|]; simpl; [|done].
  destruct (versions g !! nm) as [e|]; simpl.
  - destruct (hashes e) as [h|] eqn:Hh; simpl; [|done]. intros [= <- <-].
    rewrite lookup_insert_eq. simpl. rewrite lookup_insert_eq.
    split_and!; [done| |lia].
    intros ? [= <-]. rewrite Hh. eauto.
  - intros [= <- <-]. rewrite lookup_insert_eq. simpl. rewrite lookup_insert_eq.
    split_and!; [done|done|lia].
Qed.

End merge_version.

Lemma merge_version_keeps_games k G n nm v G' n' key :
  merge_version k (G, n) (nm, v) = Ok (G', n') → is_Some (G !! key) → is_Some (G' !! key).
Proof.
  intros Hstep HG. destruct (decide (key = k)) as [->|Hne].
  - by eapply merge_version_game_kept.
  - by erewrite merge_version_other_game.
Qed.

(** ** The two loops *)

Lemma merge_versions_spec k vs : ∀ G n G' n',
  for_each (merge_version k) (G, n) vs = Ok (G', n') →
  NoDup vs.*1 →
  (∀ k', k' ≠ k → G' !! k' = G !! k') ∧
  (is_Some (G !! k) → is_Some (G' !! k)) ∧
  (∀ nm, nm ∉ vs.*1 → cell G' k nm = cell G k nm) ∧
  (∀ nm ver, (nm, ver) ∈ vs →
     cell G' k nm = Some (merged_record (cell G k nm) ver) ∧
     (∀ e, cell G k nm = Some e → is_Some (hashes e))) ∧
  n' = (n + length (filter (λ nv, cell G k nv.1 = None) vs))%nat.
Proof.
  induction vs as [|[nm v] vs IH]; intros G n G' n' Hrun Hnd.
  - simpl in Hrun. injection Hrun as <- <-. split_and!; try done.
    intros nm v Hin. by apply elem_of_nil in Hin.
  - apply for_each_cons_Ok in Hrun as [[G1 n1] [Hstep Hrest]].
    rewrite fmap_cons in Hnd. apply NoDup_cons in Hnd as [Hnm Hnd]. simpl in Hnm.
    destruct (IH _ _ _ _ Hrest Hnd) as (I1 & I2 & I3 & I4 & I5).
    destruct (merge_version_cell _ _ _ _ _ _ _ Hstep) as (C1 & C2 & C3).
    assert (Hframe : ∀ nm', nm' ≠ nm → cell G1 k nm' = cell G k nm').
    { intros nm' Hne. eapply merge_version_other_cell; [done|congruence]. }
    split_and!.
    + intros k' Hk'. rewrite I1 by done. by eapply merge_version_other_game.
    + intros _. apply I2. by eapply merge_version_game_kept.
    + intros nm' Hnm'. rewrite fmap_cons, not_elem_of_cons in Hnm'.
      destruct Hnm' as [Hne Hnm']. simpl in Hne. rewrite I3 by done. by apply Hframe.
    + intros nm' ver [[= -> ->]|Hin]%elem_of_cons.
      * rewrite I3 by done. done.
      * assert (nm' ≠ nm).
        { intros ->. apply Hnm. apply list_elem_of_fmap. by exists (nm, ver). }
        destruct (I4 _ _ Hin) as [J1 J2]. rewrite J1, Hframe by done. split; [done|].
        intros e He. apply J2. by rewrite Hframe.
    + rewrite I5, C3. rewrite filter_cons. simpl.
      rewrite (filter_ext_in (λ nv, cell G1 k nv.1 = None) (λ nv, cell G k nv.1 = None)).
      2:{ intros [nm' ver] Hin. simpl. rewrite Hframe; [done|].
          intros ->. apply Hnm. apply list_elem_of_fmap. by exists (nm, ver). }
      destruct (cell G k nm); simpl; lia.
Qed.

Lemma merge_game_Ok G n k g G' n' :
  merge_game (G, n) (k, g) = Ok (G', n') →
  ∃ z, py_int k = Some z ∧
       for_each (merge_version (KInt z))
         (match G !! KInt z with Some _ => G | None => <[KInt z := Game ∅]> G end, n)
         (sub_versions g) = Ok (G', n').
Proof.
  unfold merge_game. destruct (py_int k) as [z|]; simpl; [eauto|done].
Qed.

Lemma game_cells_NoDup k g gs :
  NoDup (entry_cell <$> entries_of ((k, g) :: gs)) →
  NoDup (sub_versions g).*1 ∧
  NoDup (entry_cell <$> entries_of gs) ∧
  ∀ z k' nm v', py_int k = Some z → (k', nm, v') ∈ entries_of gs →
                py_int k' = Some z → nm ∉ (sub_versions g).*1.
Proof.
  rewrite entries_of_cons, fmap_app. intros (Hnd1 & Hdisj & Hnd2)%NoDup_app.
  split_and!; [|done|].
  - rewrite <- list_fmap_compose in Hnd1.
    apply (NoDup_fmap_1 (λ nm : string, (py_int k, nm))).
    by rewrite <- list_fmap_compose.
  - intros z k' nm v' Hz Hin Hz' Hnm.
    apply list_elem_of_fmap in Hnm as [[nm' v] [-> Hv]]. simpl in *.
    apply (Hdisj (Some z, nm')).
    + apply list_elem_of_fmap. exists (k, nm', v). split.
      * unfold entry_cell. simpl. by rewrite Hz.
      * apply list_elem_of_fmap. by exists (nm', v).
    + apply list_elem_of_fmap. exists (k', nm', v'). split; [|done].
      unfold entry_cell. simpl. by rewrite Hz'.
Qed.

Lemma merge_game_frame G n k g z G1 n1 key nm :
  py_int k = Some z →
  merge_game (G, n) (k, g) = Ok (G1, n1) →
  NoDup (sub_versions g).*1 →
  (key = KInt z → nm ∉ (sub_versions g).*1) →
  cell G1 key nm = cell G key nm.
Proof.
  intros Hz Hstep Hnames Hkey.
  apply merge_game_Ok in Hstep as (z' & Hz' & Hvs).
  assert (z' = z) as -> by congruence.
  destruct (merge_versions_spec _ _ _ _ _ _ Hvs Hnames) as (I1 & _ & I3 & _).
  rewrite <- (cell_ensure_game G (KInt z) key nm).
  destruct (decide (key = KInt z)) as [->|Hne].
  - apply I3. by apply Hkey.
  - unfold cell. by rewrite I1.
Qed.

Lemma merge_games_spec gs : ∀ G n G' n',
  for_each merge_game (G, n) gs = Ok (G', n') →
  NoDup (entry_cell <$> entries_of gs) →
  (∀ key, unnamed gs key → G' !! key = G !! key) ∧
  (∀ key, is_Some (G !! key) → is_Some (G' !! key)) ∧
  (∀ key nm, untouched gs key nm → cell G' key nm = cell G key nm) ∧
  (∀ k nm v z, (k, nm, v) ∈ entries_of gs → py_int k = Some z →
     cell G' (KInt z) nm = Some (merged_record (cell G (KInt z) nm) v) ∧
     (∀ e, cell G (KInt z) nm = Some e → is_Some (hashes e))) ∧
  n' = (n + length (filter (is_new G) (entries_of gs)))%nat.
Proof.
  induction gs as [|[k g] gs IH]; intros G n G' n' Hrun Hnd.
  - simpl in Hrun. injection Hrun as <- <-. split_and!; try done.
    intros k nm v z Hin. by apply elem_of_nil in Hin.
  - apply for_each_cons_Ok in Hrun as [[G1 n1] [Hstep Hrest]].
    destruct (merge_game_Ok _ _ _ _ _ _ Hstep) as (z & Hz & Hvs).
    destruct (game_cells_NoDup _ _ _ Hnd) as (Hnames & Hnd2 & Hlater0).
    destruct (merge_versions_spec _ _ _ _ _ _ Hvs Hnames) as (I1 & I2 & I3 & I4 & I5).
    destruct (IH _ _ _ _ Hrest Hnd2) as (R1 & R2 & R3 & R4 & R5).
    (* a cell of a later game is not a cell of this game *)
    assert (Hlater : ∀ k' nm v', (k', nm, v') ∈ entries_of gs → py_int k' = Some z →
                     nm ∉ (sub_versions g).*1).
    { intros k' nm v' Hin Hz'. by eapply Hlater0. }
    (* what this game leaves outside its own cells *)
    assert (Hfirst : ∀ key nm, (key = KInt z → nm ∉ (sub_versions g).*1) →
                     cell G1 key nm = cell G key nm).
    { intros key nm Hkey. by eapply merge_game_frame. }
    split_and!.
    + intros key Hkey.
      assert (key ≠ KInt z) as Hne by (apply (Hkey k g z); [by left | done]).
      rewrite R1.
      * rewrite I1 by done. by apply ensure_game_lookup_ne.
      * intros k' g' z' Hin. apply (Hkey k' g' z'). by right.
    + intros key Hkey. apply R2.
      destruct (decide (key = KInt z)) as [->|Hne].
      * apply I2, ensure_game_is_Some.
      * rewrite I1, ensure_game_lookup_ne; done.
    + intros key nm Hun. rewrite R3.
      * apply Hfirst. intros ->. apply (Hun k g z); [by left|done..].
      * intros k' g' z' Hin. apply (Hun k' g' z'). by right.
    + intros k' nm v z' Hin Hz'.
      rewrite entries_of_cons, elem_of_app in Hin. destruct Hin as [Hin|Hin].
      * apply list_elem_of_fmap in Hin as [[nm' v'] [[= -> -> ->] Hin]].
        assert (z' = z) as -> by congruence.
        destruct (I4 _ _ Hin) as [J1 J2]. rewrite cell_ensure_game in J1, J2.
        split; [|done]. rewrite R3; [done|].
        intros k2 g2 z2 Hin2 Hz2 [= <-] Hnm2.
        apply list_elem_of_fmap in Hnm2 as [[nm2 v2] [Heq Hv2]]. simpl in Heq. subst nm2.
        eapply (Hlater k2 nm' v2); [|done|].
        -- apply elem_of_entries_of. eauto.
        -- apply list_elem_of_fmap. by exists (nm', v').
      * destruct (R4 _ _ _ _ Hin Hz') as [J1 J2].
        assert (Hsame : cell G1 (KInt z') nm = cell G (KInt z') nm).
        { apply Hfirst. intros [= ->]. by eapply Hlater. }
        rewrite J1, Hsame. split; [done|]. intros e He. apply J2. by rewrite Hsame.
    + rewrite R5, I5, entries_of_cons, filter_app, length_app.
      rewrite length_filter_fmap.
      rewrite (filter_ext_in (is_new G1) (is_new G) (entries_of gs)).
      2:{ intros [[k' nm] v'] Hin. unfold is_new. simpl.
          destruct (py_int k') as [z'|] eqn:Hz'; [|done].
          rewrite Hfirst; [done|]. intros [= ->]. by eapply Hlater. }
      rewrite (filter_ext_in (λ nv : string * version,
                 cell (match G !! KInt z with Some _ => G | None => <[KInt z := Game ∅]> G end)
                      (KInt z) nv.1 = None)
               (is_new G ∘ (λ nv : string * version, (k, nv.1, nv.2)))).
      2:{ intros [nm v] _. unfold is_new. simpl. by rewrite Hz, cell_ensure_game. }
      lia.
Qed.

(** ** The games of the catalog after the merge *)

Lemma merge_versions_keep_games k vs : ∀ G n G' n' key,
  for_each (merge_version k) (G, n) vs = Ok (G', n') →
  is_Some (G !! key) → is_Some (G' !! key).
Proof.
  induction vs as [|[nm v] vs IH]; intros G n G' n' key Hrun HG.
  - simpl in Hrun. by injection Hrun as <- <-.
  - apply for_each_cons_Ok in Hrun as [[G1 n1] [Hstep Hrest]].
    eapply IH; [done|]. by eapply merge_version_keeps_games.
Qed.

Lemma merge_games_keys gs : ∀ G n G' n',
  for_each merge_game (G, n) gs = Ok (G', n') →
  (∀ key, is_Some (G !! key) → is_Some (G' !! key)) ∧
  ∀ k g, (k, g) ∈ gs → ∃ z, py_int k = Some z ∧ is_Some (G' !! KInt z).
Proof.
  induction gs as [|[k g] gs IH]; intros G n G' n' Hrun.
  - simpl in Hrun. injection Hrun as <- <-. split; [done|].
    intros k g Hin. by apply elem_of_nil in Hin.
  - apply for_each_cons_Ok in Hrun as [[G1 n1] [Hstep Hrest]].
    apply merge_game_Ok in Hstep as (z & Hz & Hvs).
    destruct (IH _ _ _ _ Hrest) as [Hmono Hkeys].
    assert (Hmono1 : ∀ key, is_Some (G !! key) → is_Some (G1 !! key)).
    { intros key Hkey. eapply merge_versions_keep_games; [done|].
      destruct (G !! KInt z) eqn:HGz; [done|].
      destruct (decide (key = KInt z)) as [->|Hne].
      - rewrite lookup_insert_eq. eauto.
      - by rewrite lookup_insert_ne. }
    split; [by eauto|].
    intros k' g' [[= -> ->]|Hin]%elem_of_cons; [|by eauto].
    exists z. split; [done|]. apply Hmono.
    eapply merge_versions_keep_games; [done|]. apply ensure_game_is_Some.
Qed.

(** ** The merge returns *)

Lemma merge_versions_succeeds k vs : ∀ G n,
  is_Some (G !! k) →
  NoDup vs.*1 →
  (∀ nm v e, (nm, v) ∈ vs → cell G k nm = Some e → is_Some (hashes e)) →
  ∃ G' n', for_each (merge_version k) (G, n) vs = Ok (G', n').
Proof.
  induction vs as [|[nm v] vs IH]; intros G n HG Hnd Hready; [simpl; eauto|].
  rewrite fmap_cons in Hnd. apply NoDup_cons in Hnd as [Hnm Hnd]. simpl in Hnm.
  assert (∃ G1 n1, merge_version k (G, n) (nm, v) = Ok (G1, n1)) as (G1 & n1 & Hstep).
  { unfold merge_version. destruct HG as [g HG]. rewrite HG. simpl.
    destruct (versions g !! nm) as [e|] eqn:He; simpl; [|eauto].
    destruct (Hready nm v e) as [h ->]; [by left| |simpl; eauto].
    unfold cell. by rewrite HG. }
  cbn [for_each]. rewrite Hstep. simpl. apply IH; [|done|].
  - by eapply merge_version_game_kept.
  - intros nm' v' e Hin Hcell. apply (Hready nm' v' e); [by right|].
    rewrite <- Hcell. symmetry. eapply merge_version_other_cell; [done|].
    intros [= ->]. apply Hnm. apply list_elem_of_fmap. by exists (nm, v').
Qed.

Lemma merge_games_succeeds gs : ∀ G n,
  mergeable G gs → ∃ G' n', for_each merge_game (G, n) gs = Ok (G', n').
Proof.
  induction gs as [|[k g] gs IH]; intros G n (Hparse & Hnd & Hready); [simpl; eauto|].
  apply Forall_cons in Hparse as [[z Hz] Hparse]. simpl in Hz.
  destruct (game_cells_NoDup _ _ _ Hnd) as (Hnames & Hnd' & Hlater).
  rewrite entries_of_cons, Forall_app in Hready. destruct Hready as [Hready1 Hready2].
  assert (∃ G1 n1, merge_game (G, n) (k, g) = Ok (G1, n1)) as (G1 & n1 & Hstep).
  { unfold merge_game. rewrite Hz. simpl. apply merge_versions_succeeds.
    - apply ensure_game_is_Some.
    - done.
    - intros nm v e Hin. rewrite cell_ensure_game. intros Hcell.
      rewrite Forall_forall in Hready1.
      specialize (Hready1 (k, nm, v)). unfold hashes_ready in Hready1. simpl in Hready1.
      rewrite Hz, Hcell in Hready1. apply Hready1.
      apply list_elem_of_fmap. by exists (nm, v). }
  cbn [for_each]. rewrite Hstep. simpl. apply IH. split_and!; [done..|].
  apply Forall_forall. intros [[k' nm] v'] Hin.
  rewrite Forall_forall in Hready2. specialize (Hready2 _ Hin).
  unfold hashes_ready in *. simpl in *.
  destruct (py_int k') as [z'|] eqn:Hz'; [|done].
  rewrite (merge_game_frame G n k g z G1 n1 (KInt z') nm); try done.
  intros [= ->]. by eapply Hlater.
Qed.

Lemma merge_into_global_succeeds db sub :
  mergeable (catalog db) (sub_games sub) →
  ∃ db' n, merge_into_global db sub = Ok (db', n).
Proof.
  intros Hm. unfold merge_into_global. fold (catalog db).
  destruct (merge_games_succeeds _ _ 0%nat Hm) as (G' & n' & ->). simpl. eauto.
Qed.

Lemma merge_into_global_Ok db sub db' n :
  merge_into_global db sub = Ok (db', n) →
  for_each merge_game (catalog db, 0%nat) (sub_games sub) = Ok (catalog db', n) ∧
  db' = {| generated_at := generated_at db; games := Some (catalog db') |}.
Proof.
  unfold merge_into_global, catalog.
  destruct (for_each merge_game _ _) as [[G' n']|]; simpl; [|done].
  by intros [= <- <-].
Qed.

(** ** A record without hashes blocks the merge *)

Section bad_cell.
Variables (key : pykey) (nm : string) (e : version).
Hypothesis Hbad : hashes e = None.




End bad_cell.






(** C7: a submitted version whose name is not yet under its game in the
    catalog is stored there as it is, the whole record unchanged, and it
    is one of the versions the printed count counts: the count is the
    number of submitted versions that were not in the catalog.  (The
    submission is one the merge accepts: integer game keys, no two
    versions for the same game id and version name, hashes in the
    records they meet.) *)
Theorem merge_inserts_new_version_verbatim
    (db : global_db) (sub : submission) (k nm : string) (v : version) (z : Z) :
  mergeable (catalog db) (sub_games sub) →
  (k, nm, v) ∈ entries_of (sub_games sub) →
  py_int k = Some z →
  db_cell db (KInt z) nm = None →
  ∃ db' n,
    merge_into_global db sub = Ok (db', n) ∧
    db_cell db' (KInt z) nm = Some v ∧
    (k, nm, v) ∈ filter (is_new (catalog db)) (entries_of (sub_games sub)) ∧
    n = length (filter (is_new (catalog db)) (entries_of (sub_games sub))).
Proof.
  intros Hok Hin Hz Hnew.
  destruct (merge_into_global_succeeds db sub Hok) as (db' & n & Hm).
  exists db', n. split; [done|].
  destruct Hok as (_ & Hnd & _).
  apply merge_into_global_Ok in Hm as [Hrun _].
  destruct (merge_games_spec _ _ _ _ _ Hrun Hnd) as (_ & _ & _ & Hcells & Hcount).
  destruct (Hcells _ _ _ _ Hin Hz) as [Hcell _].
  unfold db_cell in *. rewrite Hnew in Hcell. split_and!; [done| |done].
  apply list_elem_of_filter. split; [|done]. unfold is_new. simpl. by rewrite Hz.
Qed.

Lemma merge_inserts_new_version_verbatim_witness :
  ∃ db' n,
    merge_into_global merged_catalog sample_submission = Ok (db', n) ∧
    db_cell db' (KInt 123) "1.1" = Some submitted_1_1 ∧
    ("123", "1.1", submitted_1_1)
      ∈ filter (is_new (catalog merged_catalog))
               (entries_of (sub_games sample_submission)) ∧
    n = length (filter (is_new (catalog merged_catalog))
                       (entries_of (sub_games sample_submission))).
Proof.
  apply (merge_inserts_new_version_verbatim
           merged_catalog sample_submission "123" "1.1" submitted_1_1 123).
  - apply (bool_decide_unpack _). vm_compute. exact I.
  - right. left.
  - vm_compute. reflexivity.
  - vm_compute. reflexivity.
Defined.

(** Where the catalog has the game under the integer key that the code
    looks up: for a game and version name that are in the catalog and in
    the submission, the merge replaces the hashes of the catalog's record by
    the union with the submitted hashes, in which a submitted value wins
    and a key only the catalog has keeps its value; the other fields of
    the record stay, and so do the versions no submitted version goes to
    and the games no submitted key denotes.  (The submission is one the
    merge accepts: integer game keys, no two versions for the same game
    id and version name, hashes in the records they meet.) *)
Theorem merge_unions_hashes_of_existing_version
    (db : global_db) (sub : submission) (k nm : string) (v e : version) (z : Z) :
  mergeable (catalog db) (sub_games sub) →
  (k, nm, v) ∈ entries_of (sub_games sub) →
  py_int k = Some z →
  db_cell db (KInt z) nm = Some e →
  ∃ (db' : global_db) (n : nat) (h : gmap string string),
    merge_into_global db sub = Ok (db', n) ∧
    hashes e = Some h ∧
    db_cell db' (KInt z) nm
    = Some {| hashes := Some (default ∅ (hashes v) ∪ h); fields := fields e |} ∧
    (∀ f, (default ∅ (hashes v) ∪ h) !! f
          = match default ∅ (hashes v) !! f with
            | Some d => Some d
            | None => h !! f
            end) ∧
    (∀ key nm', untouched (sub_games sub) key nm' →
       db_cell db' key nm' = db_cell db key nm') ∧
    (∀ key, unnamed (sub_games sub) key → catalog db' !! key = catalog db !! key).
Proof.
  intros Hok Hin Hz Hold.
  destruct (merge_into_global_succeeds db sub Hok) as (db' & n & Hm).
  destruct Hok as (_ & Hnd & _).
  destruct (merge_into_global_Ok _ _ _ _ Hm) as [Hrun _].
  destruct (merge_games_spec _ _ _ _ _ Hrun Hnd) as (Hgames & _ & Hframe & Hcells & _).
  destruct (Hcells _ _ _ _ Hin Hz) as [Hcell Hhash].
  unfold db_cell in *. destruct (Hhash _ Hold) as [h Hh]. exists db', n, h.
  rewrite Hold in Hcell. simpl in Hcell. rewrite Hh in Hcell. simpl in Hcell.
  split_and!; try done.
  intros f. rewrite lookup_union. by destruct (default ∅ (hashes v) !! f), (h !! f).
Qed.

(** The example of the specification: the hashes {a:1, b:2} of the
    catalog and {b:3, c:4} of the submission give {a:1, b:3, c:4}. *)
Lemma merge_unions_hashes_of_existing_version_witness :
  merge_into_global merged_catalog sample_submission = Ok (sample_merged, 1%nat) ∧
  db_cell sample_merged (KInt 123) "1.0"
  = Some {| hashes := Some {["a" := "1"; "b" := "3"; "c" := "4"]};
            fields := {["executable" := "GAME/GAME.EXE"]} |}.
Proof.
  destruct (merge_unions_hashes_of_existing_version
              merged_catalog sample_submission
              "123" "1.0" submitted_1_0
              {| hashes := Some {["a" := "1"; "b" := "2"]};
                 fields := {["executable" := "GAME/GAME.EXE"]} |} 123)
    as (db' & n & h & Hm & Hh & Hcell & _).
  - apply (bool_decide_unpack _). vm_compute. exact I.
  - left.
  - vm_compute. reflexivity.
  - vm_compute. reflexivity.
  - assert (Hrun : merge_into_global merged_catalog sample_submission
                   = Ok (sample_merged, 1%nat)) by (vm_compute; reflexivity).
    rewrite Hrun in Hm. injection Hm as <- <-.
    simpl in Hh. injection Hh as <-. split; [done|].
    rewrite Hcell. vm_compute. reflexivity.
Defined.

(** C4, on the catalog that [json.loads] returns, with the hashes of the
    claim: version 1.0 of the game 123 is in the catalog with the hashes
    {a: 1, b: 2} and in the submission with {b: 3, c: 4}.  The merge
    looks for the integer 123 among the string keys, takes the version
    for a new one and stores the submitted record under the integer
    key; the record of the catalog keeps {a: 1, b: 2}, and no record of
    version 1.0 has the union {a: 1, b: 3, c: 4}.  On the same catalog
    with the game under the integer key the union is made. *)
Theorem merge_unites_no_hashes_on_loaded_catalog :
  db_cell loaded_catalog (KStr "123") "1.0"
  = Some {| hashes := Some {["a" := "1"; "b" := "2"]};
            fields := {["executable" := "GAME/GAME.EXE"]} |} ∧
  ("123", "1.0", submitted_1_0) ∈ entries_of (sub_games sample_submission) ∧
  json_key (KStr "123") = "123" ∧
  merge_into_global loaded_catalog sample_submission = Ok (duplicated_catalog, 2%nat) ∧
  db_cell duplicated_catalog (KStr "123") "1.0"
  = db_cell loaded_catalog (KStr "123") "1.0" ∧
  db_cell duplicated_catalog (KInt 123) "1.0" = Some submitted_1_0 ∧
  (∀ key e, db_cell duplicated_catalog key "1.0" = Some e →
            hashes e ≠ Some {["a" := "1"; "b" := "3"; "c" := "4"]}) ∧
  merge_into_global merged_catalog sample_submission = Ok (sample_merged, 1%nat) ∧
  db_cell sample_merged (KInt 123) "1.0"
  = Some {| hashes := Some {["a" := "1"; "b" := "3"; "c" := "4"]};
            fields := {["executable" := "GAME/GAME.EXE"]} |}.
Proof.
  split_and!; try (vm_compute; reflexivity).
  - left.
  - intros key e Hcell Hh.
    assert (key = KStr "123" ∨ key = KInt 123) as [->| ->].
    { unfold db_cell, cell, catalog, duplicated_catalog in Hcell. simpl in Hcell.
      destruct (decide (key = KStr "123")) as [|Hs]; [by left|].
      destruct (decide (key = KInt 123)) as [|Hi]; [by right|].
      rewrite lookup_insert_ne, lookup_singleton_ne in Hcell by done. done. }
    + assert (e = {| hashes := Some {["a" := "1"; "b" := "2"]};
                     fields := {["executable" := "GAME/GAME.EXE"]} |}) as ->.
      { assert (db_cell duplicated_catalog (KStr "123") "1.0"
                = Some {| hashes := Some {["a" := "1"; "b" := "2"]};
                          fields := {["executable" := "GAME/GAME.EXE"]} |}) as H
          by (vm_compute; reflexivity).
        congruence. }
      apply (f_equal (λ o : option (gmap string string), o ≫= (.!! "c"))) in Hh.
      vm_compute in Hh. discriminate.
    + assert (e = submitted_1_0) as ->.
      { assert (db_cell duplicated_catalog (KInt 123) "1.0" = Some submitted_1_0) as H
          by (vm_compute; reflexivity).
        congruence. }
      apply (f_equal (λ o : option (gmap string string), o ≫= (.!! "a"))) in Hh.
      vm_compute in Hh. discriminate.
Qed.

(** C1, on the catalog that [json.loads] returns: the game 123 is in the
    catalog under the key "123"; the merge looks for the integer 123,
    does not find it, and adds a second entry for the game.  Both
    versions of the submission count as new, version 1.0 is not united
    with the record the catalog has, and [json.dumps] writes the two
    entries under the same key "123". *)
Theorem merge_duplicates_game_of_loaded_catalog :
  merge_into_global loaded_catalog sample_submission = Ok (duplicated_catalog, 2%nat) ∧
  is_Some (catalog loaded_catalog !! KStr "123") ∧
  catalog duplicated_catalog !! KStr "123" = catalog loaded_catalog !! KStr "123" ∧
  catalog duplicated_catalog !! KInt 123
  = Some (Game {["1.0" := submitted_1_0; "1.1" := submitted_1_1]}) ∧
  json_key (KStr "123") = "123" ∧
  json_key (KInt 123) = "123".
Proof. split_and!; vm_compute; eauto. Qed.

Lemma merge_versions_other_game k vs : ∀ G n G' n' key,
  for_each (merge_version k) (G, n) vs = Ok (G', n') →
  key ≠ k → G' !! key = G !! key.
Proof.
  induction vs as [|[nm v] vs IH]; intros G n G' n' key Hrun Hne.
  - simpl in Hrun. by injection Hrun as <- <-.
  - apply for_each_cons_Ok in Hrun as [[G1 n1] [Hstep Hrest]].
    rewrite (IH _ _ _ _ _ Hrest Hne). by eapply merge_version_other_game.
Qed.

Lemma merge_games_other_game gs : ∀ G n G' n' key,
  for_each merge_game (G, n) gs = Ok (G', n') →
  unnamed gs key → G' !! key = G !! key.
Proof.
  induction gs as [|[k g] gs IH]; intros G n G' n' key Hrun Hun.
  - simpl in Hrun. by injection Hrun as <- <-.
  - apply for_each_cons_Ok in Hrun as [[G1 n1] [Hstep Hrest]].
    apply merge_game_Ok in Hstep as (z & Hz & Hvs).
    assert (key ≠ KInt z) as Hne by (apply (Hun k g z); [by left|done]).
    rewrite (IH _ _ _ _ _ Hrest).
    + rewrite (merge_versions_other_game _ _ _ _ _ _ _ Hvs Hne).
      by apply ensure_game_lookup_ne.
    + intros k' g' z' Hin. apply (Hun k' g' z'). by right.
Qed.

(** What the example shows holds for every catalog and submission: a
    merge that returns leaves the entry under a string key as it was and
    has an entry under the integer key of every submitted game.  A game
    that [json.loads] put under the key "123" is therefore never the
    game the merge updates. *)
Lemma merge_keeps_string_keys_apart
    (db db' : global_db) (sub : submission) (n : nat) (k : string) (g : sub_game) :
  merge_into_global db sub = Ok (db', n) →
  (k, g) ∈ sub_games sub →
  catalog db' !! KStr k = catalog db !! KStr k ∧
  ∃ z, py_int k = Some z ∧ is_Some (catalog db' !! KInt z).
Proof.
  intros Hm Hin. apply merge_into_global_Ok in Hm as [Hrun _]. split.
  - eapply merge_games_other_game; [done|]. by intros k' g' z' _ _.
  - by eapply merge_games_keys.
Qed.

(** C2, on a submission whose version has no hashes field: the first
    merge stores the record as it is, and merging the same submission
    into the result raises KeyError 'hashes' instead of leaving the
    catalog as it is. *)
Theorem merge_twice_raises_without_hashes :
  merge_into_global empty_catalog hashless_submission = Ok (hashless_catalog, 1%nat) ∧
  merge_into_global hashless_catalog hashless_submission = Raise (KeyError "hashes").
Proof. split; vm_compute; reflexivity. Qed.

(** ** Merging the same submission again *)

Lemma merge_version_noop k (G : gmap pykey game) n nm v g e h :
  G !! k = Some g →
  versions g !! nm = Some e →
  hashes e = Some h →
  default ∅ (hashes v) ∪ h = h →
  merge_version k (G, n) (nm, v) = Ok (G, n).
Proof.
  intros HG Hv Hh Hsub. unfold merge_version. rewrite HG. simpl. rewrite Hv, Hh. simpl.
  rewrite Hsub. unfold mret, result_ret. do 2 f_equal.
  apply insert_id. rewrite HG. f_equal. destruct g as [vs]. simpl in *. f_equal.
  symmetry. apply insert_id. rewrite Hv. f_equal. destruct e. simpl in *. by subst.
Qed.

Lemma merge_versions_noop k (G : gmap pykey game) vs : ∀ n,
  (∀ nm v, (nm, v) ∈ vs → absorbed G k nm v) →
  for_each (merge_version k) (G, n) vs = Ok (G, n).
Proof.
  induction vs as [|[nm v] vs IH]; intros n Habs; [done|].
  cbn [for_each]. destruct (Habs nm v) as (e & h & Hcell & Hh & Hsub); [by left|].
  unfold cell in Hcell. destruct (G !! k) as [g|] eqn:HG; simpl in Hcell; [|done].
  rewrite (merge_version_noop k G n nm v g e h) by done. simpl.
  apply IH. intros nm' v' Hin. apply Habs. by right.
Qed.

Lemma merge_games_noop (G : gmap pykey game) gs : ∀ n,
  (∀ k g, (k, g) ∈ gs →
     ∃ z, py_int k = Some z ∧ is_Some (G !! KInt z) ∧
          ∀ nm v, (nm, v) ∈ sub_versions g → absorbed G (KInt z) nm v) →
  for_each merge_game (G, n) gs = Ok (G, n).
Proof.
  induction gs as [|[k g] gs IH]; intros n Hall; [done|].
  cbn [for_each]. destruct (Hall k g) as (z & Hz & [g' HG] & Habs); [by left|].
  unfold merge_game. rewrite Hz. simpl. rewrite HG.
  rewrite merge_versions_noop by done. simpl.
  apply IH. intros k' g'' Hin. apply Hall. by right.
Qed.

Lemma merged_record_absorbs old v :
  (old = None → is_Some (hashes v)) →
  ∃ h, hashes (merged_record old v) = Some h ∧ default ∅ (hashes v) ∪ h = h.
Proof.
  intros Hnew. destruct old as [e|]; simpl.
  - eexists. split; [done|]. apply map_eq. intros f. rewrite !lookup_union.
    by destruct (default ∅ (hashes v) !! f), (default ∅ (hashes e) !! f).
  - destruct Hnew as [h Hh]; [done|]. exists h. rewrite Hh. split; [done|]. simpl.
    apply map_eq. intros f. rewrite lookup_union. by destruct (h !! f).
Qed.

(** Where the second merge does return the catalog of the first: the
    submission is one the merge accepts and each of its new versions has
    a hashes field.  Then the second merge changes nothing and counts no
    new version. *)
Lemma merge_into_global_idempotent_with_hashes (db : global_db) (sub : submission) :
  mergeable (catalog db) (sub_games sub) →
  (∀ k nm v, (k, nm, v) ∈ entries_of (sub_games sub) →
     is_new (catalog db) (k, nm, v) → is_Some (hashes v)) →
  ∃ db' n,
    merge_into_global db sub = Ok (db', n) ∧
    merge_into_global db' sub = Ok (db', 0%nat).
Proof.
  intros Hok Hhashes.
  destruct (merge_into_global_succeeds db sub Hok) as (db' & n & Hm).
  exists db', n. split; [done|].
  destruct Hok as (_ & Hnd & _).
  apply merge_into_global_Ok in Hm as [Hrun Hdb'].
  destruct (merge_games_spec _ _ _ _ _ Hrun Hnd) as (_ & _ & _ & Hcells & _).
  destruct (merge_games_keys _ _ _ _ _ Hrun) as [_ Hkeys].
  unfold merge_into_global. fold (catalog db').
  rewrite merge_games_noop.
  - simpl. rewrite Hdb' at 3. by rewrite Hdb'.
  - intros k g Hg. destruct (Hkeys k g Hg) as (z & Hz & HG).
    exists z. split_and!; [done..|]. intros nm v Hv.
    assert (Hin : (k, nm, v) ∈ entries_of (sub_games sub)).
    { apply elem_of_entries_of. eauto. }
    destruct (Hcells _ _ _ _ Hin Hz) as [Hcell _].
    destruct (merged_record_absorbs (cell (catalog db) (KInt z) nm) v) as (h & Hh & Hsub).
    { intros Hnone. apply (Hhashes k nm v Hin). unfold is_new. simpl. by rewrite Hz. }
    by exists (merged_record (cell (catalog db) (KInt z) nm) v), h.
Qed.

(** ** verify_submission *)

Lemma verify_hashes_spec zip ok (m : gmap string string) :
  map_fold (verify_hash zip) ok m = true ↔
  ok = true ∧ ∀ f d, m !! f = Some d → entries zip !! f = Some d.
Proof.
  apply (map_fold_weak_ind
    (λ r m, r = true ↔ ok = true ∧ ∀ f d, m !! f = Some d → entries zip !! f = Some d)).
  - split; [|tauto]. intros ->. split; [done|]. intros f d. by rewrite lookup_empty.
  - intros f d m' r Hf IH. unfold verify_hash, md5_of_file_in_zip.
    destruct (entries zip !! f) as [actual|] eqn:Hact; simpl.
    + case_bool_decide as Hne.
      * split; [done|]. intros [_ Hall]. specialize (Hall f d).
        rewrite lookup_insert_eq in Hall. specialize (Hall eq_refl). congruence.
      * assert (actual = d) as -> by (by destruct (decide (actual = d))).
        rewrite IH. split; intros [Hok Hall]; (split; [done|]); intros f' d' Hf'.
        -- destruct (decide (f' = f)) as [->|Hne'].
           ++ rewrite lookup_insert_eq in Hf'. congruence.
           ++ rewrite lookup_insert_ne in Hf' by done. by apply Hall.
        -- apply Hall. rewrite lookup_insert_ne; [done|]. intros ->. congruence.
    + split; [done|]. intros [_ Hall]. specialize (Hall f d).
      rewrite lookup_insert_eq in Hall. specialize (Hall eq_refl). congruence.
Qed.

Lemma verify_version_spec candidates ok e :
  verify_version candidates ok e = true ↔ ok = true ∧ version_ok candidates e.2.
Proof.
  unfold verify_version, version_ok.
  destruct (find_legal_archive candidates (archive_hint e.2)) as [zip|].
  - rewrite verify_hashes_spec. split.
    + intros [Hok Hall]. eauto.
    + intros [Hok (zip' & [= <-] & Hall)]. eauto.
  - split; [done|]. by intros [_ (zip & [=] & _)].
Qed.

Lemma verify_versions_spec candidates vs : ∀ ok,
  foldl (verify_version candidates) ok vs = true ↔
  ok = true ∧ ∀ nm v, (nm, v) ∈ vs → version_ok candidates v.
Proof.
  induction vs as [|[nm v] vs IH]; intros ok; simpl.
  - split; [|tauto]. intros ->. split; [done|]. intros ?? Hin. by apply elem_of_nil in Hin.
  - rewrite IH, verify_version_spec. simpl. split.
    + intros [[Hok Hv] Hall]. split; [done|].
      intros nm' v' [[= -> ->]|Hin]%elem_of_cons; eauto.
    + intros [Hok Hall]. split_and!; [done| |].
      * apply (Hall nm v). by left.
      * intros nm' v' Hin. apply (Hall nm' v'). by right.
Qed.

Lemma verify_games_spec candidates gs : ∀ ok,
  foldl (λ ok (g : string * sub_game),
           foldl (verify_version candidates) ok (sub_versions g.2)) ok gs = true ↔
  ok = true ∧ ∀ k nm v, (k, nm, v) ∈ entries_of gs → version_ok candidates v.
Proof.
  induction gs as [|[k g] gs IH]; intros ok; cbn [foldl].
  - split; [|tauto]. intros ->. split; [done|]. intros ??? Hin. by apply elem_of_nil in Hin.
  - rewrite IH, verify_versions_spec. cbn [snd]. split.
    + intros [[Hok Hv] Hall]. split; [done|].
      intros k' nm v [g' [[[= -> ->]|Hin]%elem_of_cons Hv']]%elem_of_entries_of.
      * by eapply Hv.
      * eapply Hall. apply elem_of_entries_of. eauto.
    + intros [Hok Hall]. split_and!; [done| |].
      * intros nm v Hin. apply (Hall k nm v). apply elem_of_entries_of.
        exists g. split; [by left|done].
      * intros k' nm v [g' [Hin Hv']]%elem_of_entries_of. apply (Hall k' nm v).
        apply elem_of_entries_of. exists g'. split; [by right|done].
Qed.

Lemma version_ok_iff candidates ver :
  version_ok candidates ver ↔
  ¬ no_archive candidates ver ∧
  ∀ f d, default ∅ (hashes ver) !! f = Some d →
         ¬ hash_mismatch candidates ver f d ∧ ¬ missing_entry candidates ver f.
Proof.
  unfold version_ok, no_archive, hash_mismatch, missing_entry, md5_of_file_in_zip.
  destruct (find_legal_archive candidates (archive_hint ver)) as [zip|]; split.
  - intros (zip' & [= <-] & Hall). split; [done|]. intros f d Hf.
    specialize (Hall f d Hf). split.
    + intros (zip' & actual & [= <-] & Hact & Hne).
      rewrite Hall in Hact. simpl in Hact. congruence.
    + intros (zip' & [= <-] & Hact). by rewrite Hall in Hact.
  - intros [_ Hall]. exists zip. split; [done|]. intros f d Hf.
    destruct (Hall f d Hf) as [Hmis Hmiss].
    destruct (entries zip !! f) as [actual|] eqn:Hact.
    + destruct (decide (actual = d)) as [->|Hne]; [done|].
      exfalso. apply Hmis. exists zip, actual. by rewrite Hact.
    + exfalso. apply Hmiss. exists zip. by rewrite Hact.
  - by intros (zip & [=] & _).
  - by intros [[] _].
Qed.

(** C8, as the code has it: [verify_submission] returns True exactly
    when an archive was found for every version of the submission and no
    triple (hint, inner file, expected digest) has a mismatch or a
    missing entry.  A version for which no archive is found fails the
    verification by itself, whatever its hashes are. *)
Theorem verify_submission_true_iff (candidates : list archive) (sub : submission) :
  verify_submission candidates sub = true ↔
  all_located candidates sub ∧ triples_clean candidates sub.
Proof.
  unfold verify_submission. rewrite verify_games_spec.
  unfold all_located, triples_clean. split.
  - intros [_ Hall]. split.
    + intros k nm v Hin. by apply version_ok_iff, (Hall k nm v).
    + intros k nm v f d Hin Hf. by apply (proj1 (version_ok_iff _ _) (Hall k nm v Hin)).
  - intros [Hloc Htr]. split; [done|]. intros k nm v Hin. apply version_ok_iff. split.
    + by eapply Hloc.
    + intros f d Hf. by eapply Htr.
Qed.

Lemma verify_submission_true_iff_witness :
  all_located sample_archives sample_submission ∧
  triples_clean sample_archives sample_submission.
Proof.
  apply verify_submission_true_iff. vm_compute. reflexivity.
Defined.

(** C8, as the claim states it, fails: with no archive at all, the
    submission whose version has no hashes has no triple, hence neither
    a mismatch nor a missing entry, and [verify_submission] returns
    False. *)
Lemma verify_submission_fails_without_archive :
  verify_submission [] hashless_submission = false ∧
  triples_clean [] hashless_submission ∧
  ¬ (verify_submission [] hashless_submission = true ↔
     triples_clean [] hashless_submission).
Proof.
  assert (Hfalse : verify_submission [] hashless_submission = false)
    by (vm_compute; reflexivity).
  assert (Hclean : triples_clean [] hashless_submission).
  { intros k nm ver f d Hin%list_elem_of_singleton. injection Hin as -> -> ->.
    simpl. by rewrite lookup_empty. }
  split_and!; [done..|]. intros [_ H]. rewrite H in Hfalse; done.
Qed.

End MergeProps.
(** * Invariants of the two tools

    Properties of the import and of the merge as a whole: what a run
    keeps, what a second run does, and how the parts compose. *)

(** ** Loops *)

Module LoopFacts.
Import PyFacts.

(** A relation that every pass of a loop establishes holds from the
    first state to the last. *)
Lemma for_each_Ok_rel {A S} (R : S → S → Prop) (body : S → A → result S) (l : list A) :
  (∀ s, R s s) → (∀ s1 s2 s3, R s1 s2 → R s2 s3 → R s1 s3) →
  (∀ s x s', x ∈ l → body s x = Ok s' → R s s') →
  ∀ s s', for_each body s l = Ok s' → R s s'.
Proof.
  intros Hrefl Htrans. induction l as [|x l IH]; intros Hbody s s' Hrun.
  - simpl in Hrun. injection Hrun as <-. apply Hrefl.
  - apply for_each_cons_Ok in Hrun as (s1 & Hstep & Hrest).
    eapply Htrans; [eapply Hbody; [by left|done]|].
    apply IH; [|done]. intros ????. apply Hbody. by right.
Qed.

Lemma for_each_cons_step {A S} (body : S → A → result S) s s1 x l :
  body s x = Ok s1 → for_each body s (x :: l) = for_each body s1 l.
Proof. intros H. simpl. by rewrite H. Qed.

Lemma for_each_Ok_inv {A S} (I : S → Prop) (body : S → A → result S) (l : list A) :
  (∀ s x s', I s → body s x = Ok s' → I s') →
  ∀ s s', I s → for_each body s l = Ok s' → I s'.
Proof.
  intros Hbody. induction l as [|x l IH]; intros s s' Hs Hrun.
  - simpl in Hrun. by injection Hrun as <-.
  - apply for_each_cons_Ok in Hrun as (s1 & Hstep & Hrest). eauto.
Qed.

Lemma mapM_Ok_lookup {A B} (f : A → result B) (l : list A) (vals : list B) i c :
  mapM f l = Ok vals → l !! i = Some c → ∃ v, vals !! i = Some v ∧ f c = Ok v.
Proof.
  revert vals i. induction l as [|a l IH]; intros vals i Hm Hi; [done|].
  simpl in Hm. apply bind_Ok in Hm as (b & Hb & Hm).
  apply bind_Ok in Hm as (bs & Hbs & Hm). injection Hm as <-.
  destruct i as [|i]; simpl in *.
  - injection Hi as <-. eauto.
  - eauto.
Qed.

Lemma for_each_app {A S} (body : S → A → result S) (l1 l2 : list A) : ∀ s,
  for_each body s (l1 ++ l2) = s1 ← for_each body s l1; for_each body s1 l2.
Proof.
  induction l1 as [|x l1 IH]; intros s; [done|].
  simpl. destruct (body s x) as [s1|e]; simpl; [apply IH|done].
Qed.

(** A loop body that adds to a counter can be run from zero. *)
Lemma for_each_count_shift {A G} (body : G * nat → A → result (G * nat)) (l : list A) :
  (∀ g n x, body (g, n) x
            = match body (g, 0%nat) x with
              | Ok (g', m) => Ok (g', (n + m)%nat)
              | Raise e => Raise e
              end) →
  ∀ g n, for_each body (g, n) l
         = match for_each body (g, 0%nat) l with
           | Ok (g', m) => Ok (g', (n + m)%nat)
           | Raise e => Raise e
           end.
Proof.
  intros Hbody. induction l as [|x l IH]; intros g n.
  - simpl. by rewrite Nat.add_0_r.
  - simpl. rewrite (Hbody g n x).
    destruct (body (g, 0%nat) x) as [[g1 m1]|e]; simpl; [|done].
    rewrite (IH g1 (n + m1)%nat), (IH g1 m1).
    destruct (for_each body (g1, 0%nat) l) as [[g2 m2]|e]; [|done].
    by rewrite Nat.add_assoc.
Qed.

End LoopFacts.

Module ImportInvariants.
Import ImportDatabase ImportSpec PyFacts LoopFacts ImportProps.

(** ** The import only appends rows *)

Lemma table_extends_refl t : table_extends t t.
Proof. by split. Qed.

Lemma table_extends_trans t1 t2 t3 :
  table_extends t1 t2 → table_extends t2 t3 → table_extends t1 t3.
Proof. intros [? ?] [? ?]. split; [congruence|by etrans]. Qed.

Lemma appends_to_refl tname d : appends_to tname d d.
Proof.
  split; [done|]. destruct (d !! tname); constructor. apply table_extends_refl.
Qed.

Lemma appends_to_trans tname d1 d2 d3 :
  appends_to tname d1 d2 → appends_to tname d2 d3 → appends_to tname d1 d3.
Proof.
  intros [F1 E1] [F2 E2]. split.
  - intros other Hne. by rewrite F2, F1.
  - destruct E1; inversion E2; simplify_eq; constructor.
    by eapply table_extends_trans.
Qed.

Lemma appends_to_extends tname d d' : appends_to tname d d' → db_extends d d'.
Proof.
  intros [F E] other. destruct (decide (other = tname)) as [->|Hne]; [done|].
  rewrite F by done. destruct (d !! other); constructor. apply table_extends_refl.
Qed.

Lemma db_extends_refl d : db_extends d d.
Proof. intros tname. destruct (d !! tname); constructor. apply table_extends_refl. Qed.

Lemma db_extends_trans d1 d2 d3 : db_extends d1 d2 → db_extends d2 d3 → db_extends d1 d3.
Proof.
  intros E1 E2 tname. specialize (E1 tname). specialize (E2 tname).
  destruct E1; inversion E2; simplify_eq; constructor.
  by eapply table_extends_trans.
Qed.

Lemma insert_appends (d d' : db) tname icols vals rowid :
  insert d tname icols vals = Ok (d', rowid) → appends_to tname d d'.
Proof.
  intros (t & Ht & ->)%insert_Ok_inv. split.
  - intros other Hne. by rewrite lookup_insert_ne.
  - rewrite Ht, lookup_insert_eq. constructor. split; [done|]. simpl.
    by apply prefix_app_r.
Qed.

Lemma copy_table_row_appends tname cols icols idx vm st st' (r : row) :
  copy_table_row tname cols icols idx vm st r = Ok st' →
  appends_to tname st.1 st'.1.
Proof.
  destruct st as [out n]. unfold copy_table_row. intros Hrow.
  apply bind_Ok in Hrow as (v & _ & Hrow).
  destruct (vm !! v) as [nv|].
  - apply bind_Ok in Hrow as (vals & _ & Hrow).
    apply bind_Ok in Hrow as ([out1 rowid] & Hins & Hrow).
    injection Hrow as <-. simpl. by eapply insert_appends.
  - injection Hrow as <-. apply appends_to_refl.
Qed.

Lemma copy_table_appends tname inp out vm out' rep :
  copy_table tname inp out vm = Ok (out', rep) → appends_to tname out out'.
Proof.
  unfold copy_table. intros Hrun.
  apply bind_Ok in Hrun as (rs & _ & Hrun).
  apply bind_Ok in Hrun as (idx & _ & Hrun).
  apply bind_Ok in Hrun as ([out1 n1] & Hloop & Hrun). injection Hrun as <- _.
  apply (for_each_Ok_rel (λ s s' : db * nat, appends_to tname s.1 s'.1)) in Hloop;
    [done|intros; apply appends_to_refl|intros ???; apply appends_to_trans|].
  intros s x s' _. apply copy_table_row_appends.
Qed.

Lemma copy_versions_row_appends cols icols idx gm st st' (r : row) :
  copy_versions_row cols icols idx gm st r = Ok st' →
  appends_to "versions" st.1.1 st'.1.1.
Proof.
  destruct st as [[out m] n]. unfold copy_versions_row. intros Hrow.
  apply bind_Ok in Hrow as (g & _ & Hrow).
  apply bind_Ok in Hrow as (i & _ & Hrow).
  apply bind_Ok in Hrow as (vid & _ & Hrow).
  destruct (gm !! g) as [ng|]; [|done].
  apply bind_Ok in Hrow as (vals & _ & Hrow).
  apply bind_Ok in Hrow as ([out1 rowid] & Hins & Hrow).
  injection Hrow as <-. simpl. by eapply insert_appends.
Qed.

Lemma copy_versions_appends inp out gm out' vm rep :
  copy_versions inp out gm = Ok (out', vm, rep) → appends_to "versions" out out'.
Proof.
  unfold copy_versions. intros Hrun.
  apply bind_Ok in Hrun as (rs & _ & Hrun).
  apply bind_Ok in Hrun as (idx & _ & Hrun).
  apply bind_Ok in Hrun as ([[out1 m1] n1] & Hloop & Hrun). injection Hrun as <- _ _.
  apply (for_each_Ok_rel (λ s s' : db * gmap sqlval Z * nat,
           appends_to "versions" s.1.1 s'.1.1)) in Hloop;
    [done|intros; apply appends_to_refl|intros ???; apply appends_to_trans|].
  intros s x s' _. apply copy_versions_row_appends.
Qed.

Lemma copy_db_content_row_appends cols icols st st' (r : row) :
  copy_db_content_row cols icols st r = Ok st' →
  appends_to "games" st.1.1.1 st'.1.1.1.
Proof.
  destruct st as [[[out ex] m] n]. unfold copy_db_content_row. intros Hrow.
  apply bind_Ok in Hrow as (ig & _ & Hrow).
  apply bind_Ok in Hrow as (x & _ & Hrow).
  case_bool_decide.
  - injection Hrow as <-. apply appends_to_refl.
  - apply bind_Ok in Hrow as (i & _ & Hrow).
    apply bind_Ok in Hrow as (iid & _ & Hrow).
    apply bind_Ok in Hrow as ([out1 rowid] & Hins & Hrow).
    injection Hrow as <-. simpl. by eapply insert_appends.
Qed.

Lemma copy_db_content_appends inp out out' gm rep :
  copy_db_content inp out = Ok (out', gm, rep) → appends_to "games" out out'.
Proof.
  unfold copy_db_content. intros Hrun. case_bool_decide; [|done].
  apply bind_Ok in Hrun as (rs & _ & Hrun).
  apply bind_Ok in Hrun as (ex & _ & Hrun).
  apply bind_Ok in Hrun as (idx & _ & Hrun).
  apply bind_Ok in Hrun as ([[[out1 ex1] m1] n1] & Hloop & Hrun).
  injection Hrun as <- _ _.
  apply (for_each_Ok_rel (λ s s' : db * gset sqlval * gmap sqlval Z * nat,
           appends_to "games" s.1.1.1 s'.1.1.1)) in Hloop;
    [done|intros; apply appends_to_refl|intros ???; apply appends_to_trans|].
  intros s x s' _. apply copy_db_content_row_appends.
Qed.

Lemma copy_all_extends inp out : db_extends out (copy_all inp out).2.
Proof.
  unfold copy_all.
  destruct (copy_db_content inp out) as [[[out1 gm] r1]|e] eqn:H1;
    [|apply db_extends_refl].
  apply copy_db_content_appends, appends_to_extends in H1.
  destruct (copy_versions inp out1 gm) as [[[out2 vm] r2]|e] eqn:H2; [|done].
  apply copy_versions_appends, appends_to_extends in H2.
  destruct (copy_table "hashes" inp out2 vm) as [[out3 r3]|e] eqn:H3;
    [|by eapply db_extends_trans].
  apply copy_table_appends, appends_to_extends in H3.
  destruct (copy_table "config_files" inp out3 vm) as [[out4 r4]|e] eqn:H4;
    simpl; [|by eauto using db_extends_trans].
  apply copy_table_appends, appends_to_extends in H4.
  eauto using db_extends_trans.
Qed.

(** X1: whatever the outcome of a run on an existing output file (a
    version mismatch, an exception in one of the copies, or a normal
    end), the file afterwards has the tables it had and no other, each
    with its columns and with the rows it had, in their order, before
    any new row: the import adds rows and does nothing else. *)
Theorem import_only_appends (inp out : db) :
  ∃ out', (main inp (Some out)).2 = Some out' ∧ db_extends out out'.
Proof.
  unfold main. destruct (get_database_version inp); simpl.
  2:{ eexists. split; [done|apply db_extends_refl]. }
  destruct (get_database_version out); simpl.
  2:{ eexists. split; [done|apply db_extends_refl]. }
  case_bool_decide; simpl.
  { eexists. split; [done|apply db_extends_refl]. }
  pose proof (copy_all_extends inp out) as Hext.
  destruct (copy_all inp out) as [o out']. simpl in *. eauto.
Qed.

(** ** A second run of the import *)

Lemma sql_in_nil v : sql_in v [] = false.
Proof.
  unfold sql_in. apply bool_decide_eq_false. intros [_ Hin].
  by apply elem_of_nil in Hin.
Qed.

Lemma filter_sql_in_nil (j : nat) (rs : list row) :
  filter (λ r : row, sql_in (default SqlNull (r !! j)) [] = true) rs = [].
Proof.
  induction rs as [|r rs IH]; [done|].
  rewrite filter_cons_False; [done|]. by rewrite sql_in_nil.
Qed.

Lemma select_where_in_nil (d : db) tname col keys rs :
  select_where_in d tname col keys = Ok rs →
  select_where_in d tname col [] = Ok [].
Proof.
  unfold select_where_in. intros Hsel.
  apply bind_Ok in Hsel as (t & -> & Hsel). simpl.
  apply bind_Ok in Hsel as (j & -> & _). simpl.
  by rewrite filter_sql_in_nil.
Qed.

(** With an empty remap [copy_versions] selects no row and writes
    nothing, provided the statement it prepares is accepted at all. *)
Lemma copy_versions_empty (inp out out' : db) gm res :
  copy_versions inp out gm = Ok res →
  copy_versions inp out' ∅ = Ok (out', ∅, {| processed := 0; inserted := 0 |}).
Proof.
  unfold copy_versions. intros Hrun.
  apply bind_Ok in Hrun as (rs & Hsel & Hrun).
  apply bind_Ok in Hrun as (idx & -> & _).
  rewrite map_to_list_empty. simpl.
  by rewrite (select_where_in_nil _ _ _ _ _ Hsel).
Qed.

Lemma copy_table_empty tname (inp out out' : db) vm res :
  copy_table tname inp out vm = Ok res →
  copy_table tname inp out' ∅ = Ok (out', {| processed := 0; inserted := 0 |}).
Proof.
  unfold copy_table. intros Hrun.
  apply bind_Ok in Hrun as (rs & Hsel & Hrun).
  apply bind_Ok in Hrun as (idx & -> & _).
  rewrite map_to_list_empty. simpl.
  by rewrite (select_where_in_nil _ _ _ _ _ Hsel).
Qed.

(** What the loop of [copy_db_content] leaves in [existing_igdb_ids]:
    the IGDB ids of the output table, among them the IGDB id of every
    row it has gone through. *)
Lemma copy_db_content_loop_seen cols id_idx (rs : list row) :
  ∀ (out out' : db) t (ex ex' : gset sqlval) (gm gm' : gmap sqlval Z) (n n' : nat),
  index_of "id" cols = Some id_idx →
  out !! "games" = Some t →
  "igdb_id" ∈ columns t →
  ex = list_to_set (igdb_ids t) →
  for_each (copy_db_content_row cols (without_index id_idx cols)) (out, ex, gm, n) rs
  = Ok (out', ex', gm', n') →
  ∃ t', out' !! "games" = Some t' ∧ columns t' = columns t ∧
        ex' = list_to_set (igdb_ids t') ∧ ex ⊆ ex' ∧
        ∀ r, r ∈ rs → ∃ ig x, index_of "igdb_id" cols = Some ig ∧
                              r !! ig = Some x ∧ x ∈ ex'.
Proof.
  induction rs as [|r rs IH]; intros out out' t ex ex' gm gm' n n' Hid Ht Hcol Hex Hrun.
  - simpl in Hrun. injection Hrun as <- <- _ _. exists t.
    split_and!; try done. intros r Hr. by apply elem_of_nil in Hr.
  - apply for_each_cons_Ok in Hrun as [[[[out1 ex1] gm1] n1] [Hstep Hrest]].
    assert (∃ ig x, index_of "igdb_id" cols = Some ig ∧ r !! ig = Some x ∧ x ∈ ex1)
      as Hseen.
    { unfold copy_db_content_row in Hstep.
      apply bind_Ok in Hstep as (ig & Hig & Hstep). apply of_option_Ok in Hig.
      apply bind_Ok in Hstep as (x & Hx & Hstep). apply of_option_Ok in Hx.
      exists ig, x. split; [done|]. split; [done|].
      case_bool_decide as Hmem.
      - by injection Hstep as _ <- _ _.
      - apply bind_Ok in Hstep as (i & _ & Hstep).
        apply bind_Ok in Hstep as (iid & _ & Hstep).
        apply bind_Ok in Hstep as ([out2 rowid] & _ & Hstep).
        injection Hstep as _ <- _ _. apply elem_of_union. left.
        by apply elem_of_singleton. }
    assert (∃ t1, out1 !! "games" = Some t1 ∧ columns t1 = columns t ∧
                  ex1 = list_to_set (igdb_ids t1) ∧ ex ⊆ ex1)
      as (t1 & Ht1 & Hc1 & Hex1 & Hsub1).
    { destruct (copy_db_content_row_igdb _ _ _ _ _ _ _ _ _ _ _ _ Hid Ht Hcol Hex Hstep)
        as [(-> & -> & ->)|(t1 & x & Ht1 & Hc1 & Hids1 & Hx & Hex1 & ->)].
      - by exists t.
      - exists t1. split_and!; try done. rewrite Hex, Hex1, Hids1.
        intros y Hy. apply elem_of_list_to_set. apply elem_of_list_to_set in Hy.
        apply elem_of_app. by left. }
    destruct (IH _ _ _ _ _ _ _ _ _ Hid Ht1 ltac:(by rewrite Hc1) Hex1 Hrest)
      as (t' & Ht' & Hc' & Hex' & Hsub & Hall).
    exists t'. split_and!; try done.
    + congruence.
    + by etrans.
    + intros r' [->|Hr']%elem_of_cons; [|by apply Hall].
      destruct Hseen as (ig & x & ? & ? & ?). exists ig, x. split_and!; try done.
      by apply Hsub.
Qed.

Lemma copy_db_content_loop_skip cols icols (out : db) (ex : gset sqlval)
    (gm : gmap sqlval Z) (n : nat) (rs : list row) :
  (∀ r, r ∈ rs → ∃ ig x, index_of "igdb_id" cols = Some ig ∧
                         r !! ig = Some x ∧ x ∈ ex) →
  for_each (copy_db_content_row cols icols) (out, ex, gm, n) rs = Ok (out, ex, gm, n).
Proof.
  induction rs as [|r rs IH]; intros Hall; [done|].
  destruct (Hall r ltac:(by left)) as (ig & x & Hig & Hx & Hmem).
  rewrite (for_each_cons_step _ _ (out, ex, gm, n)).
  - apply IH. intros r' Hr'. apply Hall. by right.
  - unfold copy_db_content_row, py_index, py_item.
    rewrite Hig. simpl. rewrite Hx. simpl.
    by rewrite bool_decide_eq_true_2.
Qed.

(** After a run of [copy_db_content] every game of the input is met in
    the output, so a second run inserts nothing. *)
Lemma copy_db_content_again (inp out out1 out' : db) gm rep :
  copy_db_content inp out = Ok (out1, gm, rep) →
  out' !! "games" = out1 !! "games" →
  copy_db_content inp out' = Ok (out', ∅, {| processed := processed rep; inserted := 0 |}).
Proof.
  intros Hrun Hsame. unfold copy_db_content in *.
  case_bool_decide as Higdb; [|done].
  apply bind_Ok in Hrun as (rs & -> & Hrun).
  apply bind_Ok in Hrun as (existing & Hex & Hrun).
  apply bind_Ok in Hrun as (id_idx & Hid & Hrun). rewrite Hid.
  apply of_option_Ok in Hid.
  apply bind_Ok in Hrun as ([[[out2 ex1] gm1] n1] & Hloop & Hrun).
  injection Hrun as -> <- <-. simpl.
  unfold select_column, find_table in Hex.
  apply bind_Ok in Hex as (tout & Hout & Hex). apply of_option_Ok in Hout.
  apply bind_Ok in Hex as (j & Hj & Hex). apply of_option_Ok in Hj.
  injection Hex as <-.
  destruct (copy_db_content_loop_seen _ _ _ _ _ tout _ _ _ _ _ _ Hid Hout
              ltac:(apply index_of_Some in Hj; by eapply list_elem_of_lookup_2)
              ltac:(unfold igdb_ids, field; by rewrite Hj) Hloop)
    as (t1 & Ht1 & Hc1 & Hex1 & _ & Hall).
  unfold select_column, find_table. rewrite Hsame, Ht1. simpl.
  rewrite Hc1, Hj. simpl.
  replace ((λ r : row, default SqlNull (r !! j)) <$> rows t1) with (igdb_ids t1)
    by (unfold igdb_ids, field; by rewrite Hc1, Hj).
  rewrite <- Hex1.
  by rewrite (copy_db_content_loop_skip _ _ _ _ _ _ _ Hall).
Qed.

Lemma copy_all_Finished_inv inp out out' :
  copy_all inp out = (Finished, out') →
  ∃ out1 gm r1 out2 vm r2 out3 r3 r4,
    copy_db_content inp out = Ok (out1, gm, r1) ∧
    copy_versions inp out1 gm = Ok (out2, vm, r2) ∧
    copy_table "hashes" inp out2 vm = Ok (out3, r3) ∧
    copy_table "config_files" inp out3 vm = Ok (out', r4).
Proof.
  unfold copy_all. intros Hrun.
  destruct (copy_db_content inp out) as [[[out1 gm] r1]|] eqn:H1; [|done].
  destruct (copy_versions inp out1 gm) as [[[out2 vm] r2]|] eqn:H2; [|done].
  destruct (copy_table "hashes" inp out2 vm) as [[out3 r3]|] eqn:H3; [|done].
  destruct (copy_table "config_files" inp out3 vm) as [[out4 r4]|] eqn:H4; [|done].
  injection Hrun as <-. by exists out1, gm, r1, out2, vm, r2, out3, r3, r4.
Qed.

Lemma copy_all_again inp out out' :
  copy_all inp out = (Finished, out') → copy_all inp out' = (Finished, out').
Proof.
  intros (out1 & gm & r1 & out2 & vm & r2 & out3 & r3 & r4 & H1 & H2 & H3 & H4)
    %copy_all_Finished_inv.
  assert (out' !! "games" = out1 !! "games") as Hgames.
  { apply copy_versions_appends in H2 as [F2 _].
    apply copy_table_appends in H3 as [F3 _].
    apply copy_table_appends in H4 as [F4 _].
    by rewrite F4, F3, F2. }
  unfold copy_all.
  rewrite (copy_db_content_again _ _ _ _ _ _ H1 Hgames).
  rewrite (copy_versions_empty _ _ out' _ _ H2).
  rewrite (copy_table_empty _ _ _ out' _ _ H3).
  by rewrite (copy_table_empty _ _ _ out' _ _ H4).
Qed.

Lemma copy_all_keeps_version inp out :
  get_database_version (copy_all inp out).2 = get_database_version out.
Proof.
  assert (∀ d d' tname, tname ≠ "db_version" → appends_to tname d d' →
            get_database_version d' = get_database_version d) as Hkeep.
  { intros d d' tname Hne [F _]. unfold get_database_version, select_column, find_table.
    by rewrite F. }
  unfold copy_all.
  destruct (copy_db_content inp out) as [[[out1 gm] r1]|e] eqn:H1; [|done].
  apply copy_db_content_appends, Hkeep in H1; [|done].
  destruct (copy_versions inp out1 gm) as [[[out2 vm] r2]|e] eqn:H2; [|done].
  apply copy_versions_appends, Hkeep in H2; [|done].
  destruct (copy_table "hashes" inp out2 vm) as [[out3 r3]|e] eqn:H3;
    [|simpl; congruence].
  apply copy_table_appends, Hkeep in H3; [|done].
  destruct (copy_table "config_files" inp out3 vm) as [[out4 r4]|e] eqn:H4;
    simpl; [|congruence].
  apply copy_table_appends, Hkeep in H4; [|done]. congruence.
Qed.

(** X2: when a run on an existing output file ends normally, a second
    run with the same input ends normally too and leaves the file as
    the first run left it: every game of the input is now met by its
    IGDB id, so the game remap is empty and no version, hash or
    configuration file is selected. *)
Theorem import_twice_is_import_once (inp out out' : db) :
  main inp (Some out) = (Finished, Some out') →
  main inp (Some out') = (Finished, Some out').
Proof.
  unfold main. destruct (get_database_version inp) as [v_in|]; [|done].
  destruct (get_database_version out) as [v_out|] eqn:Hv; [|done].
  case_bool_decide as Hne; [done|].
  destruct (copy_all inp out) as [o out1] eqn:Hrun. intros [= -> ->].
  pose proof (copy_all_keeps_version inp out) as Hkeep.
  rewrite Hrun in Hkeep. simpl in Hkeep. rewrite Hkeep, Hv.
  case_bool_decide; [done|].
  by rewrite (copy_all_again _ _ _ Hrun).
Qed.

Lemma import_twice_is_import_once_witness :
  main source_db (Some target_db) = (Finished, Some (copy_all source_db target_db).2) ∧
  main source_db (Some (copy_all source_db target_db).2)
  = (Finished, Some (copy_all source_db target_db).2).
Proof.
  assert (main source_db (Some target_db)
          = (Finished, Some (copy_all source_db target_db).2)) as H
    by (vm_compute; reflexivity).
  split; [exact H|]. exact (import_twice_is_import_once _ _ _ H).
Defined.

(** ** References between the tables *)

Lemma table_of_extends d d' tname :
  db_extends d d' → table_extends (table_of d tname) (table_of d' tname).
Proof.
  intros Hext. unfold table_of. destruct (Hext tname); simpl; [done|].
  apply table_extends_refl.
Qed.

Lemma table_of_frame tname other d d' :
  appends_to tname d d' → other ≠ tname → table_of d' other = table_of d other.
Proof. intros [F _] Hne. unfold table_of. by rewrite F. Qed.

Lemma has_parent_mono d d' child fk parent r :
  db_extends d d' → has_parent d child fk parent r → has_parent d' child fk parent r.
Proof.
  intros Hext (p & z & Hp & Hid & Hfk).
  destruct (table_of_extends _ _ parent Hext) as [Hcp Hrp].
  destruct (table_of_extends _ _ child Hext) as [Hcc _].
  exists p, z. rewrite Hcp, Hcc. split_and!; try done.
  destruct Hrp as [k ->]. apply elem_of_app. by left.
Qed.

Lemma linked_frame tname d d' child fk parent :
  appends_to tname d d' → tname ≠ child →
  linked d child fk parent → linked d' child fk parent.
Proof.
  intros Happ Hne Hl r Hr.
  rewrite (table_of_frame _ _ _ _ Happ) in Hr by done.
  eapply has_parent_mono; [by eapply appends_to_extends|by apply Hl].
Qed.

Lemma ids_in_mono d d' tname m : db_extends d d' → ids_in d tname m → ids_in d' tname m.
Proof.
  intros Hext Hm k v Hkv. destruct (Hm k v Hkv) as (p & Hp & Hid).
  destruct (table_of_extends _ _ tname Hext) as [Hc [l Hr]].
  exists p. rewrite Hc, Hr. split; [|done]. apply elem_of_app. by left.
Qed.

Lemma ids_in_empty d tname : ids_in d tname ∅.
Proof. intros k v Hkv. by rewrite lookup_empty in Hkv. Qed.

(** What a successful [INSERT] stores. *)
Lemma insert_Ok_fields (d d' : db) tname icols vals rowid :
  insert d tname icols vals = Ok (d', rowid) →
  ∃ t nr, d !! tname = Some t ∧
    d' = <[tname := {| columns := columns t; rows := rows t ++ [nr];
                       seq := Z.max (seq t) rowid |}]> d ∧
    (∀ c i, index_of c icols = Some i →
            field (columns t) nr c = default SqlNull (vals !! i)) ∧
    ("id" ∈ columns t → index_of "id" icols = None →
     field (columns t) nr "id" = SqlInt rowid).
Proof.
  unfold insert, find_table. destruct (d !! tname) as [t|]; simpl; [|done].
  case_bool_decide as Hcols; simpl; [|done].
  case_bool_decide as Hlen; simpl; [|done].
  intros [= <- <-]. eexists t, _. split; [done|]. split; [done|]. split.
  - intros c i Hi. unfold field.
    assert (c ∈ columns t) as Hc.
    { rewrite Forall_forall in Hcols. apply Hcols.
      apply index_of_Some in Hi. by eapply list_elem_of_lookup_2. }
    destruct (index_of_is_Some _ _ Hc) as [j Hj]. rewrite Hj.
    apply index_of_Some in Hj. unfold new_row.
    rewrite list_lookup_fmap, Hj. simpl. by rewrite Hi.
  - intros Hid Hnone. rewrite Hnone. unfold field.
    destruct (index_of_is_Some _ _ Hid) as [j Hj]. rewrite Hj.
    apply index_of_Some in Hj. unfold new_row.
    rewrite list_lookup_fmap, Hj. simpl. by rewrite Hnone.
Qed.

Lemma table_of_insert_eq (d : db) tname t : table_of (<[tname := t]> d) tname = t.
Proof. unfold table_of. by rewrite lookup_insert_eq. Qed.

Lemma table_of_insert_ne (d : db) tname other t :
  other ≠ tname → table_of (<[tname := t]> d) other = table_of d other.
Proof. intros. unfold table_of. by rewrite lookup_insert_ne. Qed.

Lemma table_of_Some (d : db) tname t : d !! tname = Some t → table_of d tname = t.
Proof. intros H. unfold table_of. by rewrite H. Qed.

Lemma index_of_filter_not_id cols : index_of "id" (filter (λ col, col ≠ "id") cols) = None.
Proof. apply index_of_None. rewrite filter_not_id_spec. tauto. Qed.

(** One more row of the child table, holding a new parent id that is
    the [id] of a parent row. *)
Lemma linked_insert (d d' : db) child fk parent icols vals rowid (m : gmap sqlval Z) k nv i :
  child ≠ parent →
  linked d child fk parent →
  ids_in d parent m → m !! k = Some nv →
  index_of fk icols = Some i → vals !! i = Some (SqlInt nv) →
  insert d child icols vals = Ok (d', rowid) →
  linked d' child fk parent.
Proof.
  intros Hne Hl Hm Hk Hi Hv Hins.
  pose proof (insert_appends _ _ _ _ _ _ Hins) as Happ.
  apply insert_Ok_fields in Hins as (t & nr & Ht & -> & Hfields & _).
  intros r Hr. rewrite table_of_insert_eq in Hr. cbn [rows] in Hr.
  apply elem_of_app in Hr as [Hr|Hr].
  - eapply has_parent_mono; [by eapply appends_to_extends|].
    apply Hl. by rewrite (table_of_Some _ _ _ Ht).
  - apply list_elem_of_singleton in Hr as ->.
    destruct (Hm k nv Hk) as (p & Hp & Hid).
    exists p, nv. rewrite table_of_insert_eq, table_of_insert_ne by done.
    split_and!; try done. cbn [columns]. by rewrite (Hfields _ _ Hi), Hv.
Qed.

(** The remap extended by the row id of the row just inserted. *)
Lemma ids_in_insert (d d' : db) tname icols vals rowid (m : gmap sqlval Z) k :
  "id" ∈ columns (table_of d tname) → index_of "id" icols = None →
  ids_in d tname m →
  insert d tname icols vals = Ok (d', rowid) →
  ids_in d' tname (<[k := rowid]> m).
Proof.
  intros Hid Hnone Hm Hins.
  pose proof (insert_appends _ _ _ _ _ _ Hins) as Happ.
  apply insert_Ok_fields in Hins as (t & nr & Ht & Hd' & _ & Hrowid).
  rewrite (table_of_Some _ _ _ Ht) in Hid.
  intros k' v Hkv. destruct (decide (k' = k)) as [->|Hne].
  - rewrite lookup_insert_eq in Hkv. injection Hkv as <-.
    exists nr. rewrite Hd', table_of_insert_eq. cbn [rows columns]. split.
    + apply elem_of_app. right. by apply list_elem_of_singleton.
    + by apply Hrowid.
  - rewrite lookup_insert_ne in Hkv by done.
    eapply ids_in_mono; [by eapply appends_to_extends|done..].
Qed.

Lemma appends_to_columns tname d d' other :
  appends_to tname d d' → columns (table_of d' other) = columns (table_of d other).
Proof. intros Happ%appends_to_extends. by destruct (table_of_extends _ _ other Happ). Qed.

(** *** copy_table links every row it adds *)

Lemma copy_table_row_linked tname cols idx (vm : gmap sqlval Z) st st' (r : row) :
  tname ≠ "versions" →
  "version_id" ∈ cols →
  ids_in st.1 "versions" vm →
  linked st.1 tname "version_id" "versions" →
  copy_table_row tname cols (filter (λ col, col ≠ "id") cols) idx vm st r = Ok st' →
  linked st'.1 tname "version_id" "versions".
Proof.
  destruct st as [out n]. simpl. intros Hne Hcol Hvm Hl Hrow.
  unfold copy_table_row in Hrow.
  apply bind_Ok in Hrow as (v & _ & Hrow).
  destruct (vm !! v) as [nv|] eqn:Hv.
  - apply bind_Ok in Hrow as (vals & Hvals & Hrow).
    apply bind_Ok in Hrow as ([out1 rowid] & Hins & Hrow).
    injection Hrow as <-. simpl.
    destruct (index_of_is_Some "version_id" (filter (λ col, col ≠ "id") cols))
      as [i Hi]; [by apply filter_not_id_spec|].
    destruct (mapM_Ok_lookup _ _ _ i "version_id" Hvals) as (x & Hx & Hfx);
      [by apply index_of_Some|].
    rewrite decide_True in Hfx by done. injection Hfx as <-.
    by eapply linked_insert.
  - by injection Hrow as <-.
Qed.

Lemma copy_table_linked tname inp out vm out' rep :
  tname ≠ "versions" →
  ids_in out "versions" vm →
  linked out tname "version_id" "versions" →
  copy_table tname inp out vm = Ok (out', rep) →
  linked out' tname "version_id" "versions".
Proof.
  intros Hne Hvm Hl Hrun. unfold copy_table in Hrun.
  apply bind_Ok in Hrun as (rs & _ & Hrun).
  apply bind_Ok in Hrun as (idx & Hidx & Hrun). apply of_option_Ok in Hidx.
  apply bind_Ok in Hrun as ([out1 n1] & Hloop & Hrun). injection Hrun as <- _.
  apply (for_each_Ok_inv (λ s : db * nat,
           ids_in s.1 "versions" vm ∧ linked s.1 tname "version_id" "versions"))
    in Hloop; [by destruct Hloop| |done].
  intros s x s' [Hvm' Hl'] Hstep. split.
  - eapply ids_in_mono; [|done].
    eapply appends_to_extends. by eapply copy_table_row_appends.
  - eapply copy_table_row_linked; [done| |done..].
    apply index_of_Some in Hidx. by eapply list_elem_of_lookup_2.
Qed.

(** *** copy_versions links every row it adds *)

Lemma copy_versions_row_linked cols idx (gm : gmap sqlval Z) st st' (r : row) :
  "game_id" ∈ cols →
  "id" ∈ columns (table_of st.1.1 "versions") →
  ids_in st.1.1 "games" gm →
  linked st.1.1 "versions" "game_id" "games" ∧ ids_in st.1.1 "versions" st.1.2 →
  copy_versions_row cols (filter (λ col, col ≠ "id") cols) idx gm st r = Ok st' →
  linked st'.1.1 "versions" "game_id" "games" ∧ ids_in st'.1.1 "versions" st'.1.2.
Proof.
  destruct st as [[out m] n]. simpl. intros Hcol Hid Hgm [Hl Hm] Hrow.
  unfold copy_versions_row in Hrow.
  apply bind_Ok in Hrow as (g & _ & Hrow).
  apply bind_Ok in Hrow as (j & _ & Hrow).
  apply bind_Ok in Hrow as (vid & _ & Hrow).
  destruct (gm !! g) as [ng|] eqn:Hg; [|done].
  apply bind_Ok in Hrow as (vals & Hvals & Hrow).
  apply bind_Ok in Hrow as ([out1 rowid] & Hins & Hrow).
  injection Hrow as <-. simpl.
  destruct (index_of_is_Some "game_id" (filter (λ col, col ≠ "id") cols))
    as [i Hi]; [by apply filter_not_id_spec|].
  destruct (mapM_Ok_lookup _ _ _ i "game_id" Hvals) as (x & Hx & Hfx);
    [by apply index_of_Some|].
  rewrite decide_True in Hfx by done. injection Hfx as <-.
  split.
  - by eapply linked_insert.
  - eapply ids_in_insert; [done|apply index_of_filter_not_id|done..].
Qed.

Lemma copy_versions_linked inp out gm out' vm rep :
  "id" ∈ columns (table_of out "versions") →
  ids_in out "games" gm →
  linked out "versions" "game_id" "games" →
  copy_versions inp out gm = Ok (out', vm, rep) →
  linked out' "versions" "game_id" "games" ∧ ids_in out' "versions" vm.
Proof.
  intros Hid Hgm Hl Hrun. unfold copy_versions in Hrun.
  apply bind_Ok in Hrun as (rs & _ & Hrun).
  apply bind_Ok in Hrun as (idx & Hidx & Hrun). apply of_option_Ok in Hidx.
  apply bind_Ok in Hrun as ([[out1 m1] n1] & Hloop & Hrun). injection Hrun as <- <- _.
  apply (for_each_Ok_inv (λ s : db * gmap sqlval Z * nat,
           ("id" ∈ columns (table_of s.1.1 "versions") ∧ ids_in s.1.1 "games" gm) ∧
           linked s.1.1 "versions" "game_id" "games" ∧
           ids_in s.1.1 "versions" s.1.2))
    in Hloop; [by destruct Hloop| |].
  - intros s x s' [[Hid' Hgm'] Hinv] Hstep.
    pose proof (copy_versions_row_appends _ _ _ _ _ _ _ Hstep) as Happ.
    split; [split|].
    + by rewrite (appends_to_columns _ _ _ _ Happ).
    + eapply ids_in_mono; [by eapply appends_to_extends|done].
    + eapply copy_versions_row_linked; [|done..].
      apply index_of_Some in Hidx. by eapply list_elem_of_lookup_2.
  - simpl. split_and!; try done; apply ids_in_empty.
Qed.

(** *** The remap of copy_db_content names rows of the output *)

Lemma index_of_without_index_None c (l : list string) i :
  NoDup l → index_of c l = Some i → index_of c (without_index i l) = None.
Proof.
  intros Hnd Hi. apply index_of_None. unfold without_index.
  apply index_of_Some in Hi.
  rewrite <- (take_drop_middle l i c Hi) in Hnd.
  apply NoDup_app in Hnd as (_ & Hdisj & Hnd).
  apply NoDup_cons in Hnd as [Hnotin _].
  rewrite elem_of_app. intros [Hin|Hin]; [|done].
  apply (Hdisj c Hin). by left.
Qed.

Lemma copy_db_content_row_ids cols id_idx st st' (r : row) :
  NoDup cols → index_of "id" cols = Some id_idx →
  "id" ∈ columns (table_of st.1.1.1 "games") →
  ids_in st.1.1.1 "games" st.1.2 →
  copy_db_content_row cols (without_index id_idx cols) st r = Ok st' →
  ids_in st'.1.1.1 "games" st'.1.2.
Proof.
  destruct st as [[[out ex] m] n]. simpl. intros Hnd Hidx Hid Hm Hrow.
  unfold copy_db_content_row in Hrow.
  apply bind_Ok in Hrow as (ig & _ & Hrow).
  apply bind_Ok in Hrow as (x & _ & Hrow).
  case_bool_decide.
  - by injection Hrow as <-.
  - apply bind_Ok in Hrow as (i & _ & Hrow).
    apply bind_Ok in Hrow as (iid & _ & Hrow).
    apply bind_Ok in Hrow as ([out1 rowid] & Hins & Hrow).
    injection Hrow as <-. simpl.
    eapply ids_in_insert; [done| |done..].
    by apply index_of_without_index_None.
Qed.

Lemma copy_db_content_ids inp out out' gm rep :
  NoDup (get_table_columns inp "games") →
  "id" ∈ columns (table_of out "games") →
  copy_db_content inp out = Ok (out', gm, rep) →
  ids_in out' "games" gm.
Proof.
  intros Hnd Hid Hrun. unfold copy_db_content in Hrun.
  case_bool_decide; [|done].
  apply bind_Ok in Hrun as (rs & _ & Hrun).
  apply bind_Ok in Hrun as (ex & _ & Hrun).
  apply bind_Ok in Hrun as (idx & Hidx & Hrun). apply of_option_Ok in Hidx.
  apply bind_Ok in Hrun as ([[[out1 ex1] m1] n1] & Hloop & Hrun).
  injection Hrun as <- <- _.
  apply (for_each_Ok_inv (λ s : db * gset sqlval * gmap sqlval Z * nat,
           "id" ∈ columns (table_of s.1.1.1 "games") ∧ ids_in s.1.1.1 "games" s.1.2))
    in Hloop; [by destruct Hloop| |].
  - intros s x s' [Hid' Hm'] Hstep.
    pose proof (copy_db_content_row_appends _ _ _ _ _ Hstep) as Happ.
    split.
    + by rewrite (appends_to_columns _ _ _ _ Happ).
    + by eapply copy_db_content_row_ids.
  - simpl. split; [done|apply ids_in_empty].
Qed.

(** *** The four copies in a row *)

Lemma closed_frame tname d d' :
  appends_to tname d d' → ref_closed d →
  (tname = "versions" → linked d' "versions" "game_id" "games") →
  (tname = "hashes" → linked d' "hashes" "version_id" "versions") →
  (tname = "config_files" → linked d' "config_files" "version_id" "versions") →
  ref_closed d'.
Proof.
  intros Happ (Hv & Hh & Hc) Hv' Hh' Hc'. split_and!.
  - destruct (decide (tname = "versions")); [by auto|by eapply linked_frame].
  - destruct (decide (tname = "hashes")); [by auto|by eapply linked_frame].
  - destruct (decide (tname = "config_files")); [by auto|by eapply linked_frame].
Qed.

Lemma copy_all_closed inp out :
  NoDup (get_table_columns inp "games") →
  "id" ∈ columns (table_of out "games") →
  "id" ∈ columns (table_of out "versions") →
  ref_closed out → ref_closed (copy_all inp out).2.
Proof.
  intros Hnd Hidg Hidv Hcl. unfold copy_all.
  destruct (copy_db_content inp out) as [[[out1 gm] r1]|e] eqn:H1; [|done].
  pose proof (copy_db_content_appends _ _ _ _ _ H1) as A1.
  pose proof (copy_db_content_ids _ _ _ _ _ Hnd Hidg H1) as Hgm.
  assert (ref_closed out1) as Hcl1 by (eapply closed_frame; done).
  destruct (copy_versions inp out1 gm) as [[[out2 vm] r2]|e] eqn:H2; [|done].
  pose proof (copy_versions_appends _ _ _ _ _ _ H2) as A2.
  destruct (copy_versions_linked _ _ _ _ _ _
              ltac:(by rewrite (appends_to_columns _ _ _ _ A1))
              Hgm (proj1 Hcl1) H2) as [Hl2 Hvm].
  assert (ref_closed out2) as Hcl2 by (eapply closed_frame; done).
  destruct (copy_table "hashes" inp out2 vm) as [[out3 r3]|e] eqn:H3; [|done].
  pose proof (copy_table_appends _ _ _ _ _ _ H3) as A3.
  pose proof (copy_table_linked "hashes" _ _ _ _ _ ltac:(done) Hvm (proj1 (proj2 Hcl2)) H3)
    as Hl3.
  assert (ref_closed out3) as Hcl3 by (eapply closed_frame; done).
  destruct (copy_table "config_files" inp out3 vm) as [[out4 r4]|e] eqn:H4; [|done].
  pose proof (copy_table_appends _ _ _ _ _ _ H4) as A4.
  assert (ids_in out3 "versions" vm) as Hvm3.
  { eapply ids_in_mono; [by eapply appends_to_extends|done]. }
  pose proof (copy_table_linked "config_files" _ _ _ _ _ ltac:(done) Hvm3 (proj2 (proj2 Hcl3)) H4)
    as Hl4.
  simpl. eapply closed_frame; done.
Qed.

(** *** main *)

(** X3: referential closure is kept.  When the columns of the input's
    games table are distinct, the output's games and versions tables
    have an [id] column, and in the output every version names the id
    of a game and every hash and configuration file names the id of a
    version, then the same holds of the output after the run, however
    the run ends. *)
Theorem import_keeps_references (inp out : db) :
  NoDup (get_table_columns inp "games") →
  "id" ∈ columns (table_of out "games") →
  "id" ∈ columns (table_of out "versions") →
  ref_closed out →
  ∃ out', (main inp (Some out)).2 = Some out' ∧ ref_closed out'.
Proof.
  intros Hnd Hg Hv Hcl. unfold main.
  destruct (get_database_version inp); simpl; [|by eauto].
  destruct (get_database_version out); simpl; [|by eauto].
  case_bool_decide; simpl; [by eauto|].
  pose proof (copy_all_closed inp out Hnd Hg Hv Hcl) as Hcl'.
  destruct (copy_all inp out) as [o out']. simpl in *. eauto.
Qed.

Lemma import_keeps_references_witness :
  ∃ out', (main source_db (Some target_db_3)).2 = Some out' ∧ ref_closed out'.
Proof.
  apply (import_keeps_references source_db target_db_3).
  - apply (bool_decide_unpack _). vm_compute. exact I.
  - apply (bool_decide_unpack _). vm_compute. exact I.
  - apply (bool_decide_unpack _). vm_compute. exact I.
  - split_and!; intros r Hr; vm_compute in Hr.
    + apply list_elem_of_singleton in Hr as ->.
      exists (game_row 8 "Alpha" 100), 8. split_and!.
      * apply (bool_decide_unpack _). vm_compute. exact I.
      * vm_compute. reflexivity.
      * vm_compute. reflexivity.
    + apply list_elem_of_singleton in Hr as ->.
      exists [SqlInt 1; SqlInt 8; SqlText "1.0"; SqlText "A.EXE"; SqlNull; SqlNull;
              SqlInt 0], 1.
      split_and!.
      * apply (bool_decide_unpack _). vm_compute. exact I.
      * vm_compute. reflexivity.
      * vm_compute. reflexivity.
    + by apply elem_of_nil in Hr.
Defined.

Lemma closed_fresh_database : ref_closed fresh_database.
Proof. split_and!; intros r Hr; vm_compute in Hr; by apply elem_of_nil in Hr. Qed.

(** X4: a run that creates its output file leaves a file in which
    every version names the id of a game and every hash and
    configuration file names the id of a version, however the run ends
    after the file was created. *)
Theorem import_into_new_file_closed (inp : db) (o : outcome) (out' : db) :
  NoDup (get_table_columns inp "games") →
  main inp None = (o, Some out') →
  ref_closed out'.
Proof.
  intros Hnd. unfold main.
  destruct (get_database_version inp); [|done].
  rewrite initialize_database_fresh.
  pose proof (copy_all_closed inp fresh_database Hnd) as Hcl.
  destruct (copy_all inp fresh_database) as [o1 out1]. simpl in Hcl.
  intros [= _ <-]. apply Hcl.
  - apply (bool_decide_unpack _). vm_compute. exact I.
  - apply (bool_decide_unpack _). vm_compute. exact I.
  - apply closed_fresh_database.
Qed.

Lemma import_into_new_file_closed_witness :
  ref_closed (copy_all source_db fresh_database).2.
Proof.
  apply (import_into_new_file_closed source_db Finished).
  - apply (bool_decide_unpack _). vm_compute. exact I.
  - vm_compute. reflexivity.
Defined.

(** ** copy_table inserts every row it selects *)

Lemma copy_table_loop_count tname cols icols idx (vm : gmap sqlval Z) (rs : list row) :
  ∀ (out out' : db) (n n' : nat),
  Forall (λ r : row, ∃ v, r !! idx = Some v ∧ is_Some (vm !! v)) rs →
  for_each (copy_table_row tname cols icols idx vm) (out, n) rs = Ok (out', n') →
  n' = (n + length rs)%nat ∧
  length (rows (table_of out' tname))
  = (length (rows (table_of out tname)) + length rs)%nat.
Proof.
  induction rs as [|r rs IH]; intros out out' n n' Hall Hrun.
  - simpl in Hrun. injection Hrun as <- <-. simpl. lia.
  - apply for_each_cons_Ok in Hrun as [[out1 n1] [Hstep Hrest]].
    apply Forall_cons in Hall as [(v & Hv & [nv Hnv]) Hall].
    destruct (IH _ _ _ _ Hall Hrest) as [-> Hlen]. rewrite Hlen.
    unfold copy_table_row, py_item in Hstep. rewrite Hv in Hstep. simpl in Hstep.
    rewrite Hnv in Hstep.
    apply bind_Ok in Hstep as (vals & _ & Hstep).
    apply bind_Ok in Hstep as ([out2 rowid] & Hins & Hstep).
    injection Hstep as <- <-.
    apply insert_Ok_inv in Hins as (t & Ht & ->).
    rewrite table_of_insert_eq, (table_of_Some _ _ _ Ht). cbn [rows length].
    rewrite length_app. simpl. lia.
Qed.

(** X5: on a source table whose [version_id] column holds integers or
    NULL, as its declaration says, and with a remap keyed by integers:
    whenever [copy_table] returns, the number of processed rows is the
    number of source rows whose [version_id] is a key of the remap, the
    number of inserted rows is the same, and the output table has grown
    by that number of rows.  The [continue] of the loop is not taken
    there, because the rows come from a SELECT that keeps only the rows
    whose [version_id] is a key. *)
Theorem copy_table_inserts_every_selected_row
    (table_name : string) (inp out out' : db) (tin : table) (vm : gmap sqlval Z)
    (rep : report) :
  inp !! table_name = Some tin →
  integer_keys vm →
  Forall (λ r : row, integer_or_null (field (columns tin) r "version_id")) (rows tin) →
  copy_table table_name inp out vm = Ok (out', rep) →
  processed rep = length (selected "version_id" (columns tin) vm (rows tin)) ∧
  inserted rep = processed rep ∧
  length (rows (table_of out' table_name))
  = (length (rows (table_of out table_name)) + processed rep)%nat.
Proof.
  intros Hin Hkeys _. unfold copy_table. intros Hrun.
  apply bind_Ok in Hrun as (rs & Hsel & Hrun).
  apply bind_Ok in Hrun as (idx & Hidx & Hrun). apply of_option_Ok in Hidx.
  apply bind_Ok in Hrun as ([out1 n1] & Hloop & Hrun). injection Hrun as <- <-.
  simpl.
  unfold select_where_in, find_table in Hsel. rewrite Hin in Hsel. simpl in Hsel.
  apply bind_Ok in Hsel as (j & Hj & Hsel). apply of_option_Ok in Hj.
  injection Hsel as <-.
  unfold get_table_columns in Hidx. rewrite Hin in Hidx.
  assert (j = idx) as -> by congruence.
  split.
  { unfold selected. f_equal. apply list_filter_iff. intros r.
    rewrite sql_in_keys by by apply integer_keys_not_null.
    unfold field. by rewrite Hidx. }
  eapply (copy_table_loop_count _ _ _ _ _ _ _ _ 0%nat); [|exact Hloop].
  apply Forall_forall. intros r [Hr _]%list_elem_of_filter.
  unfold sql_in in Hr. apply bool_decide_eq_true in Hr as [Hnull Hkey].
  apply elem_of_map_keys in Hkey.
  destruct (r !! idx) as [v|]; [|done]. eauto.
Qed.

Lemma copy_table_inserts_every_selected_row_witness :
  processed {| processed := 1; inserted := 1 |}
  = length (selected "version_id" (columns source_hashes) version_1_only
                     (rows source_hashes)) ∧
  inserted {| processed := 1; inserted := 1 |} = processed {| processed := 1; inserted := 1 |} ∧
  length (rows (table_of target_db_3 "hashes"))
  = (length (rows (table_of target_db_2 "hashes")) + 1)%nat.
Proof.
  apply (copy_table_inserts_every_selected_row "hashes" source_db target_db_2
           target_db_3 source_hashes version_1_only {| processed := 1; inserted := 1 |}).
  - vm_compute. reflexivity.
  - apply (bool_decide_unpack _). vm_compute. exact I.
  - apply (bool_decide_unpack _). vm_compute. exact I.
  - vm_compute. reflexivity.
Defined.

(** ** The games copy_db_content adds *)

Lemma copy_db_content_row_new cols id_idx (out out' : db) t
    (ex ex' : gset sqlval) (gm gm' : gmap sqlval Z) (n n' : nat) (r : row) :
  index_of "id" cols = Some id_idx →
  out !! "games" = Some t →
  "igdb_id" ∈ columns t →
  ex = list_to_set (igdb_ids t) →
  copy_db_content_row cols (without_index id_idx cols) (out, ex, gm, n) r
  = Ok (out', ex', gm', n') →
  ∃ t' new, out' !! "games" = Some t' ∧ columns t' = columns t ∧
            ex' = list_to_set (igdb_ids t') ∧
            igdb_ids t' = igdb_ids t ++ new ∧
            (∀ x, x ∈ new → x = field cols r "igdb_id").
Proof.
  intros Hid Ht Hcol Hex Hrow.
  destruct (copy_db_content_row_igdb _ _ _ _ _ _ _ _ _ _ _ _ Hid Ht Hcol Hex Hrow)
    as [(-> & -> & ->)|(t1 & x & Ht1 & Hc1 & Hids1 & Hx & Hex1 & ->)].
  - exists t, []. rewrite app_nil_r. split_and!; try done.
    intros x Hx. by apply elem_of_nil in Hx.
  - exists t1, [x]. split_and!; try done.
    intros y ->%list_elem_of_singleton.
    unfold copy_db_content_row in Hrow.
    apply bind_Ok in Hrow as (ig & Hig & Hrow). apply of_option_Ok in Hig.
    apply bind_Ok in Hrow as (x' & Hx' & Hrow). apply of_option_Ok in Hx'.
    unfold field. rewrite Hig, Hx'. simpl.
    case_bool_decide as Hmem.
    { exfalso. unfold mret, result_ret in Hrow.
      assert (n = S n) as Hn by congruence. lia. }
    apply bind_Ok in Hrow as (i & _ & Hrow).
    apply bind_Ok in Hrow as (iid & _ & Hrow).
    apply bind_Ok in Hrow as ([out2 rowid] & _ & Hrow).
    injection Hrow as _ Hex' _.
    assert (x ∈ ex') as Hy.
    { rewrite Hex1, Hids1. apply elem_of_list_to_set, elem_of_app. right. by left. }
    rewrite <- Hex' in Hy. apply elem_of_union in Hy as [Hy|Hy].
    + by apply elem_of_singleton in Hy.
    + exfalso. apply Hx. rewrite Hex in Hy. by apply elem_of_list_to_set in Hy.
Qed.

Lemma copy_db_content_loop_new cols id_idx (rs : list row) :
  ∀ (out out' : db) t (ex ex' : gset sqlval) (gm gm' : gmap sqlval Z) (n n' : nat),
  index_of "id" cols = Some id_idx →
  out !! "games" = Some t →
  "igdb_id" ∈ columns t →
  ex = list_to_set (igdb_ids t) →
  for_each (copy_db_content_row cols (without_index id_idx cols)) (out, ex, gm, n) rs
  = Ok (out', ex', gm', n') →
  ∃ t' new, out' !! "games" = Some t' ∧
            igdb_ids t' = igdb_ids t ++ new ∧
            (∀ x, x ∈ new → ∃ r, r ∈ rs ∧ x = field cols r "igdb_id").
Proof.
  induction rs as [|r rs IH]; intros out out' t ex ex' gm gm' n n' Hid Ht Hcol Hex Hrun.
  - simpl in Hrun. injection Hrun as <- _ _ _. exists t, [].
    rewrite app_nil_r. split_and!; try done.
    intros x Hx. by apply elem_of_nil in Hx.
  - apply for_each_cons_Ok in Hrun as [[[[out1 ex1] gm1] n1] [Hstep Hrest]].
    destruct (copy_db_content_row_new _ _ _ _ _ _ _ _ _ _ _ _ Hid Ht Hcol Hex Hstep)
      as (t1 & new1 & Ht1 & Hc1 & Hex1 & Hids1 & Hnew1).
    destruct (IH _ _ _ _ _ _ _ _ _ Hid Ht1 ltac:(by rewrite Hc1) Hex1 Hrest)
      as (t' & new & Ht' & Hids' & Hnew).
    exists t', (new1 ++ new). split_and!.
    + done.
    + by rewrite Hids', Hids1, <- app_assoc.
    + intros x [Hx|Hx]%elem_of_app.
      * exists r. split; [by left|by apply Hnew1].
      * destruct (Hnew x Hx) as (r' & Hr' & ->). exists r'. split; [by right|done].
Qed.

(** X6: when [copy_db_content] returns, the IGDB ids of the output's
    games are those it had, in their order, followed by new ones; the
    new ones are distinct and are exactly the IGDB ids of the input that
    the output did not have; the count of inserted rows is their number
    and the count of processed rows is the number of games of the
    input. *)
Theorem copy_db_content_adds_missing_games (inp out out' : db) (tin tout : table)
    (gm : gmap sqlval Z) (rep : report) :
  inp !! "games" = Some tin →
  out !! "games" = Some tout →
  copy_db_content inp out = Ok (out', gm, rep) →
  ∃ tout' new,
    out' !! "games" = Some tout' ∧
    igdb_ids tout' = igdb_ids tout ++ new ∧
    NoDup new ∧
    (∀ x, x ∈ new ↔ x ∈ igdb_ids tin ∧ x ∉ igdb_ids tout) ∧
    inserted rep = length new ∧
    processed rep = length (rows tin).
Proof.
  intros Hin Hout Hrun.
  destruct (copy_db_content_adds_no_duplicate inp out out' tout gm rep Hout Hrun)
    as (tout' & new & Hout' & Hids & Hnd & Hfresh & Hcount).
  exists tout', new. split_and!; try done.
  - unfold copy_db_content in Hrun.
    case_bool_decide as Higdb; [|done].
    apply bind_Ok in Hrun as (rs & Hrs & Hrun).
    apply bind_Ok in Hrun as (existing & Hex & Hrun).
    apply bind_Ok in Hrun as (id_idx & Hid & Hrun). apply of_option_Ok in Hid.
    apply bind_Ok in Hrun as ([[[out1 ex1] gm1] n1] & Hloop & Hrun).
    injection Hrun as <- <- <-.
    unfold select_all, find_table in Hrs. rewrite Hin in Hrs. simpl in Hrs.
    injection Hrs as <-.
    unfold get_table_columns in *. rewrite Hin in *.
    unfold select_column, find_table in Hex. rewrite Hout in Hex. simpl in Hex.
    apply bind_Ok in Hex as (j & Hj & Hex). apply of_option_Ok in Hj.
    injection Hex as <-.
    assert ("igdb_id" ∈ columns tout) as Hcol
      by (apply index_of_Some in Hj; by eapply list_elem_of_lookup_2).
    assert (list_to_set ((λ r : row, default SqlNull (r !! j)) <$> rows tout)
            = (list_to_set (igdb_ids tout) : gset sqlval)) as Hexeq
      by (unfold igdb_ids, field; by rewrite Hj).
    destruct (copy_db_content_loop_new _ _ _ _ _ tout _ _ _ _ _ _ Hid Hout Hcol Hexeq Hloop)
      as (t1 & new1 & Ht1 & Hids1 & Hnew1).
    destruct (copy_db_content_loop_seen _ _ _ _ _ tout _ _ _ _ _ _ Hid Hout Hcol Hexeq Hloop)
      as (t2 & Ht2 & _ & Hex2 & _ & Hseen).
    assert (t1 = tout') as -> by congruence.
    assert (t2 = tout') as -> by congruence.
    assert (new1 = new) as -> by (rewrite Hids in Hids1; by apply app_inv_head in Hids1).
    intros x. split.
    + intros Hx. split; [|by apply Hfresh].
      destruct (Hnew1 x Hx) as (r & Hr & ->).
      unfold igdb_ids. apply list_elem_of_fmap. by exists r.
    + intros [Hxin Hxout].
      apply list_elem_of_fmap in Hxin as (r & -> & Hr).
      destruct (Hseen r Hr) as (ig & y & Hig & Hy & Hmem).
      unfold field in *. rewrite Hig, Hy in *. simpl in *.
      rewrite Hex2, Hids in Hmem. apply elem_of_list_to_set in Hmem.
      apply elem_of_app in Hmem as [Hmem|Hmem]; [|done]. by destruct Hxout.
  - unfold copy_db_content in Hrun.
    case_bool_decide as Higdb; [|done].
    apply bind_Ok in Hrun as (rs & Hrs & Hrun).
    apply bind_Ok in Hrun as (existing & Hex & Hrun).
    apply bind_Ok in Hrun as (id_idx & Hid & Hrun).
    apply bind_Ok in Hrun as ([[[out1 ex1] gm1] n1] & Hloop & Hrun).
    injection Hrun as <- <- <-. simpl.
    unfold select_all, find_table in Hrs. rewrite Hin in Hrs. simpl in Hrs.
    by injection Hrs as <-.
Qed.

Lemma copy_db_content_adds_missing_games_witness :
  ∃ tout' new,
    target_db_1 !! "games" = Some tout' ∧
    igdb_ids tout' = igdb_ids target_games ++ new ∧
    NoDup new ∧
    (∀ x, x ∈ new ↔ x ∈ igdb_ids source_games ∧ x ∉ igdb_ids target_games) ∧
    inserted {| processed := 2; inserted := 1 |} = length new ∧
    processed {| processed := 2; inserted := 1 |} = length (rows source_games).
Proof.
  apply (copy_db_content_adds_missing_games source_db target_db target_db_1
           source_games target_games game_1_only).
  - vm_compute. reflexivity.
  - vm_compute. reflexivity.
  - vm_compute. reflexivity.
Defined.

(** ** An input without the igdb_id column *)

(** X8: when the versions of the two files agree and the input's games
    table has no [igdb_id] column (or the input has no games table, for
    which PRAGMA table_info lists no column), the run reports the
    ValueError of [copy_db_content] and the output file is as it was. *)
Theorem main_reports_missing_igdb_id_column (inp out : db) (v : sqlval) :
  get_database_version inp = Ok v →
  get_database_version out = Ok v →
  "igdb_id" ∉ get_table_columns inp "games" →
  main inp (Some out)
  = (Reported (ValueError
       "Input database 'games' table does not have an 'igdb_id' column."),
     Some out).
Proof.
  intros Hin Hout Hcol. unfold main. rewrite Hin, Hout.
  rewrite bool_decide_eq_false_2 by (intros H; by apply H).
  unfold copy_all, copy_db_content. by rewrite bool_decide_eq_false_2.
Qed.

Lemma main_reports_missing_igdb_id_column_witness :
  main legacy_db (Some target_db)
  = (Reported (ValueError
       "Input database 'games' table does not have an 'igdb_id' column."),
     Some target_db).
Proof.
  apply (main_reports_missing_igdb_id_column legacy_db target_db (SqlText "0.5.0")).
  - vm_compute. reflexivity.
  - vm_compute. reflexivity.
  - apply (bool_decide_unpack _). vm_compute. exact I.
Defined.

(** ** The games the remap names are copies *)

Lemma remap_sound_mono src d d' tname m :
  db_extends d d' → remap_sound src d tname m → remap_sound src d' tname m.
Proof.
  intros Hext Hm k v Hkv. destruct (Hm k v Hkv) as (r & p & Hr & Hk & Hp & Hid & Hcopy).
  destruct (table_of_extends _ _ tname Hext) as [Hc [l Hrows]].
  exists r, p. rewrite Hc, Hrows. split_and!; try done.
  apply elem_of_app. by left.
Qed.

Lemma copy_db_content_row_sound (src : table) id_idx st st' (r : row) :
  NoDup (columns src) → index_of "id" (columns src) = Some id_idx →
  r ∈ rows src →
  "id" ∈ columns (table_of st.1.1.1 "games") →
  remap_sound src st.1.1.1 "games" st.1.2 →
  copy_db_content_row (columns src) (without_index id_idx (columns src)) st r = Ok st' →
  remap_sound src st'.1.1.1 "games" st'.1.2.
Proof.
  destruct st as [[[out ex] m] n]. simpl. intros Hnd Hidx Hr Hid Hm Hrow.
  unfold copy_db_content_row in Hrow.
  apply bind_Ok in Hrow as (ig & _ & Hrow).
  apply bind_Ok in Hrow as (x & _ & Hrow).
  case_bool_decide.
  { by injection Hrow as <-. }
  apply bind_Ok in Hrow as (i & Hi & Hrow). apply of_option_Ok in Hi.
  assert (i = id_idx) as -> by congruence.
  apply bind_Ok in Hrow as (iid & Hiid & Hrow). apply of_option_Ok in Hiid.
  apply bind_Ok in Hrow as ([out1 rowid] & Hins & Hrow).
  injection Hrow as <-. simpl.
  pose proof (insert_appends _ _ _ _ _ _ Hins) as Happ.
  apply insert_Ok_fields in Hins as (t & nr & Ht & Hd' & Hfields & Hrowid).
  rewrite (table_of_Some _ _ _ Ht) in Hid.
  intros k v Hkv. destruct (decide (k = iid)) as [->|Hne].
  - rewrite lookup_insert_eq in Hkv. injection Hkv as <-.
    exists r, nr. rewrite Hd', table_of_insert_eq. cbn [rows columns]. split_and!.
    + done.
    + unfold field. by rewrite Hidx, Hiid.
    + apply elem_of_app. right. by apply list_elem_of_singleton.
    + apply Hrowid; [done|]. by apply index_of_without_index_None.
    + intros c Hc Hcid.
      destruct (index_of_is_Some _ _ Hc) as [j Hj].
      assert (j ≠ id_idx) as Hjne.
      { intros ->. apply index_of_Some in Hj, Hidx. congruence. }
      rewrite (Hfields c _ (index_of_without_index _ _ _ _ Hj Hjne)).
      rewrite lookup_without_index; [|done|by eapply lookup_lt_Some].
      unfold field. by rewrite Hj.
  - rewrite lookup_insert_ne in Hkv by done.
    eapply remap_sound_mono; [by eapply appends_to_extends|done..].
Qed.

(** X7: when [copy_db_content] returns, each pair of the game remap
    sends the [id] of a game of the input to the [id] of a row of the
    output's games table, and that row holds what the input's row holds
    in every column but [id].  (The columns of the input's games table
    are distinct and the output's games table has an [id] column.) *)
Theorem copy_db_content_remap_names_copies (inp out out' : db) (src : table)
    (gm : gmap sqlval Z) (rep : report) :
  inp !! "games" = Some src →
  NoDup (columns src) →
  "id" ∈ columns (table_of out "games") →
  copy_db_content inp out = Ok (out', gm, rep) →
  remap_sound src out' "games" gm.
Proof.
  intros Hin Hnd Hid Hrun. unfold copy_db_content in Hrun.
  unfold get_table_columns, select_all, find_table in Hrun. rewrite Hin in Hrun.
  case_bool_decide; [|done]. simpl in Hrun.
  apply bind_Ok in Hrun as (ex & _ & Hrun).
  apply bind_Ok in Hrun as (idx & Hidx & Hrun). apply of_option_Ok in Hidx.
  apply bind_Ok in Hrun as ([[[out1 ex1] m1] n1] & Hloop & Hrun).
  injection Hrun as <- <- _.
  assert (∀ rs : list row, (∀ r, r ∈ rs → r ∈ rows src) →
    ∀ s s', ("id" ∈ columns (table_of s.1.1.1 "games") ∧
             remap_sound src s.1.1.1 "games" s.1.2) →
      for_each (copy_db_content_row (columns src) (without_index idx (columns src)))
        s rs = Ok s' →
      remap_sound src s'.1.1.1 "games" s'.1.2) as Hind.
  { induction rs as [|r rs IH]; intros Hsub s s' [Hid' Hm'] Hfe.
    - simpl in Hfe. by injection Hfe as <-.
    - apply for_each_cons_Ok in Hfe as (s1 & Hstep & Hrest).
      apply (IH ltac:(intros; apply Hsub; by right) s1 s'); [|done].
      pose proof (copy_db_content_row_appends _ _ _ _ _ Hstep) as Happ.
      split; [by rewrite (appends_to_columns _ _ _ _ Happ)|].
      eapply copy_db_content_row_sound; [done|done| |done..].
      apply Hsub. by left. }
  apply (Hind (rows src) ltac:(done) _ _) in Hloop; [done|].
  simpl. split; [done|]. intros k v Hkv. by rewrite lookup_empty in Hkv.
Qed.

Lemma copy_db_content_remap_names_copies_witness :
  remap_sound source_games target_db_1 "games" game_1_only.
Proof.
  apply (copy_db_content_remap_names_copies source_db target_db target_db_1
           source_games game_1_only {| processed := 2; inserted := 1 |}).
  - vm_compute. reflexivity.
  - apply (bool_decide_unpack _). vm_compute. exact I.
  - apply (bool_decide_unpack _). vm_compute. exact I.
  - vm_compute. reflexivity.
Defined.

(** ** initialize_database *)

Lemma create_lookup_ne (d : db) tname cols other :
  other ≠ tname → create_table_if_not_exists d tname cols !! other = d !! other.
Proof.
  intros Hne. unfold create_table_if_not_exists.
  destruct (d !! tname); [done|]. by rewrite lookup_insert_ne.
Qed.

Lemma create_lookup_eq (d : db) tname cols :
  create_table_if_not_exists d tname cols !! tname
  = Some (default {| columns := cols; rows := []; seq := 0 |} (d !! tname)).
Proof.
  unfold create_table_if_not_exists.
  destruct (d !! tname) as [t|] eqn:Ht; [by rewrite Ht|]. by rewrite lookup_insert_eq.
Qed.

Lemma create_keeps (d : db) tname cols other t :
  d !! other = Some t → create_table_if_not_exists d tname cols !! other = Some t.
Proof.
  intros Ht. destruct (decide (other = tname)) as [->|Hne].
  - by rewrite create_lookup_eq, Ht.
  - by rewrite create_lookup_ne.
Qed.

Lemma create_noop (d : db) tname cols :
  is_Some (d !! tname) → create_table_if_not_exists d tname cols = d.
Proof. intros [t Ht]. unfold create_table_if_not_exists. by rewrite Ht. Qed.

(** The database the six CREATE TABLE IF NOT EXISTS statements leave. *)
Lemma initialize_database_Ok (d d' : db) :
  initialize_database d = Ok d' →
  ∃ d0 t nr,
    (∀ tname t0, d !! tname = Some t0 → d0 !! tname = Some t0) ∧
    (∀ tname, tname ∈ ["games"; "versions"; "hashes"; "local_versions";
                       "config_files"; "db_version"] → is_Some (d0 !! tname)) ∧
    (∀ tname, tname ∉ ["games"; "versions"; "hashes"; "local_versions";
                       "config_files"; "db_version"] → d0 !! tname = d !! tname) ∧
    d0 !! "db_version"
    = Some (default {| columns := ["id"; "version"]; rows := []; seq := 0 |}
                    (d !! "db_version")) ∧
    d0 !! "db_version" = Some t ∧
    "version" ∈ columns t ∧
    field (columns t) nr "version" = SqlText DB_VERSION ∧
    d' = <["db_version" := {| columns := columns t; rows := rows t ++ [nr];
                              seq := Z.max (seq t) (seq t + 1) |}]> d0.
Proof.
  unfold initialize_database.
  set (d0 := create_table_if_not_exists _ "db_version" _).
  intros Hrun. apply bind_Ok in Hrun as ([d1 rowid] & Hins & Hrun).
  injection Hrun as <-.
  assert (∀ tname t0, d !! tname = Some t0 → d0 !! tname = Some t0) as Hkeep.
  { intros tname t0 Ht. unfold d0. by do 6 apply create_keeps. }
  assert (d0 !! "db_version"
          = Some (default {| columns := ["id"; "version"]; rows := []; seq := 0 |}
                          (d !! "db_version"))) as Hv.
  { unfold d0. rewrite create_lookup_eq. by rewrite !create_lookup_ne. }
  assert (rowid = match d0 !! "db_version" with Some t => seq t + 1 | None => 0 end)
    as Hrowid.
  { unfold insert, find_table in Hins. destruct (d0 !! "db_version"); [|done].
    simpl in Hins. repeat case_bool_decide; simpl in Hins; try done.
    by injection Hins as _ <-. }
  pose proof Hins as Hins'.
  apply insert_Ok_fields in Hins as (t & nr & Ht & Hd1 & Hfields & _).
  rewrite Ht in Hrowid. subst rowid.
  exists d0, t, nr. split_and!; try done.
  - intros tname Hin. unfold d0.
    repeat (apply elem_of_cons in Hin as [->|Hin];
            [eapply (mk_is_Some _ _); repeat (rewrite create_lookup_ne by done);
             apply create_lookup_eq|]).
    by apply elem_of_nil in Hin.
  - intros tname Hnot. unfold d0. rewrite !not_elem_of_cons in Hnot.
    rewrite !create_lookup_ne by tauto. done.
  - unfold insert, find_table in Hins'. rewrite Ht in Hins'. simpl in Hins'.
    case_bool_decide as Hcols; [|done].
    apply Forall_cons in Hcols as [Hc _]. exact Hc.
  - by rewrite (Hfields "version" 0%nat eq_refl).
Qed.

Lemma initialize_database_returns (d : db) :
  (∀ t, d !! "db_version" = Some t → "version" ∈ columns t) →
  ∃ d', initialize_database d = Ok d'.
Proof.
  intros Hcol. unfold initialize_database.
  set (d0 := create_table_if_not_exists _ "db_version" _).
  assert (d0 !! "db_version"
          = Some (default {| columns := ["id"; "version"]; rows := []; seq := 0 |}
                          (d !! "db_version"))) as Hv.
  { unfold d0. rewrite create_lookup_eq. by rewrite !create_lookup_ne. }
  unfold insert, find_table. rewrite Hv. simpl.
  rewrite bool_decide_eq_true_2.
  - simpl. eauto.
  - apply Forall_cons. split; [|by apply Forall_nil].
    destruct (d !! "db_version") as [t|]; simpl; [by apply Hcol|].
    apply (bool_decide_unpack _). vm_compute. exact I.
Qed.

(** X9: on a database without a db_version table [initialize_database]
    returns a database whose version reads DB_VERSION, that has the six
    tables of the schema, and in which every table that was there is
    unchanged: CREATE TABLE IF NOT EXISTS leaves an existing table as
    it is, whatever its columns are. *)
Theorem initialize_database_keeps_tables (d : db) :
  d !! "db_version" = None →
  ∃ d', initialize_database d = Ok d' ∧
        get_database_version d' = Ok (SqlText DB_VERSION) ∧
        (∀ tname t, d !! tname = Some t → d' !! tname = Some t) ∧
        (∀ tname, tname ∈ ["games"; "versions"; "hashes"; "local_versions";
                           "config_files"; "db_version"] → is_Some (d' !! tname)).
Proof.
  intros Hnone.
  destruct (initialize_database_returns d) as [d' Hrun].
  { intros t Ht. congruence. }
  exists d'. split; [done|].
  apply initialize_database_Ok in Hrun
    as (d0 & t & nr & Hkeep & Hall & _ & Hv & Ht & Hcol & Hnr & ->).
  rewrite Hnone in Hv. simpl in Hv. assert (t = {| columns := ["id"; "version"];
    rows := []; seq := 0 |}) as -> by congruence.
  split_and!.
  - unfold get_database_version, select_column, find_table.
    rewrite lookup_insert_eq. simpl.
    unfold field in Hnr. simpl in Hnr. by rewrite Hnr.
  - intros tname t0 Ht0. rewrite lookup_insert_ne; [by apply Hkeep|].
    intros <-. congruence.
  - intros tname Hin. destruct (decide (tname = "db_version")) as [->|Hne].
    + by rewrite lookup_insert_eq.
    + rewrite lookup_insert_ne by done. by apply Hall.
Qed.

Lemma initialize_database_keeps_tables_witness :
  ∃ d', initialize_database {["games" := target_games]} = Ok d' ∧
        get_database_version d' = Ok (SqlText DB_VERSION) ∧
        (∀ tname t, ({["games" := target_games]} : db) !! tname = Some t →
                    d' !! tname = Some t) ∧
        (∀ tname, tname ∈ ["games"; "versions"; "hashes"; "local_versions";
                           "config_files"; "db_version"] → is_Some (d' !! tname)).
Proof.
  apply (initialize_database_keeps_tables {["games" := target_games]}).
  vm_compute. reflexivity.
Defined.

(** X10: [initialize_database] on a database it has initialised
    returns again, leaves every table but db_version as it is and the
    version that [get_database_version] reads as it is, and adds one
    more row to db_version: the INSERT is not guarded. *)
Theorem initialize_database_again_adds_version_row (d d1 : db) :
  initialize_database d = Ok d1 →
  ∃ d2, initialize_database d1 = Ok d2 ∧
        get_database_version d2 = get_database_version d1 ∧
        (∀ tname, tname ≠ "db_version" → d2 !! tname = d1 !! tname) ∧
        length (rows (table_of d2 "db_version"))
        = S (length (rows (table_of d1 "db_version"))).
Proof.
  intros Hrun.
  apply initialize_database_Ok in Hrun
    as (d0 & t & nr & _ & Hall & _ & _ & Ht & Hcol & Hnr & ->).
  set (t1 := {| columns := columns t; rows := rows t ++ [nr];
                seq := Z.max (seq t) (seq t + 1) |}).
  destruct (initialize_database_returns (<["db_version" := t1]> d0)) as [d2 Hrun2].
  { intros t' Ht'. rewrite lookup_insert_eq in Ht'. by injection Ht' as <-. }
  exists d2. split; [done|].
  apply initialize_database_Ok in Hrun2
    as (d0' & t' & nr' & Hkeep' & _ & Hrest' & Hv' & Ht' & _ & _ & ->).
  rewrite lookup_insert_eq in Hv'. simpl in Hv'.
  assert (t' = t1) as -> by congruence.
  assert (∀ tname, tname ≠ "db_version" →
            d0' !! tname = (<["db_version" := t1]> d0) !! tname) as Hsame.
  { intros tname Hne.
    destruct (decide (tname ∈ ["games"; "versions"; "hashes"; "local_versions";
                               "config_files"; "db_version"])) as [Hin|Hnot];
      [|by apply Hrest'].
    destruct (Hall tname Hin) as [t0 Ht0].
    rewrite lookup_insert_ne by done. rewrite Ht0. apply Hkeep'.
    by rewrite lookup_insert_ne. }
  split_and!.
  - unfold get_database_version, select_column, find_table.
    rewrite !lookup_insert_eq. simpl.
    destruct (index_of "version" (columns t)); simpl; [|done].
    rewrite !fmap_app. simpl. destruct (rows t); done.
  - intros tname Hne. rewrite lookup_insert_ne by done. by apply Hsame.
  - rewrite !table_of_insert_eq. simpl. rewrite !length_app. simpl. lia.
Qed.

Lemma initialize_database_again_adds_version_row_witness :
  ∃ d2, initialize_database fresh_database = Ok d2 ∧
        get_database_version d2 = get_database_version fresh_database ∧
        (∀ tname, tname ≠ "db_version" → d2 !! tname = fresh_database !! tname) ∧
        length (rows (table_of d2 "db_version"))
        = S (length (rows (table_of fresh_database "db_version"))).
Proof.
  apply (initialize_database_again_adds_version_row ∅ fresh_database).
  vm_compute. reflexivity.
Defined.

End ImportInvariants.

Module MergeInvariants.
Import MergeSubmission MergeSpec PyFacts LoopFacts MergeProps.

(** ** Two submissions, one after the other *)

Lemma merge_version_count_shift k (G : gmap pykey game) n x :
  merge_version k (G, n) x
  = match merge_version k (G, 0%nat) x with
    | Ok (G', m) => Ok (G', (n + m)%nat)
    | Raise e => Raise e
    end.
Proof.
  destruct x as [nm v]. unfold merge_version.
  destruct (G !! k) as [g|]; simpl; [|done].
  destruct (versions g !! nm) as [e|]; simpl.
  - destruct (hashes e); simpl; [|done]. by rewrite Nat.add_0_r.
  - by rewrite Nat.add_1_r.
Qed.

Lemma merge_game_count_shift (G : gmap pykey game) n x :
  merge_game (G, n) x
  = match merge_game (G, 0%nat) x with
    | Ok (G', m) => Ok (G', (n + m)%nat)
    | Raise e => Raise e
    end.
Proof.
  destruct x as [k g]. unfold merge_game.
  destruct (py_int k) as [z|]; simpl; [|done].
  apply for_each_count_shift. intros. apply merge_version_count_shift.
Qed.

(** X16: merging a submission whose games are those of a first
    submission followed by those of a second is merging the first and
    then the second into the result: the same catalog, the sum of the
    two counts, or the same exception. *)
Theorem merge_into_global_in_two_steps (db : global_db) (gs1 gs2 : list (string * sub_game)) :
  merge_into_global db {| sub_games := gs1 ++ gs2 |}
  = merge_both db {| sub_games := gs1 |} {| sub_games := gs2 |}.
Proof.
  unfold merge_both, merge_into_global. simpl. rewrite for_each_app.
  destruct (for_each merge_game (default ∅ (games db), 0%nat) gs1) as [[G1 n1]|e];
    simpl; [|done].
  rewrite (for_each_count_shift merge_game gs2 merge_game_count_shift G1 n1).
  by destruct (for_each merge_game (G1, 0%nat) gs2) as [[G2 n2]|e].
Qed.

(** ** What the merge keeps *)










(** ** A merge that cannot fail *)

Lemma all_hashed_cell (G : gmap pykey game) :
  all_hashed G ↔ ∀ key nm e, cell G key nm = Some e → is_Some (hashes e).
Proof.
  unfold all_hashed, cell. split.
  - intros Hall key nm e Hcell.
    destruct (G !! key) as [g|] eqn:Hg; simpl in Hcell; [|done].
    exact (Hall key g Hg nm e Hcell).
  - intros Hall key g Hg nm e He. apply (Hall key nm e). by rewrite Hg.
Qed.

Lemma merge_version_hashed k (G : gmap pykey game) n nm v :
  is_Some (G !! k) → all_hashed G → is_Some (hashes v) →
  ∃ G' n', merge_version k (G, n) (nm, v) = Ok (G', n') ∧
           is_Some (G' !! k) ∧ all_hashed G'.
Proof.
  intros [g Hg] Hall Hv.
  assert (∃ G' n', merge_version k (G, n) (nm, v) = Ok (G', n')) as (G' & n' & Hstep).
  { unfold merge_version. rewrite Hg. simpl.
    destruct (versions g !! nm) as [e|] eqn:He; simpl; [|by eauto].
    destruct (proj1 (all_hashed_cell G) Hall k nm e) as [h Hh].
    { unfold cell. by rewrite Hg. }
    rewrite Hh. simpl. eauto. }
  exists G', n'. split; [done|]. split.
  { by eapply merge_version_game_kept. }
  apply all_hashed_cell. intros key nm' e Hcell.
  destruct (decide ((key, nm') = (k, nm))) as [[= -> ->]|Hne].
  - destruct (merge_version_cell _ _ _ _ _ _ _ Hstep) as (Hnew & _ & _).
    rewrite Hnew in Hcell. injection Hcell as <-.
    destruct (cell G k nm); simpl; [eauto|done].
  - rewrite (merge_version_other_cell _ _ _ _ _ _ _ Hstep) in Hcell by done.
    by eapply (proj1 (all_hashed_cell G)).
Qed.

Lemma merge_versions_hashed k vs : ∀ (G : gmap pykey game) n,
  is_Some (G !! k) → all_hashed G →
  Forall (λ nv : string * version, is_Some (hashes nv.2)) vs →
  ∃ G' n', for_each (merge_version k) (G, n) vs = Ok (G', n') ∧ all_hashed G'.
Proof.
  induction vs as [|[nm v] vs IH]; intros G n Hk Hall Hvs.
  - exists G, n. by split.
  - apply Forall_cons in Hvs as [Hv Hvs].
    destruct (merge_version_hashed k G n nm v Hk Hall Hv) as (G1 & n1 & Hstep & Hk1 & Hall1).
    destruct (IH G1 n1 Hk1 Hall1 Hvs) as (G' & n' & Hrest & Hall').
    exists G', n'. split; [|done]. by rewrite (for_each_cons_step _ _ _ _ _ Hstep).
Qed.

Lemma merge_games_hashed gs : ∀ (G : gmap pykey game) n,
  Forall (λ kg : string * sub_game, is_Some (py_int kg.1)) gs →
  all_hashed G →
  Forall (λ e : string * string * version, is_Some (hashes e.2)) (entries_of gs) →
  ∃ G' n', for_each merge_game (G, n) gs = Ok (G', n') ∧ all_hashed G'.
Proof.
  induction gs as [|[k g] gs IH]; intros G n Hkeys Hall Hes.
  - exists G, n. by split.
  - apply Forall_cons in Hkeys as [[z Hz] Hkeys]. simpl in Hz.
    rewrite entries_of_cons in Hes. apply Forall_app in Hes as [Hvs Hes].
    destruct (merge_versions_hashed (KInt z) (sub_versions g)
                (match G !! KInt z with Some _ => G | None => <[KInt z := Game ∅]> G end) n)
      as (G1 & n1 & Hstep & Hall1).
    + apply ensure_game_is_Some.
    + apply all_hashed_cell. intros key nm e. rewrite cell_ensure_game.
      by apply (proj1 (all_hashed_cell G)).
    + apply Forall_forall. intros [nm v] Hin.
      apply (proj1 (Forall_forall _ _) Hvs (k, nm, v)).
      apply list_elem_of_fmap. by exists (nm, v).
    + destruct (IH G1 n1 Hkeys Hall1 Hes) as (G' & n' & Hrest & Hall').
      exists G', n'. split; [|done].
      rewrite (for_each_cons_step _ _ (G1, n1)); [done|].
      unfold merge_game. rewrite Hz. exact Hstep.
Qed.

(** X13: a merge of documents in which every version has a hashes field
    cannot fail on a record.  When [int] takes every game key of the
    submission, every version record of the catalog has a hashes field
    and so has every submitted version, [merge_into_global] returns,
    whatever versions the submission repeats, and every version record
    of the catalog it leaves has a hashes field again.  No game is ever
    missing for its versions: the game entry is made before they are
    looked at. *)
Theorem merge_into_global_returns_when_hashes_present
    (db : global_db) (sub : submission) :
  Forall (λ kg : string * sub_game, is_Some (py_int kg.1)) (sub_games sub) →
  all_hashed (catalog db) →
  Forall (λ e : string * string * version, is_Some (hashes e.2))
         (entries_of (sub_games sub)) →
  ∃ db' n, merge_into_global db sub = Ok (db', n) ∧ all_hashed (catalog db').
Proof.
  intros Hkeys Hall Hes.
  destruct (merge_games_hashed (sub_games sub) (catalog db) 0%nat Hkeys Hall Hes)
    as (G' & n' & Hrun & Hall').
  unfold merge_into_global. fold (catalog db). rewrite Hrun. simpl.
  eexists _, _. split; [done|]. exact Hall'.
Qed.

Lemma merge_into_global_returns_when_hashes_present_witness :
  ∃ db' n, merge_into_global merged_catalog sample_submission = Ok (db', n) ∧
           all_hashed (catalog db').
Proof.
  apply (merge_into_global_returns_when_hashes_present merged_catalog sample_submission).
  - constructor; [|constructor]. exists 123. vm_compute. reflexivity.
  - apply (bool_decide_unpack _). vm_compute. exact I.
  - apply (bool_decide_unpack _). vm_compute. exact I.
Defined.

(** ** When the merge returns *)

Lemma merge_into_global_Ok_mergeable (db db' : global_db) (sub : submission) (n : nat) :
  NoDup (entry_cell <$> entries_of (sub_games sub)) →
  merge_into_global db sub = Ok (db', n) →
  mergeable (catalog db) (sub_games sub).
Proof.
  intros Hnd Hrun. apply merge_into_global_Ok in Hrun as [Hloop _].
  destruct (merge_games_keys _ _ _ _ _ Hloop) as [_ Hkeys].
  destruct (merge_games_spec _ _ _ _ _ Hloop Hnd) as (_ & _ & _ & Hcells & _).
  split_and!; [|done|].
  - apply Forall_forall. intros [k g] Hin.
    destruct (Hkeys k g Hin) as (z & Hz & _). simpl. eauto.
  - apply Forall_forall. intros [[k nm] v] Hin.
    pose proof Hin as (g & Hg & _)%elem_of_entries_of.
    destruct (Hkeys k g Hg) as (z & Hz & _).
    destruct (Hcells k nm v z Hin Hz) as [_ Hready].
    unfold hashes_ready. simpl. rewrite Hz.
    destruct (cell (catalog db) (KInt z) nm) as [e|]; [|done]. by apply Hready.
Qed.

(** X12: for a submission whose game keys [int] takes and in which no
    two versions go to the same game id and version name, the merge
    returns exactly when every record that a submitted version meets in
    the catalog, under the integer of its game key and its version
    name, has a hashes field.  (The documents are of the format of the
    catalog: a games object whose games have a versions object.) *)
Theorem merge_into_global_returns_iff (db : global_db) (sub : submission) :
  Forall (λ kg : string * sub_game, is_Some (py_int kg.1)) (sub_games sub) →
  NoDup (entry_cell <$> entries_of (sub_games sub)) →
  (∃ db' n, merge_into_global db sub = Ok (db', n)) ↔
  ∀ k nm v z e, (k, nm, v) ∈ entries_of (sub_games sub) → py_int k = Some z →
                db_cell db (KInt z) nm = Some e → is_Some (hashes e).
Proof.
  intros Hkeys Hnd. split.
  - intros (db' & n & Hrun) k nm v z e Hin Hz Hcell.
    destruct (merge_into_global_Ok_mergeable _ _ _ _ Hnd Hrun) as (_ & _ & Hready).
    pose proof (proj1 (Forall_forall _ _) Hready (k, nm, v) Hin) as Hr.
    unfold hashes_ready in Hr. simpl in Hr. rewrite Hz in Hr.
    unfold db_cell in Hcell. by rewrite Hcell in Hr.
  - intros Hall. apply merge_into_global_succeeds. split_and!; [done..|].
    apply Forall_forall. intros [[k nm] v] Hin.
    pose proof Hin as (g & Hg & _)%elem_of_entries_of.
    destruct (proj1 (Forall_forall _ _) Hkeys (k, g) Hg) as [z Hz]. simpl in Hz.
    unfold hashes_ready. simpl. rewrite Hz.
    destruct (cell (catalog db) (KInt z) nm) as [e|] eqn:He; [|done].
    by apply (Hall k nm v z e).
Qed.

Lemma merge_into_global_returns_iff_witness :
  (∃ db' n, merge_into_global merged_catalog sample_submission = Ok (db', n)) ↔
  ∀ k nm v z e, (k, nm, v) ∈ entries_of (sub_games sample_submission) →
                py_int k = Some z →
                db_cell merged_catalog (KInt z) nm = Some e → is_Some (hashes e).
Proof.
  apply (merge_into_global_returns_iff merged_catalog sample_submission).
  - constructor; [|constructor]. exists 123. vm_compute. reflexivity.
  - apply (bool_decide_unpack _). vm_compute. exact I.
Defined.

(** ** Merging a submission again *)

(** X14: when a merge returned, merging the same submission into its
    result returns that result unchanged and counts no new version,
    provided no two submitted versions go to the same game id and
    version name and each version that was new has a hashes field. *)
Theorem merge_again_changes_nothing (db db' : global_db) (sub : submission) (n : nat) :
  NoDup (entry_cell <$> entries_of (sub_games sub)) →
  (∀ k nm v, (k, nm, v) ∈ entries_of (sub_games sub) →
     is_new (catalog db) (k, nm, v) → is_Some (hashes v)) →
  merge_into_global db sub = Ok (db', n) →
  merge_into_global db' sub = Ok (db', 0%nat).
Proof.
  intros Hnd Hnew Hrun.
  destruct (merge_into_global_idempotent_with_hashes db sub) as (db1 & n1 & H1 & H2).
  - by eapply merge_into_global_Ok_mergeable.
  - done.
  - rewrite Hrun in H1. by injection H1 as <- <-.
Qed.

Lemma merge_again_changes_nothing_witness :
  merge_into_global sample_merged sample_submission = Ok (sample_merged, 0%nat).
Proof.
  apply (merge_again_changes_nothing merged_catalog sample_merged sample_submission 1%nat).
  - apply (bool_decide_unpack _). vm_compute. exact I.
  - assert (Forall (λ e : string * string * version, is_Some (hashes e.2))
              (entries_of (sub_games sample_submission))) as Hall
      by (apply (bool_decide_unpack _); vm_compute; exact I).
    intros k nm v Hin _. exact (proj1 (Forall_forall _ _) Hall (k, nm, v) Hin).
  - vm_compute. reflexivity.
Defined.

(** ** A catalog as json.loads returns it *)

Lemma length_filter_all {A} (P : A → Prop) `{∀ x, Decision (P x)} (l : list A) :
  Forall P l → length (filter P l) = length l.
Proof.
  induction 1 as [|x l Hx _ IH]; [done|].
  rewrite filter_cons_True by done. simpl. by rewrite IH.
Qed.

(** X15: on a catalog whose game keys are all strings, as [json.loads]
    returns it, no submitted version meets a record: the merge returns,
    counts every submitted version as new and stores it as it is under
    the integer key, and leaves every game under a string key as it
    was.  (Game keys that are integer literals, no two versions for
    the same game id and version name.) *)
Theorem merge_into_loaded_catalog_adds_everything (db : global_db) (sub : submission) :
  (∀ z, catalog db !! KInt z = None) →
  Forall (λ kg : string * sub_game, is_Some (py_int kg.1)) (sub_games sub) →
  NoDup (entry_cell <$> entries_of (sub_games sub)) →
  ∃ db' n,
    merge_into_global db sub = Ok (db', n) ∧
    n = length (entries_of (sub_games sub)) ∧
    (∀ s, catalog db' !! KStr s = catalog db !! KStr s) ∧
    (∀ k nm v z, (k, nm, v) ∈ entries_of (sub_games sub) → py_int k = Some z →
       db_cell db' (KInt z) nm = Some v).
Proof.
  intros Hstr Hkeys Hnd.
  assert (∀ z nm, cell (catalog db) (KInt z) nm = None) as Hcell.
  { intros z nm. unfold cell. by rewrite Hstr. }
  assert (Forall (is_new (catalog db)) (entries_of (sub_games sub))) as Hnew.
  { apply Forall_forall. intros [[k nm] v] (g & Hg & _)%elem_of_entries_of.
    destruct (proj1 (Forall_forall _ _) Hkeys (k, g) Hg) as [z Hz]. simpl in Hz.
    unfold is_new. simpl. by rewrite Hz. }
  destruct (merge_into_global_succeeds db sub) as (db' & n & Hrun).
  { split_and!; [done..|]. apply Forall_forall. intros e He.
    pose proof (proj1 (Forall_forall _ _) Hnew e He) as Hn.
    unfold is_new in Hn. unfold hashes_ready.
    destruct (py_int e.1.1); [|done]. by rewrite Hn. }
  exists db', n. split; [done|].
  apply merge_into_global_Ok in Hrun as [Hloop _].
  destruct (merge_games_spec _ _ _ _ _ Hloop Hnd) as (Hother & _ & _ & Hcells & ->).
  split_and!.
  - by rewrite length_filter_all.
  - intros s. apply Hother. intros k g z _ _. discriminate.
  - intros k nm v z Hin Hz. destruct (Hcells k nm v z Hin Hz) as [Hc _].
    unfold db_cell. by rewrite Hc, Hcell.
Qed.

Lemma merge_into_loaded_catalog_adds_everything_witness :
  ∃ db' n,
    merge_into_global loaded_catalog sample_submission = Ok (db', n) ∧
    n = length (entries_of (sub_games sample_submission)) ∧
    (∀ s, catalog db' !! KStr s = catalog loaded_catalog !! KStr s) ∧
    (∀ k nm v z, (k, nm, v) ∈ entries_of (sub_games sample_submission) →
       py_int k = Some z → db_cell db' (KInt z) nm = Some v).
Proof.
  apply (merge_into_loaded_catalog_adds_everything loaded_catalog sample_submission).
  - intros z. apply lookup_singleton_ne. discriminate.
  - apply (bool_decide_unpack _). vm_compute. exact I.
  - apply (bool_decide_unpack _). vm_compute. exact I.
Defined.

(** ** verify_submission *)

Lemma entries_of_app gs1 gs2 : entries_of (gs1 ++ gs2) = entries_of gs1 ++ entries_of gs2.
Proof. unfold entries_of. by rewrite bind_app. Qed.

Lemma verify_submission_spec candidates gs :
  verify_submission candidates {| sub_games := gs |} = true ↔
  ∀ k nm v, (k, nm, v) ∈ entries_of gs → version_ok candidates v.
Proof. unfold verify_submission. simpl. rewrite verify_games_spec. tauto. Qed.

(** X17: [verify_submission] on the games of two submissions is the
    conjunction of the two verifications: a failure is never made up
    for later, and the order of the games does not matter. *)
Theorem verify_submission_of_both (candidates : list archive)
    (gs1 gs2 : list (string * sub_game)) :
  verify_submission candidates {| sub_games := gs1 ++ gs2 |}
  = verify_submission candidates {| sub_games := gs1 |}
    && verify_submission candidates {| sub_games := gs2 |}.
Proof.
  apply Bool.eq_true_iff_eq. rewrite andb_true_iff, !verify_submission_spec.
  rewrite entries_of_app. setoid_rewrite elem_of_app. split.
  - intros Hall. split; intros k nm v Hin; apply (Hall k nm v); tauto.
  - intros [H1 H2] k nm v [Hin|Hin]; eauto.
Qed.

Lemma find_legal_archive_app candidates more hint zip :
  find_legal_archive candidates hint = Some zip →
  find_legal_archive (candidates ++ more) hint = Some zip.
Proof.
  unfold find_legal_archive. induction candidates as [|c cs IH]; simpl; [done|].
  destruct (contains _ _); [done|apply IH].
Qed.

(** X18: a submission that verifies against a list of archives still
    verifies when more archives follow in the list: the first archive
    that matches a hint is the one that is opened. *)
Theorem verify_submission_with_more_archives (candidates more : list archive)
    (sub : submission) :
  verify_submission candidates sub = true →
  verify_submission (candidates ++ more) sub = true.
Proof.
  destruct sub as [gs]. rewrite !verify_submission_spec.
  intros Hall k nm v Hin. destruct (Hall k nm v Hin) as (zip & Hfind & Hfiles).
  exists zip. split; [by apply find_legal_archive_app|done].
Qed.

Lemma verify_submission_with_more_archives_witness :
  verify_submission (sample_archives ++ [{| name := "other.zip"; entries := ∅ |}])
    sample_submission = true.
Proof.
  apply (verify_submission_with_more_archives sample_archives).
  vm_compute. reflexivity.
Defined.

(** ** The archive hint *)

Lemma string_of_list_ascii_nonempty (l : list ascii) :
  l ≠ [] → string_of_list_ascii l ≠ "".
Proof. by destruct l. Qed.

Lemma path_parent_nonempty p : list_ascii_of_string (path_parent p) ≠ [].
Proof.
  unfold path_parent. rewrite list_ascii_of_string_of_list_ascii.
  by destruct (_ ++ _)%list.
Qed.

(** X19: the hint is always the parent directory of the executable
    path, with backslashes turned into slashes: [str(Path(exe).parent)]
    is never the empty string, so the alternative "unknown" of
    [dir_part or "unknown"] is never taken. *)
Theorem archive_hint_is_parent_directory (ver : version) :
  archive_hint ver
  = backslash_to_slash (path_parent (default "" (fields ver !! "executable"))).
Proof.
  unfold archive_hint. rewrite bool_decide_eq_false_2; [done|].
  unfold backslash_to_slash. apply string_of_list_ascii_nonempty.
  pose proof (path_parent_nonempty (default "" (fields ver !! "executable"))) as Hne.
  by destruct (list_ascii_of_string (path_parent _)).
Qed.

Lemma split_on_no_sep sep (l : list ascii) : ∀ cur,
  sep ∉ l → split_on sep cur l = [(rev cur ++ l)%list].
Proof.
  induction l as [|c l IH]; intros cur Hsep.
  - simpl. by rewrite app_nil_r.
  - apply not_elem_of_cons in Hsep as [Hne Hsep]. cbn [split_on].
    rewrite bool_decide_eq_false_2 by done.
    rewrite IH by done. simpl. by rewrite <- app_assoc.
Qed.

Lemma is_prefix_no_sep sep (p l : list ascii) : sep ∉ l → is_prefix (sep :: p) l = false.
Proof.
  intros Hsep. destruct l as [|c l]; [done|].
  apply not_elem_of_cons in Hsep as [Hne _]. cbn [is_prefix].
  by rewrite bool_decide_eq_false_2.
Qed.

Lemma path_parent_bare p :
  "/"%char ∉ list_ascii_of_string p → path_parent p = ".".
Proof.
  intros Hsep. unfold path_parent.
  rewrite !is_prefix_no_sep by done.
  rewrite split_on_no_sep by done. cbn [rev app].
  destruct (decide (list_ascii_of_string p ≠ [] ∧ list_ascii_of_string p ≠ ["."%char]))
    as [Hp|Hp].
  - by rewrite filter_cons_True by done.
  - by rewrite filter_cons_False by done.
Qed.

Lemma lower_char_dot : lower_char "."%char = "."%char.
Proof. reflexivity. Qed.

Lemma is_infix_dot_lower (l : list ascii) :
  is_infix ["."%char] l = true → is_infix ["."%char] (lower_char <$> l) = true.
Proof.
  induction l as [|c l IH]; [done|].
  cbn [is_infix is_prefix fmap list_fmap].
  rewrite !andb_true_r, !orb_true_iff, !bool_decide_eq_true.
  intros [<-|Hin].
  - left. by rewrite lower_char_dot.
  - right. by apply IH.
Qed.

Lemma contains_dot_lower nm : contains "." nm = true → contains "." (lower nm) = true.
Proof.
  unfold contains, lower. rewrite list_ascii_of_string_of_list_ascii.
  apply is_infix_dot_lower.
Qed.

(** X20: for a version whose executable path has no slash (no
    executable field, a bare file name, or a path written with
    backslashes) the hint is "." and, every archive name having a dot,
    the archive that is opened is the first of the list, whichever game
    it belongs to. *)
Theorem bare_executable_takes_first_archive (candidates : list archive) (ver : version) :
  "/"%char ∉ list_ascii_of_string (default "" (fields ver !! "executable")) →
  Forall (λ cand, contains "." (name cand) = true) candidates →
  archive_hint ver = "." ∧
  find_legal_archive candidates (archive_hint ver) = head candidates.
Proof.
  intros Hsep Hdot.
  assert (archive_hint ver = ".") as ->.
  { unfold archive_hint. rewrite path_parent_bare by done. reflexivity. }
  split; [done|]. unfold find_legal_archive.
  destruct Hdot as [|c cs Hc _]; [done|]. cbn [find head].
  change (lower ".") with ".". by rewrite contains_dot_lower.
Qed.

Lemma bare_executable_takes_first_archive_witness :
  archive_hint bare_version = "." ∧
  find_legal_archive two_archives (archive_hint bare_version) = head two_archives.
Proof.
  apply (bare_executable_takes_first_archive two_archives bare_version).
  - apply (bool_decide_unpack _). vm_compute. exact I.
  - apply (bool_decide_unpack _). vm_compute. exact I.
Defined.

End MergeInvariants.
